(** * rklink-logger: a browser logger that persists to localStorage

    Shallow embedding of the class [Logger] of [src/logger.ts], of the
    class as it is built in [dist/index.js] and of [release.sh], and
    proofs of the properties the specification states and of further
    properties of the code.

    - [JSON]: [JSON.stringify] and [JSON.parse] on the values the logger
      stores;
    - the host: JavaScript values, exceptions, [localStorage], the
      console, and the monad of state and exceptions the methods run in;
    - the class, method by method;
    - what the theorems speak about: the slot as the store reads it, runs
      of calls, the operations of the class;
    - a host and some stores for the examples;
    - the built class and the release script;
    - the round-trip law of the codec, then the theorems. *)

From Stdlib Require Import ZArith Ascii String List Lia DecimalString DecimalZ.
From stdpp Require Import base option list strings gmap.

Local Open Scope Z_scope.
Local Open Scope string_scope.
Local Open Scope list_scope.

(* ===================================================================== *)
(** ** JSON values and the host codec *)
(* ===================================================================== *)

Module JSON.

(** What [JSON.parse] can return.  A text is the UTF-8 form of the
    JavaScript string and so is every string value.  IEEE doubles are
    not modelled: an integer written without fraction and exponent is a
    [JNum]; any other number is a [JNumLit] and keeps the literal it was
    written with (where [JSON.parse] reads a double and
    [JSON.stringify] writes the shortest form of that double).  An
    object is the list of its members in source order (property lookup
    takes the last binding of a key, as [JSON.parse] does for
    duplicates). *)
#[local] Set Warnings "-register-all".
Inductive json : Type :=
| JNull
| JBool (b : bool)
| JNum (n : Z)
| JNumLit (literal : string)
| JStr (s : string)
| JArr (xs : list json)
| JObj (fields : list (string * json)).

(** Induction principle that reaches through the nested lists. *)
Section json_induction.
Variable P : json -> Prop.
Hypothesis Hnull : P JNull.
Hypothesis Hbool : forall b, P (JBool b).
Hypothesis Hnum : forall n, P (JNum n).
Hypothesis Hlit : forall s, P (JNumLit s).
Hypothesis Hstr : forall s, P (JStr s).
Hypothesis Harr : forall xs, Forall P xs -> P (JArr xs).
Hypothesis Hobj : forall fs, Forall (fun kv => P (snd kv)) fs -> P (JObj fs).

Fixpoint json_rect' (v : json) : P v :=
  match v with
  | JNull => Hnull
  | JBool b => Hbool b
  | JNum n => Hnum n
  | JNumLit s => Hlit s
  | JStr s => Hstr s
  | JArr xs =>
      Harr xs ((fix go (l : list json) : Forall P l :=
                  match l with
                  | [] => @List.Forall_nil _ P
                  | x :: l' => @List.Forall_cons _ P x l' (json_rect' x) (go l')
                  end) xs)
  | JObj fs =>
      Hobj fs ((fix go (l : list (string * json))
                 : Forall (fun kv => P (snd kv)) l :=
                  match l with
                  | [] => @List.Forall_nil _ _
                  | kv :: l' =>
                      @List.Forall_cons _ (fun kv => P (snd kv)) kv l'
                        (json_rect' (snd kv)) (go l')
                  end) fs)
  end.
End json_induction.

(** *** Characters *)

Definition chars (s : string) : list ascii := list_ascii_of_string s.

Definition is_ws (c : ascii) : bool :=
  Ascii.eqb c " " || Ascii.eqb c "009" || Ascii.eqb c "010" || Ascii.eqb c "013".

Definition is_digit (c : ascii) : bool :=
  (48 <=? N_of_ascii c)%N && (N_of_ascii c <=? 57)%N.

(** The characters a number literal is made of. *)
Definition is_num_char (c : ascii) : bool :=
  Ascii.eqb c "-" || Ascii.eqb c "+" || Ascii.eqb c "." || Ascii.eqb c "e" ||
  Ascii.eqb c "E" || is_digit c.

Fixpoint skip_ws (s : list ascii) : list ascii :=
  match s with
  | c :: r => if is_ws c then skip_ws r else s
  | [] => []
  end.

Fixpoint span (p : ascii -> bool) (s : list ascii) : list ascii * list ascii :=
  match s with
  | c :: r => if p c then let '(a, b) := span p r in (c :: a, b) else ([], s)
  | [] => ([], [])
  end.

(** *** Strings: QuoteJSONString and its inverse *)

Definition hex_digit (n : N) : ascii :=
  if (n <? 10)%N then ascii_of_N (48 + n) else ascii_of_N (87 + n).

Definition hex_value (c : ascii) : option N :=
  let n := N_of_ascii c in
  if is_digit c then Some (n - 48)%N
  else if (97 <=? n)%N && (n <=? 102)%N then Some (n - 87)%N
  else if (65 <=? n)%N && (n <=? 70)%N then Some (n - 55)%N
  else None.

Definition quote_char (c : ascii) : list ascii :=
  if Ascii.eqb c "034" then ["\"; "034"]%char
  else if Ascii.eqb c "\" then ["\"; "\"]%char
  else if Ascii.eqb c "008" then ["\"; "b"]%char
  else if Ascii.eqb c "012" then ["\"; "f"]%char
  else if Ascii.eqb c "010" then ["\"; "n"]%char
  else if Ascii.eqb c "013" then ["\"; "r"]%char
  else if Ascii.eqb c "009" then ["\"; "t"]%char
  else if (N_of_ascii c <? 32)%N then
    ["\"; "u"; "0"; "0"; hex_digit (N_of_ascii c / 16);
     hex_digit (N_of_ascii c mod 16)]%char
  else [c].

Definition quote (s : string) : list ascii :=
  "034"%char :: flat_map quote_char (chars s) ++ ["034"%char].

Definition unescape (e : ascii) : option ascii :=
  if Ascii.eqb e "034" then Some "034"%char
  else if Ascii.eqb e "\" then Some "\"%char
  else if Ascii.eqb e "/" then Some "/"%char
  else if Ascii.eqb e "b" then Some "008"%char
  else if Ascii.eqb e "f" then Some "012"%char
  else if Ascii.eqb e "n" then Some "010"%char
  else if Ascii.eqb e "r" then Some "013"%char
  else if Ascii.eqb e "t" then Some "009"%char
  else None.

Definition hex4 (a b c d : ascii) : option N :=
  match hex_value a, hex_value b, hex_value c, hex_value d with
  | Some x, Some y, Some z, Some w => Some (((x * 16 + y) * 16 + z) * 16 + w)%N
  | _, _, _, _ => None
  end.

Definition cons_chars (c : list ascii) (r : option (list ascii * list ascii))
  : option (list ascii * list ascii) :=
  match r with
  | Some (cs, rest) => Some (c ++ cs, rest)
  | None => None
  end.

(** The UTF-8 form of a code point (of a lone surrogate too). *)
Definition utf8 (n : N) : list ascii :=
  if (n <? 128)%N then [ascii_of_N n]
  else if (n <? 2048)%N then
    [ascii_of_N (192 + n / 64); ascii_of_N (128 + n mod 64)]
  else if (n <? 65536)%N then
    [ascii_of_N (224 + n / 4096); ascii_of_N (128 + (n / 64) mod 64);
     ascii_of_N (128 + n mod 64)]
  else
    [ascii_of_N (240 + n / 262144); ascii_of_N (128 + (n / 4096) mod 64);
     ascii_of_N (128 + (n / 64) mod 64); ascii_of_N (128 + n mod 64)].

Definition high_surrogate (n : N) : bool := (55296 <=? n)%N && (n <? 56320)%N.

Definition low_surrogate (n : N) : bool := (56320 <=? n)%N && (n <? 57344)%N.

(** Reads the body of a string literal up to the closing quote.  An
    escape [\uXXXX] gives the UTF-8 form of its code unit, a high
    surrogate followed by the escape of a low one that of the code point
    of the pair. *)
Fixpoint parse_chars (s : list ascii) : option (list ascii * list ascii) :=
  match s with
  | [] => None
  | c :: r =>
      if Ascii.eqb c "034" then Some ([], r)
      else if Ascii.eqb c "\" then
        match r with
        | [] => None
        | e :: r1 =>
            if Ascii.eqb e "u" then
              match r1 with
              | h1 :: h2 :: h3 :: h4 :: r2 =>
                  match hex4 h1 h2 h3 h4 with
                  | Some n =>
                      if high_surrogate n then
                        match r2 with
                        | b :: u :: l1 :: l2 :: l3 :: l4 :: r3 =>
                            if Ascii.eqb b "\" && Ascii.eqb u "u" then
                              match hex4 l1 l2 l3 l4 with
                              | Some m =>
                                  if low_surrogate m
                                  then cons_chars
                                         (utf8 (65536 + (n - 55296) * 1024
                                                + (m - 56320)))
                                         (parse_chars r3)
                                  else cons_chars (utf8 n) (parse_chars r2)
                              | None => cons_chars (utf8 n) (parse_chars r2)
                              end
                            else cons_chars (utf8 n) (parse_chars r2)
                        | _ => cons_chars (utf8 n) (parse_chars r2)
                        end
                      else cons_chars (utf8 n) (parse_chars r2)
                  | None => None
                  end
              | _ => None
              end
            else
              match unescape e with
              | Some c' => cons_chars [c'] (parse_chars r1)
              | None => None
              end
        end
      else if (N_of_ascii c <? 32)%N then None
      else cons_chars [c] (parse_chars r)
  end.

(** *** Numbers *)

(** An integer, as [JSON.stringify] writes it. *)
Definition print_num (n : Z) : list ascii :=
  chars (NilZero.string_of_int (Z.to_int n)).

(** The token is an integer written without fraction and exponent: an
    optional minus, then [0] or digits that do not start with [0]. *)
Definition int_literal (tok : list ascii) : option Z :=
  match NilZero.int_of_string (string_of_list_ascii tok) with
  | Some d =>
      let n := Z.of_int d in
      if bool_decide (tok = print_num n) || bool_decide (tok = chars "-0")
      then Some n else None
  | None => None
  end.

(** One digit or more; what follows them. *)
Definition digits1 (s : list ascii) : option (list ascii) :=
  match span is_digit s with
  | ([], _) => None
  | (_ :: _, r) => Some r
  end.

Definition int_part (s : list ascii) : option (list ascii) :=
  match s with
  | [] => None
  | c :: r =>
      if Ascii.eqb c "0" then Some r
      else if is_digit c then Some (snd (span is_digit r))
      else None
  end.

Definition frac_part (s : list ascii) : option (list ascii) :=
  match s with
  | c :: r => if Ascii.eqb c "." then digits1 r else Some s
  | [] => Some []
  end.

Definition exp_part (s : list ascii) : option (list ascii) :=
  match s with
  | c :: r =>
      if Ascii.eqb c "e" || Ascii.eqb c "E" then
        match r with
        | c' :: r' =>
            if Ascii.eqb c' "+" || Ascii.eqb c' "-" then digits1 r' else digits1 r
        | [] => None
        end
      else Some s
  | [] => Some []
  end.

(** The grammar of a JSON number: [-? int frac? exp?]. *)
Definition number_literal (tok : list ascii) : bool :=
  let s := match tok with
           | c :: r => if Ascii.eqb c "-" then r else tok
           | [] => tok
           end in
  match int_part s with
  | Some r1 =>
      match frac_part r1 with
      | Some r2 =>
          match exp_part r2 with
          | Some [] => true
          | _ => false
          end
      | None => false
      end
  | None => false
  end.

(** A number is the longest run of number characters, which has to be a
    number literal: any of these characters after a literal is a syntax
    error. *)
Definition parse_num (s : list ascii) : option (json * list ascii) :=
  let '(tok, rest) := span is_num_char s in
  match int_literal tok with
  | Some n => Some (JNum n, rest)
  | None =>
      if number_literal tok
      then Some (JNumLit (string_of_list_ascii tok), rest)
      else None
  end.

(** *** JSON.stringify *)

(** [gap] is the number of spaces of one indentation step ([0] for the
    compact form of [JSON.stringify(v)]), [indent] the current
    indentation. *)
Definition newline (gap indent : nat) : list ascii :=
  match gap with
  | O => []
  | S _ => "010"%char :: repeat " "%char indent
  end.

Definition colon (gap : nat) : list ascii :=
  match gap with
  | O => [":"%char]
  | S _ => [":"; " "]%char
  end.

Fixpoint print (gap indent : nat) (v : json) : list ascii :=
  match v with
  | JNull => chars "null"
  | JBool true => chars "true"
  | JBool false => chars "false"
  | JNum n => print_num n
  | JNumLit s => chars s
  | JStr s => quote s
  | JArr [] => chars "[]"
  | JArr xs =>
      "["%char :: newline gap (indent + gap) ++
      (fix elems (l : list json) : list ascii :=
         match l with
         | [] => newline gap indent ++ ["]"%char]
         | x :: l' =>
             print gap (indent + gap) x ++
             match l' with
             | [] => []
             | _ :: _ => ","%char :: newline gap (indent + gap)
             end ++ elems l'
         end) xs
  | JObj [] => chars "{}"
  | JObj fs =>
      "{"%char :: newline gap (indent + gap) ++
      (fix members (l : list (string * json)) : list ascii :=
         match l with
         | [] => newline gap indent ++ ["}"%char]
         | kv :: l' =>
             quote (fst kv) ++ colon gap ++ print gap (indent + gap) (snd kv) ++
             match l' with
             | [] => []
             | _ :: _ => ","%char :: newline gap (indent + gap)
             end ++ members l'
         end) fs
  end.

(** *** JSON.parse *)

Fixpoint expect (word : list ascii) (s : list ascii) : option (list ascii) :=
  match word, s with
  | [], _ => Some s
  | w :: word', c :: s' => if Ascii.eqb w c then expect word' s' else None
  | _ :: _, [] => None
  end.

Fixpoint parse_value (fuel : nat) (s : list ascii) {struct fuel}
  : option (json * list ascii) :=
  match fuel with
  | O => None
  | S fuel' =>
      match skip_ws s with
      | [] => None
      | c :: r =>
          if Ascii.eqb c "n" then
            match expect (chars "ull") r with
            | Some r' => Some (JNull, r') | None => None end
          else if Ascii.eqb c "t" then
            match expect (chars "rue") r with
            | Some r' => Some (JBool true, r') | None => None end
          else if Ascii.eqb c "f" then
            match expect (chars "alse") r with
            | Some r' => Some (JBool false, r') | None => None end
          else if Ascii.eqb c "034" then
            match parse_chars r with
            | Some (cs, r') => Some (JStr (string_of_list_ascii cs), r')
            | None => None
            end
          else if Ascii.eqb c "[" then
            match skip_ws r with
            | [] => None
            | c' :: r' =>
                if Ascii.eqb c' "]" then Some (JArr [], r')
                else match parse_elems fuel' r with
                     | Some (xs, r'') => Some (JArr xs, r'')
                     | None => None
                     end
            end
          else if Ascii.eqb c "{" then
            match skip_ws r with
            | [] => None
            | c' :: r' =>
                if Ascii.eqb c' "}" then Some (JObj [], r')
                else match parse_members fuel' r with
                     | Some (fs, r'') => Some (JObj fs, r'')
                     | None => None
                     end
            end
          else
            parse_num (c :: r)
      end
  end

with parse_elems (fuel : nat) (s : list ascii) {struct fuel}
  : option (list json * list ascii) :=
  match fuel with
  | O => None
  | S fuel' =>
      match parse_value fuel' s with
      | None => None
      | Some (v, r) =>
          match skip_ws r with
          | [] => None
          | c :: r' =>
              if Ascii.eqb c "," then
                match parse_elems fuel' r' with
                | Some (vs, r'') => Some (v :: vs, r'')
                | None => None
                end
              else if Ascii.eqb c "]" then Some ([v], r')
              else None
          end
      end
  end

with parse_members (fuel : nat) (s : list ascii) {struct fuel}
  : option (list (string * json) * list ascii) :=
  match fuel with
  | O => None
  | S fuel' =>
      match skip_ws s with
      | [] => None
      | q :: r =>
          if Ascii.eqb q "034" then
            match parse_chars r with
            | None => None
            | Some (k, r1) =>
                match skip_ws r1 with
                | [] => None
                | c1 :: r2 =>
                    if Ascii.eqb c1 ":" then
                      match parse_value fuel' r2 with
                      | None => None
                      | Some (v, r3) =>
                          match skip_ws r3 with
                          | [] => None
                          | c3 :: r4 =>
                              if Ascii.eqb c3 "," then
                                match parse_members fuel' r4 with
                                | Some (ms, r5) =>
                                    Some ((string_of_list_ascii k, v) :: ms, r5)
                                | None => None
                                end
                              else if Ascii.eqb c3 "}" then
                                Some ([(string_of_list_ascii k, v)], r4)
                              else None
                          end
                      end
                    else None
                end
            end
          else None
      end
  end.

(** [JSON.stringify(v)], [JSON.stringify(v, null, gap)] and
    [JSON.parse(text)]; [None] stands for the [SyntaxError] thrown. *)
Definition stringify (v : json) : string := string_of_list_ascii (print 0 0 v).

Definition stringify_pretty (gap : nat) (v : json) : string :=
  string_of_list_ascii (print gap 0 v).

Definition parse (text : string) : option json :=
  let cs := chars text in
  match parse_value (S (List.length cs)) cs with
  | Some (v, rest) =>
      match skip_ws rest with
      | [] => Some v
      | _ :: _ => None
      end
  | None => None
  end.

(** *** What the round-trip proof speaks about *)

(** The values [JSON.parse] returns and [JSON.stringify] is given: the
    literal of a [JNumLit] is a number literal that is not an integer
    literal. *)
Fixpoint well_formed (v : json) : bool :=
  match v with
  | JNumLit s =>
      forallb is_num_char (chars s) &&
      match int_literal (chars s) with
      | Some _ => false
      | None => number_literal (chars s)
      end
  | JArr xs => forallb well_formed xs
  | JObj fs => forallb (fun kv => well_formed (snd kv)) fs
  | _ => true
  end.

(** The text after a number must not continue it. *)
Definition ends_number (rest : list ascii) : Prop :=
  match rest with
  | [] => True
  | c :: _ => is_num_char c = false
  end.

(** The printers of the elements of an array and of the members of an
    object, as functions of their own. *)
Fixpoint print_elems (gap indent : nat) (l : list json) : list ascii :=
  match l with
  | [] => newline gap indent ++ ["]"%char]
  | x :: l' =>
      print gap (indent + gap) x ++
      match l' with
      | [] => []
      | _ :: _ => ","%char :: newline gap (indent + gap)
      end ++ print_elems gap indent l'
  end.

Fixpoint print_members (gap indent : nat) (l : list (string * json))
  : list ascii :=
  match l with
  | [] => newline gap indent ++ ["}"%char]
  | kv :: l' =>
      quote (fst kv) ++ colon gap ++ print gap (indent + gap) (snd kv) ++
      match l' with
      | [] => []
      | _ :: _ => ","%char :: newline gap (indent + gap)
      end ++ print_members gap indent l'
  end.

(** Fuel that is enough to read a value back. *)
Fixpoint weight (v : json) : nat :=
  match v with
  | JArr xs => S (list_sum (map (fun x => S (weight x)) xs))
  | JObj fs => S (list_sum (map (fun kv => S (weight (snd kv))) fs))
  | _ => 1%nat
  end.

Definition reads_back (v : json) : Prop :=
  forall gap indent fuel rest,
    (weight v <= fuel)%nat -> ends_number rest ->
    parse_value fuel (print gap indent v ++ rest) = Some (v, rest).

Definition fits (v : json) : Prop :=
  forall gap indent, (weight v <= List.length (print gap indent v))%nat.

End JSON.

Import JSON.

Arguments JSON.parse : simpl never.
Arguments JSON.stringify : simpl never.
Arguments JSON.stringify_pretty : simpl never.

(* ===================================================================== *)
(** ** The host: values, exceptions, localStorage, console *)
(* ===================================================================== *)

(** A JavaScript value as a caller can pass it for [data?: any]: the
    JSON-shaped values, [undefined], [Error] instances, and the values
    [JSON.stringify] does not take as they are: a [BigInt], an object
    that is reachable from itself, and an object with a [toJSON]
    method.  A number is an integer. *)
#[local] Set Warnings "-register-all".
Inductive any : Type :=
| Undefined
| Null
| Bool (b : bool)
| Num (n : Z)
| Str (s : string)
| Arr (xs : list any)
| Obj (fields : list (string * any))
| ErrorObject (message : string) (stack : option string)
              (own : list (string * any))
    (* an [Error]: [message] and [stack] are not enumerable, [own] are
       the enumerable properties it was given *)
| BigInt (n : Z)
| Cyclic (fields : list (string * any))
    (* an object with the members [fields], then one that leads back to
       the object *)
| WithToJSON (self : any) (result : option any).
    (* the object [self] with a method [toJSON] that returns [result],
       or throws when there is none *)

(** Induction principle that reaches through the nested lists. *)
Section any_induction.
Variable P : any -> Prop.
Hypothesis Hundefined : P Undefined.
Hypothesis Hnull : P Null.
Hypothesis Hbool : forall b, P (Bool b).
Hypothesis Hnum : forall n, P (Num n).
Hypothesis Hstr : forall s, P (Str s).
Hypothesis Harr : forall xs, Forall P xs -> P (Arr xs).
Hypothesis Hobj : forall fs, Forall (fun kv => P (snd kv)) fs -> P (Obj fs).
Hypothesis Herror :
  forall m st own, Forall (fun kv => P (snd kv)) own -> P (ErrorObject m st own).
Hypothesis Hbigint : forall n, P (BigInt n).
Hypothesis Hcyclic :
  forall fs, Forall (fun kv => P (snd kv)) fs -> P (Cyclic fs).
Hypothesis Hmethod :
  forall self r, P self -> (forall x, r = Some x -> P x) -> P (WithToJSON self r).

Fixpoint any_rect' (v : any) : P v :=
  let members :=
    fix go (l : list (string * any)) : Forall (fun kv => P (snd kv)) l :=
      match l with
      | [] => @List.Forall_nil _ _
      | kv :: l' =>
          @List.Forall_cons _ (fun kv => P (snd kv)) kv l'
            (any_rect' (snd kv)) (go l')
      end in
  match v with
  | Undefined => Hundefined
  | Null => Hnull
  | Bool b => Hbool b
  | Num n => Hnum n
  | Str s => Hstr s
  | Arr xs =>
      Harr xs ((fix go (l : list any) : Forall P l :=
                  match l with
                  | [] => @List.Forall_nil _ P
                  | x :: l' => @List.Forall_cons _ P x l' (any_rect' x) (go l')
                  end) xs)
  | Obj fs => Hobj fs (members fs)
  | ErrorObject m st own => Herror m st own (members own)
  | BigInt n => Hbigint n
  | Cyclic fs => Hcyclic fs (members fs)
  | WithToJSON self r =>
      Hmethod self r (any_rect' self)
        (match r as r0 return forall x, r0 = Some x -> P x with
         | Some y => fun x E => match E in _ = o
                                      return match o with
                                             | Some z => P z
                                             | None => True
                                             end with
                                | eq_refl => any_rect' y
                                end
         | None => fun x E => match E in _ = o
                                    return match o with
                                           | Some z => P z
                                           | None => True
                                           end with
                              | eq_refl => I
                              end
         end)
  end.
End any_induction.

Inductive exn : Type :=
| TypeError        (* a property of null, a call of a non-function, a value
                      [JSON.stringify] refuses *)
| ReferenceError   (* a global the host does not define *)
| StorageError     (* QuotaExceededError, SecurityError *)
| UserError.       (* what a [toJSON] method of the data throws *)

Inductive outcome (A : Type) : Type :=
| Returned (a : A)
| Thrown (e : exn).
Arguments Returned {A} a.
Arguments Thrown {A} e.

(** SerializeJSONArray and SerializeJSONObject, given what
    SerializeJSONProperty makes of an element: [undefined] is printed as
    [null] in an array and left out of an object. *)
Definition serialize_elements (f : any -> outcome (option json))
  : list any -> outcome (list json) :=
  fix elements (l : list any) : outcome (list json) :=
    match l with
    | [] => Returned []
    | x :: l' =>
        match f x with
        | Thrown e => Thrown e
        | Returned o =>
            match elements l' with
            | Thrown e => Thrown e
            | Returned js =>
                Returned (match o with Some j => j | None => JNull end :: js)
            end
        end
    end.

Definition serialize_members (f : any -> outcome (option json))
  : list (string * any) -> outcome (list (string * json)) :=
  fix members (l : list (string * any)) : outcome (list (string * json)) :=
    match l with
    | [] => Returned []
    | kv :: l' =>
        match f (snd kv) with
        | Thrown e => Thrown e
        | Returned o =>
            match members l' with
            | Thrown e => Thrown e
            | Returned ms =>
                Returned (match o with
                          | Some j => (fst kv, j) :: ms
                          | None => ms
                          end)
            end
        end
    end.

(** SerializeJSONProperty: what [JSON.stringify] makes of a value.
    [Returned None] is [undefined].  With [method] the [toJSON] method
    of the value is called, and its result is serialised without; the
    members of an object and the elements of an array are serialised
    with.  A [BigInt] and the member that closes a cycle make it throw a
    [TypeError]. *)
Fixpoint serialize (method : bool) (v : any) {struct v}
  : outcome (option json) :=
  match v with
  | Undefined => Returned None
  | Null => Returned (Some JNull)
  | Bool b => Returned (Some (JBool b))
  | Num n => Returned (Some (JNum n))
  | Str s => Returned (Some (JStr s))
  | Arr xs =>
      match serialize_elements (serialize true) xs with
      | Returned js => Returned (Some (JArr js))
      | Thrown e => Thrown e
      end
  | Obj fs | ErrorObject _ _ fs =>
      match serialize_members (serialize true) fs with
      | Returned ms => Returned (Some (JObj ms))
      | Thrown e => Thrown e
      end
  | BigInt _ => Thrown TypeError
  | Cyclic fs =>
      match serialize_members (serialize true) fs with
      | Returned _ => Thrown TypeError
      | Thrown e => Thrown e
      end
  | WithToJSON self result =>
      if method then
        match result with
        | Some r => serialize false r
        | None => Thrown UserError
        end
      else serialize false self
  end.

Definition toJSON (v : any) : outcome (option json) := serialize true v.

(** ToBoolean. *)
Fixpoint truthy (v : any) : bool :=
  match v with
  | Undefined | Null => false
  | Bool b => b
  | Num n | BigInt n => negb (Z.eqb n 0)
  | Str s => negb (String.eqb s "")
  | Arr _ | Obj _ | ErrorObject _ _ _ | Cyclic _ => true
  | WithToJSON self _ => truthy self
  end.

(** [typeof v === "object"]. *)
Fixpoint typeof_object (v : any) : bool :=
  match v with
  | Null | Arr _ | Obj _ | ErrorObject _ _ _ | Cyclic _ => true
  | WithToJSON self _ => typeof_object self
  | _ => false
  end.

(** [v instanceof Error]. *)
Fixpoint instanceof_Error (v : any) : bool :=
  match v with
  | ErrorObject _ _ _ => true
  | WithToJSON self _ => instanceof_Error self
  | _ => false
  end.

(** The last binding of a key in a member list. *)
Fixpoint lookup_member {A : Type} (fs : list (string * A)) (k : string)
  : option A :=
  match fs with
  | [] => None
  | (k', v) :: rest =>
      match lookup_member rest k with
      | Some v' => Some v'
      | None => if String.eqb k' k then Some v else None
      end
  end.

(** [v?.stack] *)
Fixpoint optional_stack (v : any) : any :=
  match v with
  | Obj fs | Cyclic fs =>
      match lookup_member fs "stack" with
      | Some x => x
      | None => Undefined
      end
  | ErrorObject _ (Some s) _ => Str s
  | WithToJSON self _ => optional_stack self
  | _ => Undefined
  end.

Inductive ConsoleMethod : Type :=
| console_debug | console_info | console_warn | console_error | console_log.

(** What a method does to its surroundings, in order. *)
Inductive event : Type :=
| EvGetItem (key : string) (threw : bool)
| EvSetItem (key value : string) (threw : bool)
| EvRemoveItem (key : string) (threw : bool)
| EvConsole (method : ConsoleMethod) (args : list any)
| EvAddEventListener (type : string)
| EvDownload (filename content : string).

(** The state the logger works on: the content of [localStorage] and
    the effects observed so far. *)
Record World : Type := mkWorld {
  items : gmap string string;
  trace : list event
}.

(** The two ways the source expects storage to fail (it may be full, or
    disabled): a full store refuses writes, a disabled one refuses every
    access. *)
Inductive StorageStatus : Type := Available | QuotaExceeded | Unavailable.

(** What the host provides at the moment of a call. *)
Record Host : Type := mkHost {
  window : option string;          (* [window.location.href], when [window] is defined *)
  document : bool;                 (* [typeof document !== "undefined"] *)
  navigator : option string;       (* [navigator.userAgent], when [navigator] is defined *)
  storage : StorageStatus;
  Date_now : Z;                    (* [Date.now()], milliseconds *)
  Date_toISOString : string;       (* [new Date().toISOString()] *)
  Error_stack : option string;     (* [new Error().stack] *)
  Date_getTime : option json -> option Z
                                   (* [new Date(x).getTime()]; [None] is NaN *)
}.

(** *** The monad of methods: state and exceptions *)

Definition M (A : Type) : Type := World -> outcome A * World.

Definition ret {A} (a : A) : M A := fun w => (Returned a, w).

Definition bind {A B} (m : M A) (k : A -> M B) : M B :=
  fun w => match m w with
           | (Returned a, w') => k a w'
           | (Thrown e, w') => (Thrown e, w')
           end.

Definition throw {A} (e : exn) : M A := fun w => (Thrown e, w).

(** [try { m } catch { h }] *)
Definition try_catch {A} (m : M A) (h : M A) : M A :=
  fun w => match m w with
           | (Returned a, w') => (Returned a, w')
           | (Thrown _, w') => h w'
           end.

Definition lift {A} (o : outcome A) : M A := fun w => (o, w).

Notation "x <- m ;; k" := (bind m (fun x => k))
  (at level 100, m at next level, right associativity).
Notation "m ;;; k" := (bind m (fun _ => k))
  (at level 100, right associativity).

(** *** localStorage and the console *)

Definition emit (e : event) : M unit :=
  fun w => (Returned tt, mkWorld (items w) (trace w ++ [e])).

Definition localStorage_getItem (h : Host) (key : string) : M (option string) :=
  match storage h with
  | Unavailable => emit (EvGetItem key true) ;;; throw StorageError
  | _ => emit (EvGetItem key false) ;;; (fun w => (Returned (items w !! key), w))
  end.

Definition localStorage_setItem (h : Host) (key value : string) : M unit :=
  match storage h with
  | Available =>
      emit (EvSetItem key value false) ;;;
      (fun w => (Returned tt, mkWorld (<[key := value]> (items w)) (trace w)))
  | _ => emit (EvSetItem key value true) ;;; throw StorageError
  end.

Definition localStorage_removeItem (h : Host) (key : string) : M unit :=
  match storage h with
  | Unavailable => emit (EvRemoveItem key true) ;;; throw StorageError
  | _ =>
      emit (EvRemoveItem key false) ;;;
      (fun w => (Returned tt, mkWorld (delete key (items w)) (trace w)))
  end.

Definition console (m : ConsoleMethod) (args : list any) : M unit :=
  emit (EvConsole m args).

(** *** Properties and arrays of parsed values *)

(** [v.k] for the names the logger reads ([timestamp], [level]): names
    that neither arrays, strings nor [Object.prototype] define. *)
Definition get_prop (v : json) (k : string) : outcome (option json) :=
  match v with
  | JNull => Thrown TypeError
  | JObj fs => Returned (lookup_member fs k)
  | _ => Returned None
  end.

(** [v.push(x)], [v.filter(p)], ...: only an array has these methods. *)
Definition as_array (v : json) : outcome (list json) :=
  match v with
  | JArr xs => Returned xs
  | _ => Thrown TypeError
  end.

Fixpoint Array_filter (p : json -> outcome bool) (xs : list json)
  : outcome (list json) :=
  match xs with
  | [] => Returned []
  | x :: rest =>
      match p x with
      | Thrown e => Thrown e
      | Returned b =>
          match Array_filter p rest with
          | Thrown e => Thrown e
          | Returned ys => Returned (if b then x :: ys else ys)
          end
      end
  end.

(* ===================================================================== *)
(** ** The logger *)
(* ===================================================================== *)

Inductive LogLevel : Type := DEBUG | INFO | WARN | ERROR.

#[global] Instance LogLevel_eq_dec : EqDecision LogLevel.
Proof. solve_decision. Defined.

Definition LogLevel_name (l : LogLevel) : string :=
  match l with
  | DEBUG => "DEBUG"
  | INFO => "INFO"
  | WARN => "WARN"
  | ERROR => "ERROR"
  end.

Record LogEntry : Type := mkLogEntry {
  timestamp : string;
  level : LogLevel;
  message : string;
  data : any;
  stack : any;       (* declared [string], assigned from [data.stack] unchecked *)
  url : string;
  userAgent : string
}.

(** The fields of the class. *)
Record Logger : Type := mkLogger {
  maxLogs : nat;
  storageKey : string;
  enabled : bool;
  levelThreshold : LogLevel;
  logExpireDays : Z
}.

(** The field initialisers. *)
Definition Logger_fields : Logger :=
  {| maxLogs := 1000;
     storageKey := "RKLINK_FRONTEND_LOGS";
     enabled := true;
     levelThreshold := DEBUG;
     logExpireDays := 30 |}.

Definition setLevelThreshold (this : Logger) (l : LogLevel) : Logger :=
  {| maxLogs := maxLogs this; storageKey := storageKey this;
     enabled := enabled this; levelThreshold := l;
     logExpireDays := logExpireDays this |}.

(** The [default] branch of the [switch] is out of reach of the four
    levels. *)
Definition levelOrder (l : LogLevel) : Z :=
  match l with
  | DEBUG => 0
  | INFO => 1
  | WARN => 2
  | ERROR => 3
  end.

Definition shouldLog (this : Logger) (l : LogLevel) : bool :=
  Z.leb (levelOrder (levelThreshold this)) (levelOrder l).

Definition safeLocalStorageSet (h : Host) (key value : string) : M unit :=
  try_catch (localStorage_setItem h key value) (ret tt).

Definition safeLocalStorageGet (h : Host) (key : string) : M (option string) :=
  try_catch (localStorage_getItem h key) (ret None).

Definition createLogEntry (h : Host) (l : LogLevel) (msg : string) (d : any)
  : LogEntry :=
  let stack :=
    if truthy d && instanceof_Error d then optional_stack d
    else if typeof_object d && truthy (optional_stack d) then optional_stack d
    else match Error_stack h with
         | Some s => Str s
         | None => Undefined
         end in
  {| timestamp := Date_toISOString h;
     level := l;
     message := msg;
     data := d;
     stack := stack;
     url := match window h with Some href => href | None => "" end;
     userAgent := match navigator h with Some ua => ua | None => "" end |}.

(** The entry as [JSON.stringify] writes it, when it does: the members
    of the object literal of [createLogEntry] in order, without the
    undefined ones.  It throws what the serialisation of [data], then of
    [stack], throws. *)
Definition member (k : string) (o : option json) : list (string * json) :=
  match o with
  | Some j => [(k, j)]
  | None => []
  end.

Definition LogEntry_json (e : LogEntry) : outcome json :=
  match toJSON (data e) with
  | Thrown x => Thrown x
  | Returned d =>
      match toJSON (stack e) with
      | Thrown x => Thrown x
      | Returned s =>
          Returned (JObj ([("timestamp", JStr (timestamp e));
                           ("level", JStr (LogLevel_name (level e)));
                           ("message", JStr (message e))]
                          ++ member "data" d
                          ++ member "stack" s
                          ++ [("url", JStr (url e));
                              ("userAgent", JStr (userAgent e))]))
      end
  end.

(** The array [logs] of [saveLog] after the push: the values
    [JSON.parse] returned, then the entry. *)
Inductive element : Type :=
| Parsed (x : json)
| Pushed (entry : LogEntry).

Definition element_json (x : element) : outcome json :=
  match x with
  | Parsed j => Returned j
  | Pushed e => LogEntry_json e
  end.

Fixpoint elements_json (l : list element) : outcome (list json) :=
  match l with
  | [] => Returned []
  | x :: l' =>
      match element_json x with
      | Thrown e => Thrown e
      | Returned j =>
          match elements_json l' with
          | Thrown e => Thrown e
          | Returned js => Returned (j :: js)
          end
      end
  end.

(** [JSON.stringify(logs)] *)
Definition stringify_logs (l : list element) : outcome string :=
  match elements_json l with
  | Returned js => Returned (JSON.stringify (JArr js))
  | Thrown e => Thrown e
  end.

Definition clearLogs (this : Logger) (h : Host) : M unit :=
  if negb (enabled this) then ret tt
  else try_catch (localStorage_removeItem h (storageKey this)) (ret tt).

(** Returns what [JSON.parse] returns: the cast to [LogEntry[]] checks
    nothing. *)
Definition getLogs (this : Logger) (h : Host) : M json :=
  if negb (enabled this) then ret (JArr [])
  else
    raw <- safeLocalStorageGet h (storageKey this) ;;
    match raw with
    | None => ret (JArr [])
    | Some text =>
        if String.eqb text "" then ret (JArr [])
        else match JSON.parse text with
             | Some v => ret v
             | None => clearLogs this h ;;; ret (JArr [])
             end
    end.

(** [JSON.stringify(logs)] is an argument of [safeLocalStorageSet]: it
    is evaluated before the [try] of that method is entered. *)
Definition saveLog (this : Logger) (h : Host) (entry : LogEntry) : M unit :=
  if negb (enabled this) then ret tt
  else if negb (shouldLog this (level entry)) then ret tt
  else
    logs <- getLogs this h ;;
    xs <- lift (as_array logs) ;;
    let pushed := map Parsed xs ++ [Pushed entry] in
    let kept := if Nat.ltb (maxLogs this) (List.length pushed)
                then tail pushed else pushed in
    text <- lift (stringify_logs kept) ;;
    safeLocalStorageSet h (storageKey this) text.

Definition not_expired (h : Host) (expireTime : Z) (log : json) : outcome bool :=
  match get_prop log "timestamp" with
  | Thrown e => Thrown e
  | Returned ts =>
      Returned (match Date_getTime h ts with
                | Some t => Z.leb expireTime t
                | None => false
                end)
  end.

Definition cleanExpiredLogs (this : Logger) (h : Host) : M unit :=
  let expireTime := Date_now h - logExpireDays this * 24 * 60 * 60 * 1000 in
  logs <- getLogs this h ;;
  xs <- lift (as_array logs) ;;
  filtered <- lift (Array_filter (not_expired h expireTime) xs) ;;
  if negb (Nat.eqb (List.length filtered) (List.length xs))
  then safeLocalStorageSet h (storageKey this) (JSON.stringify (JArr filtered))
  else ret tt.

Definition colorMap (l : LogLevel) : string :=
  match l with
  | DEBUG => "color: gray"
  | INFO => "color: blue"
  | WARN => "color: orange"
  | ERROR => "color: red; font-weight: bold"
  end.

Definition console_of (l : LogLevel) : ConsoleMethod :=
  match l with
  | DEBUG => console_debug
  | INFO => console_info
  | WARN => console_warn
  | ERROR => console_error
  end.

Definition console_line (entry : LogEntry) : event :=
  EvConsole (console_of (level entry))
    [Str ("%c[" +:+ LogLevel_name (level entry) +:+ "] %c" +:+ message entry);
     Str (colorMap (level entry));
     Str "color: black; font-weight: normal";
     data entry].

(** The [default] branch of the [switch] ([console.log]) is out of reach
    of the four levels. *)
Definition logToConsole (this : Logger) (entry : LogEntry) : M unit :=
  if negb (shouldLog this (level entry)) then ret tt
  else emit (console_line entry).

Definition debug (this : Logger) (h : Host) (msg : string) (d : any) : M unit :=
  let entry := createLogEntry h DEBUG msg d in
  saveLog this h entry ;;; logToConsole this entry.

Definition info (this : Logger) (h : Host) (msg : string) (d : any) : M unit :=
  let entry := createLogEntry h INFO msg d in
  saveLog this h entry ;;; logToConsole this entry.

Definition warn (this : Logger) (h : Host) (msg : string) (d : any) : M unit :=
  let entry := createLogEntry h WARN msg d in
  saveLog this h entry ;;; logToConsole this entry.

Definition error (this : Logger) (h : Host) (msg : string) (d : any) : M unit :=
  let entry := createLogEntry h ERROR msg d in
  saveLog this h entry ;;; logToConsole this entry.

Definition exportLogs (this : Logger) (h : Host) : M string :=
  if negb (enabled this) then ret "[]"
  else logs <- getLogs this h ;; ret (JSON.stringify_pretty 2 logs).

Definition downloadLogs (this : Logger) (h : Host) (filename : option string)
  : M unit :=
  if negb (enabled this) then ret tt
  else
    logs <- exportLogs this h ;;
    if document h then
      let name := match filename with
                  | Some f => if String.eqb f ""
                              then "logs-" +:+ Date_toISOString h +:+ ".json"
                              else f
                  | None => "logs-" +:+ Date_toISOString h +:+ ".json"
                  end in
      emit (EvDownload name logs)
    else throw ReferenceError.

(** The object [getLogsSummary] returns. *)
Module Summary.
Record t : Type := mk {
  total : nat;
  errors : nat;
  warnings : nat;
  info : nat;
  debug : nat
}.
End Summary.

(** [l.level === LogLevel.X] *)
Definition level_is (l : LogLevel) (log : json) : outcome bool :=
  match get_prop log "level" with
  | Thrown e => Thrown e
  | Returned (Some (JStr s)) => Returned (String.eqb s (LogLevel_name l))
  | Returned _ => Returned false
  end.

Definition getLogsSummary (this : Logger) (h : Host) : M Summary.t :=
  if negb (enabled this) then ret (Summary.mk 0 0 0 0 0)
  else
    logs <- getLogs this h ;;
    xs <- lift (as_array logs) ;;
    e <- lift (Array_filter (level_is ERROR) xs) ;;
    w <- lift (Array_filter (level_is WARN) xs) ;;
    i <- lift (Array_filter (level_is INFO) xs) ;;
    d <- lift (Array_filter (level_is DEBUG) xs) ;;
    ret (Summary.mk (List.length xs) (List.length e) (List.length w)
                    (List.length i) (List.length d)).

Definition enable (this : Logger) : Logger :=
  {| maxLogs := maxLogs this; storageKey := storageKey this;
     enabled := true; levelThreshold := levelThreshold this;
     logExpireDays := logExpireDays this |}.

Definition disable (this : Logger) : Logger :=
  {| maxLogs := maxLogs this; storageKey := storageKey this;
     enabled := false; levelThreshold := levelThreshold this;
     logExpireDays := logExpireDays this |}.

(** The two listeners, and the constructor that registers them. *)
Record ErrorEvent : Type := mkErrorEvent {
  ev_message : string;
  ev_filename : string;
  ev_lineno : Z;
  ev_colno : Z;
  ev_error : any
}.

Definition onError (this : Logger) (h : Host) (ev : ErrorEvent) : M unit :=
  error this h "Global Error"
    (Obj [("message", Str (ev_message ev));
          ("filename", Str (ev_filename ev));
          ("lineno", Num (ev_lineno ev));
          ("colno", Num (ev_colno ev));
          ("error", optional_stack (ev_error ev))]).

Definition onUnhandledRejection (this : Logger) (h : Host) (reason : any)
  : M unit :=
  error this h "Unhandled Promise Rejection" (Obj [("reason", reason)]).

Definition setupGlobalErrorHandler : M unit := emit (EvAddEventListener "error").

Definition setupUnhandledRejectionHandler : M unit :=
  emit (EvAddEventListener "unhandledrejection").

Definition new_Logger (h : Host) : M Logger :=
  match window h, document h with
  | Some _, true =>
      cleanExpiredLogs Logger_fields h ;;;
      setupGlobalErrorHandler ;;;
      setupUnhandledRejectionHandler ;;;
      ret Logger_fields
  | _, _ =>
      console console_warn
        [Str "Logger is designed for browser environments and will be disabled."] ;;;
      ret (disable Logger_fields)
  end.

(** A log call by level, and a run of calls on one logger. *)
Definition log (this : Logger) (h : Host) (l : LogLevel) (msg : string) (d : any)
  : M unit :=
  match l with
  | DEBUG => debug this h msg d
  | INFO => info this h msg d
  | WARN => warn this h msg d
  | ERROR => error this h msg d
  end.

(* ===================================================================== *)
(** ** What the store finds in its slot; runs of operations *)
(* ===================================================================== *)

Definition unavailable (h : Host) : bool :=
  match storage h with
  | Unavailable => true
  | _ => false
  end.

(** The text [localStorage.getItem] gives for the slot ([None] is the
    [null] of an absent key or of a failed read). *)
Definition slot (this : Logger) (h : Host) (w : World) : option string :=
  if unavailable h then None else items w !! storageKey this.

(** What [getLogs] makes of that text. *)
Definition decode (s : option string) : json :=
  match s with
  | None => JArr []
  | Some text =>
      if String.eqb text "" then JArr []
      else match JSON.parse text with
           | Some v => v
           | None => JArr []
           end
  end.

(** A text that is there and that [JSON.parse] refuses. *)
Definition corrupt (s : option string) : bool :=
  match s with
  | None => false
  | Some text =>
      negb (String.eqb text "") &&
      match JSON.parse text with
      | Some _ => false
      | None => true
      end
  end.

Definition after_read (this : Logger) (h : Host) (w : World) : World :=
  if corrupt (slot this h w)
  then mkWorld (delete (storageKey this) (items w))
               (trace w ++ [EvGetItem (storageKey this) false;
                            EvRemoveItem (storageKey this) false])
  else mkWorld (items w)
               (trace w ++ [EvGetItem (storageKey this) (unavailable h)]).

(** [push], then [shift] when the array got longer than [maxLogs]. *)
Definition evict {A} (n : nat) (xs : list A) : list A :=
  if Nat.ltb n (List.length xs) then tail xs else xs.

(** [x] is the form [JSON.stringify] gives the entry [e]. *)
Definition stored (e : LogEntry) (x : json) : Prop :=
  LogEntry_json e = Returned x.

(** [JSON.stringify] does not throw on the entry. *)
Definition serialisable (e : LogEntry) : bool :=
  match LogEntry_json e with
  | Returned _ => true
  | Thrown _ => false
  end.

(** The number of entries of a level, counted on the entries. *)
Definition count_level (l : LogLevel) (es : list LogEntry) : nat :=
  count_occ LogLevel_eq_dec (map level es) l.

(** The stored value [x] has, field for field, what the entry [e] has
    ([data] and [stack] in the form [JSON.stringify] gives them). *)
Definition carries (e : LogEntry) (x : json) : Prop :=
  get_prop x "timestamp" = Returned (Some (JStr (timestamp e))) /\
  get_prop x "level" = Returned (Some (JStr (LogLevel_name (level e)))) /\
  get_prop x "message" = Returned (Some (JStr (message e))) /\
  get_prop x "data" = toJSON (data e) /\
  get_prop x "stack" = toJSON (stack e) /\
  get_prop x "url" = Returned (Some (JStr (url e))) /\
  get_prop x "userAgent" = Returned (Some (JStr (userAgent e))).

(** One call of [debug], [info], [warn] or [error], with the host as it
    is at that moment. *)
Record Call : Type := mkCall {
  call_host : Host;
  call_level : LogLevel;
  call_message : string;
  call_data : any
}.

Definition entry_of (c : Call) : LogEntry :=
  createLogEntry (call_host c) (call_level c) (call_message c) (call_data c).

Definition call (this : Logger) (c : Call) : M unit :=
  log this (call_host c) (call_level c) (call_message c) (call_data c).

(** The calls are made one after the other; each has its own outcome. *)
Fixpoint run_calls (this : Logger) (cs : list Call) (w : World)
  : list (outcome unit) * World :=
  match cs with
  | [] => ([], w)
  | c :: cs' =>
      let '(r, w1) := call this c w in
      let '(rs, w2) := run_calls this cs' w1 in
      (r :: rs, w2)
  end.

(** A call at or above the threshold that finds the storage working. *)
Definition accepted (this : Logger) (c : Call) : Prop :=
  levelOrder (levelThreshold this) <= levelOrder (call_level c) /\
  storage (call_host c) = Available.

(** The last [n] elements. *)
Definition most_recent {A} (n : nat) (l : list A) : list A :=
  drop (List.length l - n) l.

(** The slot is empty: the key is absent, or holds the empty string. *)
Definition slot_empty (this : Logger) (w : World) : Prop :=
  items w !! storageKey this = None \/ items w !! storageKey this = Some "".

(** The operations of the class, each with the host as it is when the
    operation runs. *)
Inductive Op : Type :=
| Log (c : Call)
| OnError (h : Host) (ev : ErrorEvent)
| OnUnhandledRejection (h : Host) (reason : any)
| GetLogs (h : Host)
| ClearLogs (h : Host)
| ExportLogs (h : Host)
| DownloadLogs (h : Host) (filename : option string)
| GetLogsSummary (h : Host)
| Enable
| Disable
| SetLevelThreshold (l : LogLevel).

Definition step (op : Op) (st : Logger * World) : Logger * World :=
  let '(this, w) := st in
  match op with
  | Log c => (this, snd (call this c w))
  | OnError h ev => (this, snd (onError this h ev w))
  | OnUnhandledRejection h reason => (this, snd (onUnhandledRejection this h reason w))
  | GetLogs h => (this, snd (getLogs this h w))
  | ClearLogs h => (this, snd (clearLogs this h w))
  | ExportLogs h => (this, snd (exportLogs this h w))
  | DownloadLogs h filename => (this, snd (downloadLogs this h filename w))
  | GetLogsSummary h => (this, snd (getLogsSummary this h w))
  | Enable => (enable this, w)
  | Disable => (disable this, w)
  | SetLevelThreshold l => (setLevelThreshold this l, w)
  end.

Fixpoint run (ops : list Op) (st : Logger * World) : Logger * World :=
  match ops with
  | [] => st
  | op :: ops' => run ops' (step op st)
  end.

(** The collection a reader decodes from the slot has at most [n]
    elements. *)
Definition within_capacity (key : string) (n : nat) (w : World) : Prop :=
  exists xs, decode (items w !! key) = JArr xs /\ (List.length xs <= n)%nat.

(** The entry's timestamp is read as a time that is not before the
    cut-off. *)
Definition fresh (h : Host) (cutoff : Z) (e : LogEntry) : bool :=
  match Date_getTime h (Some (JStr (timestamp e))) with
  | Some t => Z.leb cutoff t
  | None => false
  end.

(* ===================================================================== *)
(** ** A host and some stores for the examples *)
(* ===================================================================== *)

(** A [Date] that reads the format [toISOString] writes,
    [YYYY-MM-DDTHH:mm:ss.sssZ], and takes a number as a time value. *)
Fixpoint digits_value (acc : Z) (cs : list ascii) : option Z :=
  match cs with
  | [] => Some acc
  | c :: r =>
      if JSON.is_digit c
      then digits_value (acc * 10 + Z.of_N (N_of_ascii c) - 48) r
      else None
  end.

Definition days_from_civil (y m d : Z) : Z :=
  let y' := if Z.leb m 2 then y - 1 else y in
  let era := y' / 400 in
  let yoe := y' - era * 400 in
  let mp := (m + 9) mod 12 in
  let doy := (153 * mp + 2) / 5 + d - 1 in
  let doe := yoe * 365 + yoe / 4 - yoe / 100 + doy in
  era * 146097 + doe - 719468.

Definition iso_time (s : string) : option Z :=
  match JSON.chars s with
  | [y1; y2; y3; y4; a; m1; m2; b; d1; d2; t; h1; h2; c; n1; n2; e; s1; s2;
     f; f1; f2; f3; z] =>
      if bool_decide ([a; b; t; c; e; f; z] = JSON.chars "--T::.Z") then
        match digits_value 0 [y1; y2; y3; y4], digits_value 0 [m1; m2],
              digits_value 0 [d1; d2], digits_value 0 [h1; h2],
              digits_value 0 [n1; n2], digits_value 0 [s1; s2],
              digits_value 0 [f1; f2; f3] with
        | Some y, Some m, Some d, Some hh, Some mm, Some ss, Some ms =>
            if Z.leb 1 m && Z.leb m 12 && Z.leb 1 d && Z.leb d 31 &&
               Z.leb hh 23 && Z.leb mm 59 && Z.leb ss 59
            then Some ((((days_from_civil y m d * 24 + hh) * 60 + mm) * 60 + ss)
                       * 1000 + ms)
            else None
        | _, _, _, _, _, _, _ => None
        end
      else None
  | _ => None
  end.

Definition iso_getTime (x : option json) : option Z :=
  match x with
  | Some (JStr s) => iso_time s
  | Some (JNum n) => Some n
  | _ => None
  end.

(** A browser page on 2026-01-01 at midnight UTC. *)
Definition browser : Host :=
  {| window := Some "https://app.example/home";
     document := true;
     navigator := Some "Mozilla/5.0";
     storage := Available;
     Date_now := 1767225600000;
     Date_toISOString := "2026-01-01T00:00:00.000Z";
     Error_stack := Some "Error at main.js:1:1";
     Date_getTime := iso_getTime |}.

(** The same page at another moment. *)
Definition at_time (now : Z) (iso : string) (h : Host) : Host :=
  {| window := window h; document := document h; navigator := navigator h;
     storage := storage h; Date_now := now; Date_toISOString := iso;
     Error_stack := Error_stack h; Date_getTime := Date_getTime h |}.

Definition empty_world : World := mkWorld ∅ [].

(** A logger with another capacity (the other fields kept). *)
Definition with_maxLogs (n : nat) (this : Logger) : Logger :=
  {| maxLogs := n; storageKey := storageKey this; enabled := enabled this;
     levelThreshold := levelThreshold this;
     logExpireDays := logExpireDays this |}.

(** The same host with a storage that is full, and with one that is
    disabled. *)
Definition with_storage (st : StorageStatus) (h : Host) : Host :=
  {| window := window h; document := document h; navigator := navigator h;
     storage := st; Date_now := Date_now h;
     Date_toISOString := Date_toISOString h; Error_stack := Error_stack h;
     Date_getTime := Date_getTime h |}.

Definition corrupt_world : World :=
  mkWorld {[ "RKLINK_FRONTEND_LOGS" := "{not json" ]} [].

Definition sample (l : LogLevel) (msg : string) : LogEntry :=
  createLogEntry browser l msg Undefined.

Definition six_entries : list LogEntry :=
  [sample ERROR "e1"; sample INFO "i1"; sample WARN "w1";
   sample INFO "i2"; sample ERROR "e2"; sample INFO "i3"].

(** The forms [JSON.stringify] gives the entries (those it refuses are
    left out), and a store that holds them. *)
Definition entries_json (es : list LogEntry) : list json :=
  flat_map (fun e => match LogEntry_json e with
                     | Returned x => [x]
                     | Thrown _ => []
                     end) es.

Definition world_of (es : list LogEntry) : World :=
  mkWorld {[ "RKLINK_FRONTEND_LOGS" :=
               JSON.stringify (JArr (entries_json es)) ]} [].

Definition three_calls : list Call :=
  [mkCall browser INFO "User logged in" (Obj [("username", Str "test")]);
   mkCall browser WARN "API response is slow" (Obj [("duration", Num 3000)]);
   mkCall browser ERROR "Failed to fetch data" (ErrorObject "Network Error" None [])].

(** An entry written on 2025-10-01 and one written on 2025-12-25, as
    found by a page opened on 2026-01-01. *)
Definition old_entry : LogEntry :=
  createLogEntry (at_time 1759276800000 "2025-10-01T00:00:00.000Z" browser)
    WARN "old" Undefined.

Definition recent_entry : LogEntry :=
  createLogEntry (at_time 1766620800000 "2025-12-25T00:00:00.000Z" browser)
    INFO "recent" Undefined.

(* ===================================================================== *)
(** ** More of what the theorems speak about *)
(* ===================================================================== *)

(** [Array.isArray(v)] *)
Definition is_array (v : json) : bool :=
  match v with
  | JArr _ => true
  | _ => false
  end.

(** An access to [localStorage]. *)
Definition storage_event (e : event) : bool :=
  match e with
  | EvGetItem _ _ | EvSetItem _ _ _ | EvRemoveItem _ _ => true
  | _ => false
  end.

Definition console_event (e : event) : bool :=
  match e with
  | EvConsole _ _ => true
  | _ => false
  end.

(** The two worlds hold the same text under every key but [key]. *)
Definition same_elsewhere (key : string) (w w' : World) : Prop :=
  forall k, k <> key -> items w' !! k = items w !! k.

(** The element is an object whose [level] member is the name of [l]:
    what [l.level === LogLevel.X] finds on an element that is not
    [null]. *)
Definition has_level (l : LogLevel) (x : json) : bool :=
  match x with
  | JObj fs => match lookup_member fs "level" with
               | Some (JStr s) => String.eqb s (LogLevel_name l)
               | _ => false
               end
  | _ => false
  end.

(** The operation is not [enable()]. *)
Definition not_enable (op : Op) : bool :=
  match op with
  | Enable => false
  | _ => true
  end.

(** [try { m } catch (error) { h(error) }] *)
Definition try_catch_with {A} (m : M A) (h : exn -> M A) : M A :=
  fun w => match m w with
           | (Returned a, w') => (Returned a, w')
           | (Thrown e, w') => h e w'
           end.

(* ===================================================================== *)
(** ** The built class of [dist/index.js] *)
(* ===================================================================== *)

(** The class as it is shipped: no level threshold, no sweep at
    construction, the console written whatever the state, and the
    failures of [saveLog] and [getLogs] caught and reported with
    [console.error]. *)
Module Dist.

Record Logger : Type := mkLogger {
  maxLogs : nat;
  storageKey : string;
  enabled : bool
}.

Definition Logger_fields : Logger :=
  {| maxLogs := 1000; storageKey := "RKLINK_FRONTEND_LOGS"; enabled := true |}.

Definition enable (this : Logger) : Logger :=
  {| maxLogs := maxLogs this; storageKey := storageKey this; enabled := true |}.

Definition disable (this : Logger) : Logger :=
  {| maxLogs := maxLogs this; storageKey := storageKey this; enabled := false |}.

(** The error object a [catch] clause binds: only its kind is kept, the
    message and the stack are the engine's. *)
Definition caught (kind : string) : any := ErrorObject kind None [].

Definition exn_value (e : exn) : any :=
  match e with
  | TypeError => caught "TypeError"
  | ReferenceError => caught "ReferenceError"
  | StorageError => caught "DOMException"
  | UserError => caught "Error"
  end.

Definition createLogEntry (h : Host) (l : LogLevel) (msg : string) (d : any)
  : LogEntry :=
  {| timestamp := Date_toISOString h;
     level := l;
     message := msg;
     data := d;
     stack := match Error_stack h with
              | Some s => Str s
              | None => Undefined
              end;
     url := match window h with Some href => href | None => "" end;
     userAgent := match navigator h with Some ua => ua | None => "" end |}.

(** The [SyntaxError] of [JSON.parse] is caught by the same clause as a
    failure of [getItem]. *)
Definition getLogs (this : Logger) (h : Host) : M json :=
  if negb (enabled this) then ret (JArr [])
  else
    try_catch_with
      (logs <- localStorage_getItem h (storageKey this) ;;
       match logs with
       | None => ret (JArr [])
       | Some text =>
           if String.eqb text "" then ret (JArr [])
           else match JSON.parse text with
                | Some v => ret v
                | None =>
                    console console_error
                      [Str "Failed to get logs:"; caught "SyntaxError"] ;;;
                    ret (JArr [])
                end
       end)
      (fun e =>
         console console_error [Str "Failed to get logs:"; exn_value e] ;;;
         ret (JArr [])).

Definition saveLog (this : Logger) (h : Host) (entry : LogEntry) : M unit :=
  if negb (enabled this) then ret tt
  else
    try_catch_with
      (logs <- getLogs this h ;;
       xs <- lift (as_array logs) ;;
       let pushed := map Parsed xs ++ [Pushed entry] in
       let kept := if Nat.ltb (maxLogs this) (List.length pushed)
                   then tail pushed else pushed in
       text <- lift (stringify_logs kept) ;;
       localStorage_setItem h (storageKey this) text)
      (fun e => console console_error [Str "Failed to save log:"; exn_value e]).

Definition console_line (entry : LogEntry) : event :=
  EvConsole (console_of (level entry))
    [Str ("[" +:+ LogLevel_name (level entry) +:+ "] " +:+ message entry);
     data entry].

Definition debug (this : Logger) (h : Host) (msg : string) (d : any) : M unit :=
  let entry := createLogEntry h DEBUG msg d in
  saveLog this h entry ;;; emit (console_line entry).

Definition info (this : Logger) (h : Host) (msg : string) (d : any) : M unit :=
  let entry := createLogEntry h INFO msg d in
  saveLog this h entry ;;; emit (console_line entry).

Definition warn (this : Logger) (h : Host) (msg : string) (d : any) : M unit :=
  let entry := createLogEntry h WARN msg d in
  saveLog this h entry ;;; emit (console_line entry).

Definition error (this : Logger) (h : Host) (msg : string) (d : any) : M unit :=
  let entry := createLogEntry h ERROR msg d in
  saveLog this h entry ;;; emit (console_line entry).

Definition clearLogs (this : Logger) (h : Host) : M unit :=
  if negb (enabled this) then ret tt
  else localStorage_removeItem h (storageKey this).

Definition exportLogs (this : Logger) (h : Host) : M string :=
  if negb (enabled this) then ret "[]"
  else logs <- getLogs this h ;; ret (JSON.stringify_pretty 2 logs).

Definition getLogsSummary (this : Logger) (h : Host) : M Summary.t :=
  if negb (enabled this) then ret (Summary.mk 0 0 0 0 0)
  else
    logs <- getLogs this h ;;
    xs <- lift (as_array logs) ;;
    e <- lift (Array_filter (level_is ERROR) xs) ;;
    w <- lift (Array_filter (level_is WARN) xs) ;;
    i <- lift (Array_filter (level_is INFO) xs) ;;
    d <- lift (Array_filter (level_is DEBUG) xs) ;;
    ret (Summary.mk (List.length xs) (List.length e) (List.length w)
                    (List.length i) (List.length d)).

Definition new_Logger (h : Host) : M Logger :=
  match window h, document h with
  | Some _, true =>
      setupGlobalErrorHandler ;;;
      setupUnhandledRejectionHandler ;;;
      ret Logger_fields
  | _, _ =>
      console console_warn
        [Str "Logger is designed for browser environments and will be disabled."] ;;;
      ret (disable Logger_fields)
  end.

Definition log (this : Logger) (h : Host) (l : LogLevel) (msg : string) (d : any)
  : M unit :=
  match l with
  | DEBUG => debug this h msg d
  | INFO => info this h msg d
  | WARN => warn this h msg d
  | ERROR => error this h msg d
  end.

End Dist.

(** Stores for the examples of these sections. *)
Definition world_with (text : string) : World :=
  mkWorld {[ "RKLINK_FRONTEND_LOGS" := text; "theme" := "dark" ]} [].

(** A server-side host: no [window], no [document], no [localStorage]. *)
Definition node : Host :=
  {| window := None;
     document := false;
     navigator := None;
     storage := Unavailable;
     Date_now := 1767225600000;
     Date_toISOString := "2026-01-01T00:00:00.000Z";
     Error_stack := Some "Error at server.js:1:1";
     Date_getTime := iso_getTime |}.

Definition undated_entry : LogEntry :=
  createLogEntry (at_time 1766620800000 "yesterday" browser) INFO "undated" Undefined.

Definition script_error : ErrorEvent :=
  {| ev_message := "x is not defined"; ev_filename := "https://app.example/main.js";
     ev_lineno := 12; ev_colno := 5;
     ev_error := ErrorObject "x is not defined"
                   (Some "ReferenceError at main.js:12:5") [] |}.

(* ===================================================================== *)
(** ** The release script *)
(* ===================================================================== *)

(** [release.sh] runs under [set -e]: a simple command that fails ends
    the script with the status of that command, except where the shell
    says otherwise (the test of an [if], and every command of an [&&]
    list but the last).  The [echo] lines are left out. *)
Module Release.

Inductive command : Type :=
| git_diff_index                 (* git diff-index --quiet HEAD -- *)
| npm_run_build                  (* npm run build *)
| npm_version (kind : string)    (* npm version $1 -m "chore(release): %s" *)
| git_push                       (* git push *)
| git_push_tags                  (* git push --tags *)
| npm_publish.                   (* npm publish *)

(** The exit status each command ends with when it is run; 0 is
    success. *)
Definition Env : Type := command -> Z.

Definition ok (env : Env) (c : command) : bool := Z.eqb (env c) 0.

(** A simple command followed by the rest of the script: [ran] are the
    commands run so far. *)
Definition errexit (env : Env) (c : command)
  (rest : list command -> Z * list command) (ran : list command)
  : Z * list command :=
  if ok env c then rest (ran ++ [c]) else (env c, ran ++ [c]).

(** The script with [$1] being [arg] (the empty string when there is no
    argument): its exit status and the commands it ran, in order. *)
Definition release (arg : string) (env : Env) : Z * list command :=
  if String.eqb arg "" then (1, [])
  else if negb (ok env git_diff_index) then (1, [git_diff_index])
  else
    errexit env npm_run_build
      (errexit env (npm_version arg)
         (fun ran =>
            let publish := errexit env npm_publish (fun ran => (0, ran)) in
            if ok env git_push
            then errexit env git_push_tags publish (ran ++ [git_push])
            else publish (ran ++ [git_push])))
      [git_diff_index].

(** Everything works but [git push]. *)
Definition push_fails : Env :=
  fun c => match c with
           | git_push => 1
           | _ => 0
           end.

End Release.

(* ===================================================================== *)
(** ** The codec: [parse] inverts [stringify] *)
(* ===================================================================== *)

Lemma skip_ws_head c r : is_ws c = false -> skip_ws (c :: r) = c :: r.
Proof. intros H. simpl. now rewrite H. Qed.

Lemma skip_ws_repeat n s : skip_ws (repeat " "%char n ++ s) = skip_ws s.
Proof. induction n as [|n IH]; simpl; auto. Qed.

Lemma skip_ws_newline gap indent s :
  skip_ws (newline gap indent ++ s) = skip_ws s.
Proof. destruct gap; simpl; auto using skip_ws_repeat. Qed.

Lemma skip_ws_idem s : skip_ws (skip_ws s) = skip_ws s.
Proof.
  induction s as [|c r IH]; simpl; auto.
  destruct (is_ws c) eqn:E; auto. simpl. now rewrite E.
Qed.

Lemma parse_value_skip fuel s : parse_value fuel (skip_ws s) = parse_value fuel s.
Proof. destruct fuel; simpl; auto. now rewrite skip_ws_idem. Qed.

Lemma parse_value_colon fuel gap s :
  exists t, colon gap ++ s = ":"%char :: t /\
            parse_value fuel t = parse_value fuel s.
Proof.
  destruct gap; simpl; eexists; split; try reflexivity.
  rewrite <- (parse_value_skip _ (_ :: _)). simpl. apply parse_value_skip.
Qed.

Lemma parse_chars_quote_char c tail :
  parse_chars (quote_char c ++ tail) = cons_chars [c] (parse_chars tail).
Proof.
  destruct c as [[] [] [] [] [] [] [] []]; reflexivity.
Qed.

Lemma parse_chars_quoted cs rest :
  parse_chars (flat_map quote_char cs ++ "034"%char :: rest) = Some (cs, rest).
Proof.
  induction cs as [|c cs IH]; simpl; auto.
  rewrite <- app_assoc, parse_chars_quote_char, IH. reflexivity.
Qed.

Lemma parse_chars_quote s rest :
  parse_chars (flat_map quote_char (chars s) ++ "034"%char :: rest)
  = Some (chars s, rest).
Proof. apply parse_chars_quoted. Qed.

Lemma string_of_chars s : string_of_list_ascii (chars s) = s.
Proof. apply string_of_list_ascii_of_string. Qed.

Lemma span_app p a rest :
  Forall (fun c => p c = true) a ->
  match rest with [] => True | c :: _ => p c = false end ->
  span p (a ++ rest) = (a, rest).
Proof.
  intros Ha Hr. induction Ha as [|c a Hc _ IH]; simpl.
  - destruct rest as [|c r]; simpl; auto. now rewrite Hr.
  - now rewrite Hc, IH.
Qed.

Lemma uint_digits d :
  Forall (fun c => is_digit c = true) (chars (NilEmpty.string_of_uint d)).
Proof. induction d; simpl; constructor; auto. Qed.

Lemma digit_num_char c : is_digit c = true -> is_num_char c = true.
Proof. unfold is_num_char. intros ->. apply orb_true_r. Qed.

Lemma print_num_chars n : Forall (fun c => is_num_char c = true) (print_num n).
Proof.
  assert (Hu : forall d, Forall (fun c => is_num_char c = true)
                           (chars (NilZero.string_of_uint d))).
  { intros d. eapply Forall_impl; [|intros c; apply digit_num_char].
    destruct d; try apply (uint_digits (_ _)). repeat constructor. }
  unfold print_num. destruct (Z.to_int n); simpl; auto.
Qed.

Lemma print_num_head n :
  exists c r, print_num n = c :: r /\ is_num_char c = true.
Proof.
  pose proof (print_num_chars n) as H.
  destruct (print_num n) as [|c r] eqn:E.
  - exfalso. unfold print_num in E.
    destruct (Z.to_int n) as [d|d]; simpl in E; try discriminate.
    destruct d; discriminate.
  - inversion H; subst. eauto.
Qed.

Lemma to_int_proper n : Z.to_int n <> Decimal.Pos Decimal.Nil /\
                        Z.to_int n <> Decimal.Neg Decimal.Nil.
Proof.
  destruct n as [|p|p]; simpl; split; try discriminate;
    intros [= H]; now apply DecimalPos.Unsigned.to_uint_nonnil in H.
Qed.

Lemma int_literal_print n : int_literal (print_num n) = Some n.
Proof.
  unfold int_literal. unfold print_num at 1. rewrite string_of_chars.
  destruct (to_int_proper n) as [H1 H2].
  rewrite (NilZero.isi _ H1 H2), DecimalZ.of_to.
  now rewrite bool_decide_eq_true_2.
Qed.

Lemma parse_num_print n rest :
  ends_number rest -> parse_num (print_num n ++ rest) = Some (JNum n, rest).
Proof.
  intros Hr. unfold parse_num.
  rewrite (span_app _ _ _ (print_num_chars n) Hr).
  now rewrite int_literal_print.
Qed.

Lemma well_formed_literal s :
  well_formed (JNumLit s) = true ->
  Forall (fun c => is_num_char c = true) (chars s) /\
  int_literal (chars s) = None /\ number_literal (chars s) = true.
Proof.
  cbn [well_formed]. intros H. apply andb_true_iff in H as [Hc Hl].
  split.
  { apply List.Forall_forall. intros c Hin.
    exact (proj1 (List.forallb_forall _ _) Hc c Hin). }
  destruct (int_literal (chars s)); [discriminate|]. now split.
Qed.

Lemma parse_num_literal s rest :
  well_formed (JNumLit s) = true -> ends_number rest ->
  parse_num (chars s ++ rest) = Some (JNumLit s, rest).
Proof.
  intros Hwf Hr. destruct (well_formed_literal s Hwf) as (Hc & Hi & Hl).
  unfold parse_num. rewrite (span_app _ _ _ Hc Hr), Hi, Hl.
  now rewrite string_of_chars.
Qed.

Lemma literal_head s :
  well_formed (JNumLit s) = true ->
  exists c r, chars s = c :: r /\ is_num_char c = true.
Proof.
  intros Hwf. destruct (well_formed_literal s Hwf) as (Hc & _ & Hl).
  destruct (chars s) as [|c r]; [discriminate Hl|].
  inversion Hc; subst. eauto.
Qed.

Lemma print_arr gap indent x xs :
  print gap indent (JArr (x :: xs))
  = "["%char :: newline gap (indent + gap) ++ print_elems gap indent (x :: xs).
Proof.
  simpl. do 4 f_equal.
  induction xs as [|y l IH]; simpl; auto. now rewrite IH.
Qed.

Lemma print_obj gap indent kv fs :
  print gap indent (JObj (kv :: fs))
  = "{"%char :: newline gap (indent + gap) ++ print_members gap indent (kv :: fs).
Proof.
  simpl. do 6 f_equal.
  induction fs as [|y l IH]; simpl; auto. now rewrite IH.
Qed.

Lemma parse_value_S fuel s :
  parse_value (S fuel) s =
  match skip_ws s with
  | [] => None
  | c :: r =>
      if Ascii.eqb c "n" then
        match expect (chars "ull") r with
        | Some r' => Some (JNull, r') | None => None end
      else if Ascii.eqb c "t" then
        match expect (chars "rue") r with
        | Some r' => Some (JBool true, r') | None => None end
      else if Ascii.eqb c "f" then
        match expect (chars "alse") r with
        | Some r' => Some (JBool false, r') | None => None end
      else if Ascii.eqb c "034" then
        match parse_chars r with
        | Some (cs, r') => Some (JStr (string_of_list_ascii cs), r')
        | None => None
        end
      else if Ascii.eqb c "[" then
        match skip_ws r with
        | [] => None
        | c' :: r' =>
            if Ascii.eqb c' "]" then Some (JArr [], r')
            else match parse_elems fuel r with
                 | Some (xs, r'') => Some (JArr xs, r'')
                 | None => None
                 end
        end
      else if Ascii.eqb c "{" then
        match skip_ws r with
        | [] => None
        | c' :: r' =>
            if Ascii.eqb c' "}" then Some (JObj [], r')
            else match parse_members fuel r with
                 | Some (fs, r'') => Some (JObj fs, r'')
                 | None => None
                 end
        end
      else
        parse_num (c :: r)
  end.
Proof. reflexivity. Qed.

Lemma parse_elems_S fuel s :
  parse_elems (S fuel) s =
  match parse_value fuel s with
  | None => None
  | Some (v, r) =>
      match skip_ws r with
      | [] => None
      | c :: r' =>
          if Ascii.eqb c "," then
            match parse_elems fuel r' with
            | Some (vs, r'') => Some (v :: vs, r'')
            | None => None
            end
          else if Ascii.eqb c "]" then Some ([v], r')
          else None
      end
  end.
Proof. reflexivity. Qed.

Lemma parse_members_S fuel s :
  parse_members (S fuel) s =
  match skip_ws s with
  | [] => None
  | q :: r =>
      if Ascii.eqb q "034" then
        match parse_chars r with
        | None => None
        | Some (k, r1) =>
            match skip_ws r1 with
            | [] => None
            | c1 :: r2 =>
                if Ascii.eqb c1 ":" then
                  match parse_value fuel r2 with
                  | None => None
                  | Some (v, r3) =>
                      match skip_ws r3 with
                      | [] => None
                      | c3 :: r4 =>
                          if Ascii.eqb c3 "," then
                            match parse_members fuel r4 with
                            | Some (ms, r5) =>
                                Some ((string_of_list_ascii k, v) :: ms, r5)
                            | None => None
                            end
                          else if Ascii.eqb c3 "}" then
                            Some ([(string_of_list_ascii k, v)], r4)
                          else None
                      end
                  end
                else None
            end
        end
      else None
  end.
Proof. reflexivity. Qed.

Lemma parse_value_newline fuel gap indent s :
  parse_value fuel (newline gap indent ++ s) = parse_value fuel s.
Proof.
  rewrite <- parse_value_skip, skip_ws_newline. apply parse_value_skip.
Qed.

Lemma parse_elems_newline fuel gap indent s :
  parse_elems fuel (newline gap indent ++ s) = parse_elems fuel s.
Proof.
  destruct fuel; auto. now rewrite !parse_elems_S, parse_value_newline.
Qed.

Lemma parse_members_newline fuel gap indent s :
  parse_members fuel (newline gap indent ++ s) = parse_members fuel s.
Proof.
  destruct fuel; auto. now rewrite !parse_members_S, skip_ws_newline.
Qed.

Lemma num_char_dispatch c :
  is_num_char c = true ->
  is_ws c = false /\ Ascii.eqb c "n" = false /\ Ascii.eqb c "t" = false /\
  Ascii.eqb c "f" = false /\ Ascii.eqb c "034" = false /\
  Ascii.eqb c "[" = false /\ Ascii.eqb c "{" = false /\
  Ascii.eqb c "]" = false.
Proof.
  destruct c as [[] [] [] [] [] [] [] []]; intros H; vm_compute in H;
    try discriminate H; vm_compute; auto 10.
Qed.

Lemma print_head gap indent v :
  well_formed v = true ->
  exists c r, print gap indent v = c :: r /\
              is_ws c = false /\ Ascii.eqb c "]" = false.
Proof.
  intros Hwf.
  destruct v as [|[]|n|l|s|[|x xs]|[|kv fs]];
    try (do 2 eexists; split; [reflexivity|split; reflexivity]).
  - destruct (print_num_head n) as (c & r & E & Hc).
    apply num_char_dispatch in Hc. exists c, r. simpl. intuition.
  - destruct (literal_head l Hwf) as (c & r & E & Hc).
    apply num_char_dispatch in Hc. exists c, r. simpl. intuition.
Qed.

Lemma ends_number_newline gap indent c rest :
  is_num_char c = false -> ends_number (newline gap indent ++ c :: rest).
Proof. destruct gap; simpl; auto. Qed.

Lemma parse_elems_print gap indent xs :
  xs <> [] -> Forall reads_back xs ->
  forall fuel rest,
    (list_sum (map (fun x => S (weight x)) xs) <= fuel)%nat ->
    parse_elems fuel (print_elems gap indent xs ++ rest) = Some (xs, rest).
Proof.
  intros Hne HF. induction HF as [|x l Hx Hl IH]; [congruence|].
  intros fuel rest Hfuel. simpl in Hfuel.
  destruct fuel as [|fuel]; [lia|].
  rewrite parse_elems_S.
  destruct l as [|y l'].
  - simpl print_elems. rewrite <- !app_assoc. simpl app.
    rewrite Hx; [| lia | now apply ends_number_newline].
    rewrite skip_ws_newline. reflexivity.
  - remember (y :: l') as l eqn:El. simpl print_elems. rewrite El at 1.
    rewrite <- !app_assoc. simpl app.
    rewrite Hx; [| lia | reflexivity].
    rewrite skip_ws_head by reflexivity.
    change (Ascii.eqb "," ",") with true. cbv iota.
    rewrite parse_elems_newline, IH; auto; [subst; congruence|lia].
Qed.

Lemma parse_members_print gap indent fs :
  fs <> [] -> Forall (fun kv => reads_back (snd kv)) fs ->
  forall fuel rest,
    (list_sum (map (fun kv => S (weight (snd kv))) fs) <= fuel)%nat ->
    parse_members fuel (print_members gap indent fs ++ rest) = Some (fs, rest).
Proof.
  intros Hne HF. induction HF as [|[k v] l Hx Hl IH]; [congruence|].
  intros fuel rest Hfuel. simpl in Hfuel, Hx.
  destruct fuel as [|fuel]; [lia|].
  rewrite parse_members_S.
  assert (Hkey : forall tail,
             print_members gap indent ((k, v) :: l) ++ rest
             = "034"%char :: flat_map quote_char (chars k) ++ "034"%char ::
               colon gap ++ print gap (indent + gap) v ++ tail ->
             parse_value fuel (print gap (indent + gap) v ++ tail)
             = Some (v, tail) ->
             match skip_ws tail with
             | [] => None
             | c3 :: r4 =>
                 if Ascii.eqb c3 "," then
                   match parse_members fuel r4 with
                   | Some (ms, r5) => Some ((k, v) :: ms, r5)
                   | None => None
                   end
                 else if Ascii.eqb c3 "}" then Some ([(k, v)], r4)
                 else None
             end = Some ((k, v) :: l, rest) ->
             match skip_ws (print_members gap indent ((k, v) :: l) ++ rest) with
             | [] => None
             | q :: r =>
                 if Ascii.eqb q "034" then
                   match parse_chars r with
                   | None => None
                   | Some (k0, r1) =>
                       match skip_ws r1 with
                       | [] => None
                       | c1 :: r2 =>
                           if Ascii.eqb c1 ":" then
                             match parse_value fuel r2 with
                             | None => None
                             | Some (v0, r3) =>
                                 match skip_ws r3 with
                                 | [] => None
                                 | c3 :: r4 =>
                                     if Ascii.eqb c3 "," then
                                       match parse_members fuel r4 with
                                       | Some (ms, r5) =>
                                           Some ((string_of_list_ascii k0, v0) :: ms, r5)
                                       | None => None
                                       end
                                     else if Ascii.eqb c3 "}" then
                                       Some ([(string_of_list_ascii k0, v0)], r4)
                                     else None
                                 end
                             end
                           else None
                       end
                   end
                 else None
             end = Some ((k, v) :: l, rest)).
  { intros tail -> Hv Htail.
    rewrite skip_ws_head by reflexivity.
    change (Ascii.eqb "034" "034") with true. cbv iota.
    rewrite parse_chars_quote.
    destruct (parse_value_colon fuel gap (print gap (indent + gap) v ++ tail))
      as (t & -> & Ht).
    rewrite skip_ws_head by reflexivity.
    change (Ascii.eqb ":" ":") with true. cbv iota.
    rewrite Ht, Hv, string_of_chars. exact Htail. }
  destruct l as [|y l'].
  - apply (Hkey (newline gap indent ++ "}"%char :: rest)).
    + simpl. unfold quote. rewrite <- !app_assoc. simpl. reflexivity.
    + apply Hx; [lia | now apply ends_number_newline].
    + rewrite skip_ws_newline. reflexivity.
  - remember (y :: l') as l eqn:El.
    apply (Hkey (","%char :: newline gap (indent + gap) ++
                 print_members gap indent l ++ rest)).
    + simpl. rewrite El at 1. unfold quote. rewrite <- !app_assoc. simpl.
      rewrite <- ?app_assoc. reflexivity.
    + apply Hx; [lia | reflexivity].
    + rewrite skip_ws_head by reflexivity.
      change (Ascii.eqb "," ",") with true. cbv iota.
      rewrite parse_members_newline, IH; auto; [subst; congruence|lia].
Qed.

Lemma well_formed_elems xs (P : json -> Prop) :
  Forall (fun x => well_formed x = true -> P x) xs ->
  forallb well_formed xs = true -> Forall P xs.
Proof.
  induction 1 as [|x l Hx _ IH]; cbn [forallb]; intros H; constructor;
    apply andb_true_iff in H as [H1 H2]; auto.
Qed.

Lemma well_formed_members (fs : list (string * json)) (P : json -> Prop) :
  Forall (fun kv => well_formed (snd kv) = true -> P (snd kv)) fs ->
  forallb (fun kv => well_formed (snd kv)) fs = true ->
  Forall (fun kv => P (snd kv)) fs.
Proof.
  induction 1 as [|x l Hx _ IH]; cbn [forallb]; intros H; constructor;
    apply andb_true_iff in H as [H1 H2]; auto.
Qed.

(** Every value is read back from its printed form, compact or
    indented, whatever follows it. *)
Lemma parse_value_print v : well_formed v = true -> reads_back v.
Proof.
  induction v as [|b|n|l|s|xs IH|fs IH] using json_rect'; intros Hwf;
    [| | | | |pose proof (well_formed_elems _ _ IH Hwf) as IH'; clear IH;
               rename IH' into IH
     |pose proof (well_formed_members _ _ IH Hwf) as IH'; clear IH;
      rename IH' into IH];
    intros gap indent fuel rest Hfuel Hrest;
    (destruct fuel as [|fuel]; [simpl in Hfuel; lia|]);
    rewrite parse_value_S.
  - reflexivity.
  - destruct b; reflexivity.
  - destruct (print_num_head n) as (c & r & E & Hc).
    pose proof (parse_num_print n rest Hrest) as Hn.
    simpl print. rewrite E in *. rewrite <- app_comm_cons in *.
    apply num_char_dispatch in Hc.
    destruct Hc as (Hw & H1 & H2 & H3 & H4 & H5 & H6 & _).
    rewrite skip_ws_head by exact Hw.
    now rewrite H1, H2, H3, H4, H5, H6, Hn.
  - destruct (literal_head l Hwf) as (c & r & E & Hc).
    pose proof (parse_num_literal l rest Hwf Hrest) as Hn.
    simpl print. rewrite E in *. rewrite <- app_comm_cons in *.
    apply num_char_dispatch in Hc.
    destruct Hc as (Hw & H1 & H2 & H3 & H4 & H5 & H6 & _).
    rewrite skip_ws_head by exact Hw.
    now rewrite H1, H2, H3, H4, H5, H6, Hn.
  - simpl print. unfold quote. rewrite <- app_comm_cons, <- app_assoc.
    rewrite skip_ws_head by reflexivity.
    change (Ascii.eqb "034" "n") with false.
    change (Ascii.eqb "034" "t") with false.
    change (Ascii.eqb "034" "f") with false.
    change (Ascii.eqb "034" "034") with true. cbv iota.
    simpl app. now rewrite parse_chars_quote, string_of_chars.
  - destruct xs as [|x xs]; [reflexivity|].
    rewrite print_arr, <- app_comm_cons, <- app_assoc.
    rewrite skip_ws_head by reflexivity.
    change (Ascii.eqb "[" "n") with false.
    change (Ascii.eqb "[" "t") with false.
    change (Ascii.eqb "[" "f") with false.
    change (Ascii.eqb "[" "034") with false.
    change (Ascii.eqb "[" "[") with true. cbv iota.
    rewrite skip_ws_newline, parse_elems_newline.
    rewrite (parse_elems_print gap indent (x :: xs) ltac:(discriminate) IH)
      by (simpl in Hfuel |- *; lia).
    simpl print_elems. rewrite <- !app_assoc.
    cbn [well_formed forallb] in Hwf. apply andb_true_iff in Hwf as [Hx _].
    destruct (print_head gap (indent + gap) x Hx) as (c & r & -> & Hw & Hc).
    rewrite <- app_comm_cons, skip_ws_head by exact Hw.
    now rewrite Hc.
  - destruct fs as [|kv fs]; [reflexivity|].
    rewrite print_obj, <- app_comm_cons, <- app_assoc.
    rewrite skip_ws_head by reflexivity.
    change (Ascii.eqb "{" "n") with false.
    change (Ascii.eqb "{" "t") with false.
    change (Ascii.eqb "{" "f") with false.
    change (Ascii.eqb "{" "034") with false.
    change (Ascii.eqb "{" "[") with false.
    change (Ascii.eqb "{" "{") with true. cbv iota.
    rewrite skip_ws_newline, parse_members_newline.
    rewrite (parse_members_print gap indent (kv :: fs) ltac:(discriminate) IH)
      by (simpl in Hfuel |- *; lia).
    simpl print_members. unfold quote. rewrite <- !app_assoc.
    rewrite <- app_comm_cons, skip_ws_head by reflexivity.
    reflexivity.
Qed.

Lemma weight_elems gap indent xs :
  Forall fits xs ->
  (list_sum (map (fun x => S (weight x)) xs)
   <= List.length (print_elems gap indent xs))%nat.
Proof.
  induction 1 as [|x l Hx _ IH]; simpl; [lia|].
  specialize (Hx gap (indent + gap)%nat).
  rewrite !length_app. destruct l; simpl in *; rewrite ?length_app in *;
    simpl in *; lia.
Qed.

Lemma weight_members gap indent fs :
  Forall (fun kv => fits (snd kv)) fs ->
  (list_sum (map (fun kv => S (weight (snd kv))) fs)
   <= List.length (print_members gap indent fs))%nat.
Proof.
  induction 1 as [|x l Hx _ IH]; simpl; [lia|].
  specialize (Hx gap (indent + gap)%nat).
  rewrite !length_app. destruct l; simpl in *; rewrite ?length_app in *;
    simpl in *; lia.
Qed.

Lemma weight_le_length v : well_formed v = true -> fits v.
Proof.
  induction v as [|b|n|l|s|xs IH|fs IH] using json_rect'; intros Hwf;
    [| | | | |pose proof (well_formed_elems _ _ IH Hwf) as IH'; clear IH;
               rename IH' into IH
     |pose proof (well_formed_members _ _ IH Hwf) as IH'; clear IH;
      rename IH' into IH];
    intros gap indent.
  - simpl; lia.
  - destruct b; simpl; lia.
  - destruct (print_num_head n) as (c & r & E & _). simpl. rewrite E. simpl; lia.
  - destruct (literal_head l Hwf) as (c & r & E & _). simpl. rewrite E. simpl; lia.
  - simpl; lia.
  - destruct xs as [|x xs]; [simpl; lia|].
    rewrite print_arr. pose proof (weight_elems gap indent _ IH).
    simpl in *. rewrite length_app. lia.
  - destruct fs as [|kv fs]; [simpl; lia|].
    rewrite print_obj. pose proof (weight_members gap indent _ IH).
    simpl in *. rewrite length_app. simpl. lia.
Qed.

(** The round-trip law of the codec: [JSON.parse(JSON.stringify(v, null,
    gap))] is [v], for the compact form ([gap = 0]) and every indented
    one. *)
(** The round-trip law holds of the values [JSON.parse] returns and of
    those [JSON.stringify] makes of the data of a call. *)
Theorem parse_stringify_pretty gap v :
  well_formed v = true -> parse (stringify_pretty gap v) = Some v.
Proof.
  intros Hwf. unfold parse, stringify_pretty, chars.
  rewrite list_ascii_of_string_of_list_ascii.
  pose proof (parse_value_print v Hwf gap 0%nat
                (S (List.length (print gap 0 v))) []) as H.
  rewrite app_nil_r in H. rewrite H; auto.
  - pose proof (weight_le_length v Hwf gap 0%nat). lia.
  - exact I.
Qed.

Theorem parse_stringify v :
  well_formed v = true -> parse (stringify v) = Some v.
Proof. apply (parse_stringify_pretty 0). Qed.

(** What [parse] returns is well formed. *)
Lemma span_forallb p s : forallb p (fst (span p s)) = true.
Proof.
  induction s as [|c r IH]; cbn [span]; [reflexivity|].
  destruct (p c) eqn:Hc; [|reflexivity].
  destruct (span p r) as [a b]. cbn [fst forallb] in *. now rewrite Hc.
Qed.

Lemma parse_num_well_formed s v r :
  parse_num s = Some (v, r) -> well_formed v = true.
Proof.
  unfold parse_num. pose proof (span_forallb is_num_char s) as Hc.
  destruct (span is_num_char s) as [tok rest]. cbn [fst] in Hc.
  destruct (int_literal tok) eqn:Hi; [now intros [= <- _]|].
  destruct (number_literal tok) eqn:Hl; [|discriminate].
  intros [= <- _]. cbn [well_formed]. unfold chars.
  now rewrite list_ascii_of_string_of_list_ascii, Hc, Hi, Hl.
Qed.

Lemma parse_well_formed fuel :
  (forall s v r, parse_value fuel s = Some (v, r) -> well_formed v = true) /\
  (forall s vs r, parse_elems fuel s = Some (vs, r) ->
                  forallb well_formed vs = true) /\
  (forall s fs r, parse_members fuel s = Some (fs, r) ->
                  forallb (fun kv => well_formed (snd kv)) fs = true).
Proof.
  induction fuel as [|fuel (IHv & IHe & IHm)];
    [repeat split; intros; discriminate|].
  split; [|split].
  - intros s v r. rewrite parse_value_S.
    destruct (skip_ws s) as [|c r0]; [discriminate|].
    destruct (Ascii.eqb c "n");
      [destruct (expect _ r0); [now intros [= <- _]|discriminate]|].
    destruct (Ascii.eqb c "t");
      [destruct (expect _ r0); [now intros [= <- _]|discriminate]|].
    destruct (Ascii.eqb c "f");
      [destruct (expect _ r0); [now intros [= <- _]|discriminate]|].
    destruct (Ascii.eqb c "034");
      [destruct (parse_chars r0) as [[cs r']|]; [now intros [= <- _]|discriminate]|].
    destruct (Ascii.eqb c "[").
    { destruct (skip_ws r0) as [|c' r']; [discriminate|].
      destruct (Ascii.eqb c' "]"); [now intros [= <- _]|].
      destruct (parse_elems fuel r0) as [[xs r'']|] eqn:He; [|discriminate].
      intros [= <- _]. cbn [well_formed]. eauto. }
    destruct (Ascii.eqb c "{").
    { destruct (skip_ws r0) as [|c' r']; [discriminate|].
      destruct (Ascii.eqb c' "}"); [now intros [= <- _]|].
      destruct (parse_members fuel r0) as [[fs r'']|] eqn:He; [|discriminate].
      intros [= <- _]. cbn [well_formed]. eauto. }
    apply parse_num_well_formed.
  - intros s vs r. rewrite parse_elems_S.
    destruct (parse_value fuel s) as [[v r0]|] eqn:Hv; [|discriminate].
    destruct (skip_ws r0) as [|c r']; [discriminate|].
    destruct (Ascii.eqb c ",").
    { destruct (parse_elems fuel r') as [[vs' r'']|] eqn:He; [|discriminate].
      intros [= <- _]. cbn [forallb].
      now rewrite (IHv _ _ _ Hv), (IHe _ _ _ He). }
    destruct (Ascii.eqb c "]"); [|discriminate].
    intros [= <- _]. cbn [forallb]. now rewrite (IHv _ _ _ Hv).
  - intros s fs r. rewrite parse_members_S.
    destruct (skip_ws s) as [|q r0]; [discriminate|].
    destruct (Ascii.eqb q "034"); [|discriminate].
    destruct (parse_chars r0) as [[k r1]|]; [|discriminate].
    destruct (skip_ws r1) as [|c1 r2]; [discriminate|].
    destruct (Ascii.eqb c1 ":"); [|discriminate].
    destruct (parse_value fuel r2) as [[v r3]|] eqn:Hv; [|discriminate].
    destruct (skip_ws r3) as [|c3 r4]; [discriminate|].
    destruct (Ascii.eqb c3 ",").
    { destruct (parse_members fuel r4) as [[ms r5]|] eqn:He; [|discriminate].
      intros [= <- _]. cbn [forallb snd].
      now rewrite (IHv _ _ _ Hv), (IHm _ _ _ He). }
    destruct (Ascii.eqb c3 "}"); [|discriminate].
    intros [= <- _]. cbn [forallb snd]. now rewrite (IHv _ _ _ Hv).
Qed.

Theorem parse_returns_well_formed text v :
  parse text = Some v -> well_formed v = true.
Proof.
  unfold parse.
  destruct (parse_value _ _) as [[v' rest]|] eqn:Hv; [|discriminate].
  destruct (skip_ws rest); [|discriminate].
  intros [= <-]. eapply parse_well_formed, Hv.
Qed.

Example parse_accepts :
  parse " [1, -2, [true, null], {}] "
  = Some (JArr [JNum 1; JNum (-2); JArr [JBool true; JNull]; JObj []]).
Proof. reflexivity. Qed.

Example parse_accepts_numbers :
  parse "[1.5, -0.25e+3, 1E2, 0e0, -0]"
  = Some (JArr [JNumLit "1.5"; JNumLit "-0.25e+3"; JNumLit "1E2"; JNumLit "0e0";
                JNum 0]).
Proof. reflexivity. Qed.

(** The escapes of U+00E9, of U+4E2D and of the surrogate pair of
    U+1F600 give their UTF-8 forms. *)
Example parse_accepts_escapes :
  parse (String "034" "\u00e9\u4e2d\ud83d\ude00\/\n" +:+ String "034" "")
  = Some (JStr (String "195" (String "169" (String "228" (String "184"
            (String "173" (String "240" (String "159" (String "152"
               (String "128" (String "/" (String "010" "")))))))))))).
Proof. reflexivity. Qed.

Example parse_refuses :
  parse "" = None /\ parse "{not json" = None /\ parse "[1,]" = None /\
  parse "[01]" = None /\ parse "[1] 2" = None /\ parse "[1.]" = None /\
  parse "[.5]" = None /\ parse "[1e]" = None /\ parse "[+1]" = None /\
  parse "[1.5.2]" = None /\ parse "[-]" = None /\ parse "[1 2]" = None.
Proof. repeat split; reflexivity. Qed.

(* ===================================================================== *)
(** ** How the methods run *)
(* ===================================================================== *)

Lemma safeLocalStorageGet_run h key w :
  safeLocalStorageGet h key w =
  match storage h with
  | Unavailable => (Returned None, mkWorld (items w) (trace w ++ [EvGetItem key true]))
  | _ => (Returned (items w !! key),
          mkWorld (items w) (trace w ++ [EvGetItem key false]))
  end.
Proof.
  unfold safeLocalStorageGet, localStorage_getItem.
  destruct (storage h); reflexivity.
Qed.

Lemma safeLocalStorageSet_run h key value w :
  safeLocalStorageSet h key value w =
  match storage h with
  | Available => (Returned tt, mkWorld (<[key := value]> (items w))
                                 (trace w ++ [EvSetItem key value false]))
  | _ => (Returned tt, mkWorld (items w) (trace w ++ [EvSetItem key value true]))
  end.
Proof.
  unfold safeLocalStorageSet, localStorage_setItem.
  destruct (storage h); reflexivity.
Qed.

Lemma clearLogs_run this h w :
  clearLogs this h w =
  if enabled this then
    match storage h with
    | Unavailable =>
        (Returned tt, mkWorld (items w)
                        (trace w ++ [EvRemoveItem (storageKey this) true]))
    | _ => (Returned tt, mkWorld (delete (storageKey this) (items w))
                           (trace w ++ [EvRemoveItem (storageKey this) false]))
    end
  else (Returned tt, w).
Proof.
  unfold clearLogs, localStorage_removeItem.
  destruct (enabled this), (storage h); reflexivity.
Qed.

Lemma getLogs_run this h w :
  getLogs this h w =
  if enabled this
  then (Returned (decode (slot this h w)), after_read this h w)
  else (Returned (JArr []), w).
Proof.
  unfold getLogs. destruct (enabled this) eqn:He; [|reflexivity].
  cbn [negb]. unfold bind. rewrite safeLocalStorageGet_run.
  unfold after_read, slot, unavailable.
  destruct (storage h) eqn:Hs; cbn [corrupt decode]; try reflexivity.
  all: destruct (items w !! storageKey this) as [text|]; cbn [corrupt decode];
    try reflexivity.
  all: destruct (String.eqb text ""); cbn [negb andb]; try reflexivity.
  all: destruct (JSON.parse text); try reflexivity.
  all: rewrite clearLogs_run, He, Hs; cbn [items trace];
    now rewrite <- app_assoc.
Qed.

Lemma saveLog_run this h e w :
  saveLog this h e w =
  if enabled this && shouldLog this (level e) then
    match as_array (decode (slot this h w)) with
    | Thrown x => (Thrown x, after_read this h w)
    | Returned xs =>
        match stringify_logs
                (evict (maxLogs this) (map Parsed xs ++ [Pushed e])) with
        | Thrown x => (Thrown x, after_read this h w)
        | Returned text =>
            safeLocalStorageSet h (storageKey this) text (after_read this h w)
        end
    end
  else (Returned tt, w).
Proof.
  unfold saveLog. destruct (enabled this) eqn:He; [|reflexivity].
  destruct (shouldLog this (level e)); [|reflexivity].
  cbn [negb andb]. unfold bind at 1. rewrite getLogs_run, He.
  unfold bind, lift, evict. destruct (as_array _); [|reflexivity].
  now destruct (stringify_logs _).
Qed.

(** [JSON.stringify(logs)] after the push and the shift: the entry in
    the form [JSON.stringify] gives it takes its place in the array; an
    entry that it refuses makes it throw, unless the entry has been
    shifted out at once. *)
Lemma elements_json_pushed xs e :
  elements_json (map Parsed xs ++ [Pushed e]) =
  match LogEntry_json e with
  | Returned j => Returned (xs ++ [j])
  | Thrown x => Thrown x
  end.
Proof.
  induction xs as [|y xs IH]; cbn [map app elements_json element_json].
  - now destruct (LogEntry_json e).
  - rewrite IH. now destruct (LogEntry_json e).
Qed.

Lemma tail_pushed xs e :
  tail (map Parsed xs ++ [Pushed e]) =
  match xs with
  | [] => []
  | _ :: xs' => map Parsed xs' ++ [Pushed e]
  end.
Proof. now destruct xs. Qed.

Lemma stringify_logs_stored n xs e j :
  stored e j ->
  stringify_logs (evict n (map Parsed xs ++ [Pushed e]))
  = Returned (JSON.stringify (JArr (evict n (xs ++ [j])))).
Proof.
  unfold stored, stringify_logs, evict. intros Hj.
  rewrite !length_app, length_map. cbn [List.length].
  destruct (Nat.ltb n (List.length xs + 1)).
  - rewrite tail_pushed. destruct xs as [|y xs]; [reflexivity|].
    now rewrite elements_json_pushed, Hj.
  - now rewrite elements_json_pushed, Hj.
Qed.

Lemma stringify_logs_thrown n xs e x :
  LogEntry_json e = Thrown x ->
  (1 <= n)%nat \/ xs <> [] ->
  stringify_logs (evict n (map Parsed xs ++ [Pushed e])) = Thrown x.
Proof.
  unfold stringify_logs, evict. intros Hx Hn.
  rewrite !length_app, length_map. cbn [List.length].
  destruct (Nat.ltb_spec n (List.length xs + 1)).
  - rewrite tail_pushed. destruct xs as [|y xs].
    + cbn in *. destruct Hn; [lia|congruence].
    + now rewrite elements_json_pushed, Hx.
  - now rewrite elements_json_pushed, Hx.
Qed.

Lemma stringify_logs_shifted xs e :
  stringify_logs (evict 0 (map Parsed xs ++ [Pushed e])) =
  match xs with
  | [] => Returned (JSON.stringify (JArr []))
  | _ :: xs' =>
      match LogEntry_json e with
      | Returned j => Returned (JSON.stringify (JArr (xs' ++ [j])))
      | Thrown x => Thrown x
      end
  end.
Proof.
  unfold stringify_logs, evict. rewrite !length_app, length_map.
  cbn [List.length].
  destruct (Nat.ltb_spec 0 (List.length xs + 1)); [|lia].
  rewrite tail_pushed. destruct xs as [|y xs]; [reflexivity|].
  rewrite elements_json_pushed. now destruct (LogEntry_json e).
Qed.

Lemma log_run this h l msg d w :
  log this h l msg d w =
  match saveLog this h (createLogEntry h l msg d) w with
  | (Returned _, w1) => logToConsole this (createLogEntry h l msg d) w1
  | (Thrown x, w1) => (Thrown x, w1)
  end.
Proof. destruct l; reflexivity. Qed.

Lemma logToConsole_run this e w :
  logToConsole this e w =
  (Returned tt,
   mkWorld (items w)
           (trace w ++ if shouldLog this (level e) then [console_line e] else [])).
Proof.
  unfold logToConsole. destruct (shouldLog this (level e)); cbn [negb].
  - reflexivity.
  - unfold ret. rewrite app_nil_r. now destruct w.
Qed.

(* ===================================================================== *)
(** ** Level filtering and the disabled store *)
(* ===================================================================== *)






(* ===================================================================== *)
(** ** Storage failures *)
(* ===================================================================== *)

(** What the source's types leave out: the cast of [getLogs] checks
    nothing, so a slot in which other code has put a JSON value that is
    not an array makes [logs.push] throw, before any write. *)
Example non_array_slot_throws :
  log Logger_fields browser INFO "hello" Undefined
      (mkWorld {[ "RKLINK_FRONTEND_LOGS" := "null" ]} [])
  = (Thrown TypeError,
     mkWorld {[ "RKLINK_FRONTEND_LOGS" := "null" ]}
             [EvGetItem "RKLINK_FRONTEND_LOGS" false]).
Proof. reflexivity. Qed.

Lemma decode_corrupt s : corrupt s = true -> decode s = JArr [].
Proof.
  destruct s as [text|]; cbn; [|discriminate].
  destruct (String.eqb text ""); cbn; [discriminate|].
  now destruct (JSON.parse text).
Qed.

Lemma decode_parsed text v :
  JSON.parse text = Some v -> decode (Some text) = v.
Proof.
  intros H. cbn [decode]. rewrite H.
  destruct (String.eqb_spec text ""); [|reflexivity].
  subst text. discriminate H.
Qed.

Lemma corrupt_parsed text v :
  JSON.parse text = Some v -> corrupt (Some text) = false.
Proof. intros H. cbn [corrupt]. rewrite H. apply andb_false_r. Qed.

Lemma corrupt_slot this h w :
  corrupt (slot this h w) = true ->
  unavailable h = false /\ corrupt (items w !! storageKey this) = true.
Proof. unfold slot. destruct (unavailable h); cbn; auto; discriminate. Qed.

(** C5. When the [localStorage.setItem] of a log call on an enabled
    store throws, the call returns normally, the console line is still
    written (it is the last thing the call does), and the stored
    collection reads as before: the storage is untouched, or, when the
    slot held an unparsable text, that text has been removed by the read
    that precedes the write (both read as the empty collection). *)
Theorem failed_write_is_swallowed this h l msg d w r w' evs key value :
  enabled this = true ->
  log this h l msg d w = (r, w') ->
  trace w' = trace w ++ evs ->
  In (EvSetItem key value true) evs ->
  r = Returned tt /\
  last evs = Some (console_line (createLogEntry h l msg d)) /\
  decode (items w' !! storageKey this) = decode (items w !! storageKey this) /\
  (items w' = items w \/
   corrupt (items w !! storageKey this) = true /\
   items w' = delete (storageKey this) (items w)).
Proof.
  intros He Hrun Htr Hin.
  rewrite log_run, saveLog_run, He in Hrun. cbn [andb level createLogEntry] in Hrun.
  destruct (shouldLog this l) eqn:Hs.
  2:{ rewrite logToConsole_run in Hrun. cbn [level createLogEntry] in Hrun.
      rewrite Hs in Hrun. injection Hrun as <- <-. cbn [trace] in Htr.
      apply app_inv_head in Htr. subst evs. destruct Hin. }
  destruct (as_array (decode (slot this h w))) as [xs|x].
  2:{ injection Hrun as <- <-. unfold after_read in Htr.
      destruct (corrupt (slot this h w)); cbn [trace] in Htr;
        apply app_inv_head in Htr; subst evs; cbn in Hin;
        intuition discriminate. }
  destruct (stringify_logs _) as [text|x].
  2:{ injection Hrun as <- <-. unfold after_read in Htr.
      destruct (corrupt (slot this h w)); cbn [trace] in Htr;
        apply app_inv_head in Htr; subst evs; cbn in Hin;
        intuition discriminate. }
  rewrite safeLocalStorageSet_run in Hrun.
  destruct (storage h) eqn:Hst.
  { rewrite logToConsole_run in Hrun. injection Hrun as <- <-.
    unfold after_read in Htr.
    destruct (corrupt (slot this h w)); cbn [trace] in Htr;
      rewrite <- !app_assoc in Htr; apply app_inv_head in Htr; subst evs;
      cbn [level createLogEntry] in Hin; rewrite Hs in Hin; cbn in Hin;
      intuition discriminate. }
  all: rewrite logToConsole_run in Hrun; injection Hrun as <- <-;
    cbn [level createLogEntry trace items] in *; rewrite Hs in Htr;
    rewrite <- !app_assoc in Htr; unfold after_read in *;
    destruct (corrupt (slot this h w)) eqn:Hc; cbn [trace items] in *;
    rewrite <- ?app_assoc in Htr; apply app_inv_head in Htr; subst evs;
    (split; [reflexivity|]); (split; [reflexivity|]).
  all: try (split; [reflexivity|now left]).
  all: apply corrupt_slot in Hc as [Hu Hc]; split;
    [rewrite lookup_delete_eq; symmetry; now apply decode_corrupt
    |right; now split].
Qed.

Lemma failed_write_is_swallowed_witness :
  let h := with_storage QuotaExceeded browser in
  let run := log Logger_fields h ERROR "boom" Undefined empty_world in
  fst run = Returned tt /\
  last (trace (snd run)) =
    Some (console_line (createLogEntry h ERROR "boom" Undefined)) /\
  decode (items (snd run) !! storageKey Logger_fields)
  = decode (items empty_world !! storageKey Logger_fields) /\
  (items (snd run) = items empty_world \/
   corrupt (items empty_world !! storageKey Logger_fields) = true /\
   items (snd run) = delete (storageKey Logger_fields) (items empty_world)).
Proof.
  intros h run.
  apply (failed_write_is_swallowed Logger_fields h ERROR "boom" Undefined
           empty_world (fst run) (snd run) (trace (snd run))
           "RKLINK_FRONTEND_LOGS"
           (JSON.stringify
              (JArr (entries_json [createLogEntry h ERROR "boom" Undefined])))).
  - reflexivity.
  - apply surjective_pairing.
  - reflexivity.
  - right. left. reflexivity.
Defined.

(* ===================================================================== *)
(** ** Reading the slot *)
(* ===================================================================== *)

(** C6 (as amended). On an enabled store whose slot gives a non-empty
    text that [JSON.parse] refuses, [getLogs] returns the empty array
    and removes the key (and only it), so that the key is then absent
    and [getLogs] returns the empty array again.  A text that
    [JSON.parse] accepts is not examined further: [getLogs] returns the
    value it parses to, an array of entries or not, and leaves the
    storage as it is.  On a disabled store, and when the slot gives
    nothing (the key is absent or cannot be read) or the empty string,
    [getLogs] returns the empty array and leaves the storage as it
    is. *)
Theorem corrupt_payload_recovery this h w :
  (forall text,
      enabled this = true ->
      slot this h w = Some text -> text <> "" -> JSON.parse text = None ->
      fst (getLogs this h w) = Returned (JArr []) /\
      items (snd (getLogs this h w)) = delete (storageKey this) (items w) /\
      items (snd (getLogs this h w)) !! storageKey this = None /\
      fst (getLogs this h (snd (getLogs this h w))) = Returned (JArr [])) /\
  (forall text v,
      enabled this = true ->
      slot this h w = Some text -> JSON.parse text = Some v ->
      fst (getLogs this h w) = Returned v /\
      items (snd (getLogs this h w)) = items w /\
      fst (getLogs this h (snd (getLogs this h w))) = Returned v) /\
  (enabled this = false \/ slot this h w = None \/ slot this h w = Some "" ->
   fst (getLogs this h w) = Returned (JArr []) /\
   items (snd (getLogs this h w)) = items w).
Proof.
  split; [|split].
  - intros text He Hslot Hne Hparse.
    assert (Hc : corrupt (slot this h w) = true).
    { rewrite Hslot. cbn. rewrite Hparse.
      destruct (String.eqb_spec text ""); [contradiction|reflexivity]. }
    assert (Hafter : slot this h (after_read this h w) = None).
    { unfold after_read. rewrite Hc. unfold slot. cbn [items].
      rewrite lookup_delete_eq. now destruct (unavailable h). }
    rewrite !getLogs_run, He. cbn [fst snd]. rewrite Hafter. cbn [decode].
    rewrite (decode_corrupt _ Hc). unfold after_read. rewrite Hc.
    cbn [items]. rewrite lookup_delete_eq. auto.
  - intros text v He Hslot Hparse.
    assert (Hafter : after_read this h w
                     = mkWorld (items w)
                         (trace w ++ [EvGetItem (storageKey this) (unavailable h)])).
    { unfold after_read. now rewrite Hslot, (corrupt_parsed _ _ Hparse). }
    assert (Hslot' : slot this h (after_read this h w) = Some text).
    { rewrite Hafter. exact Hslot. }
    rewrite !getLogs_run, He. cbn [fst snd].
    rewrite Hslot', Hslot, (decode_parsed _ _ Hparse), Hafter. auto.
  - intros Hcase. rewrite getLogs_run.
    destruct (enabled this) eqn:He; cbn [fst snd]; [|auto].
    destruct Hcase as [Hd|Hv]; [discriminate|].
    unfold after_read.
    destruct Hv as [-> | ->]; cbn; auto.
Qed.

Lemma corrupt_payload_recovery_witness :
  (fst (getLogs Logger_fields browser corrupt_world) = Returned (JArr []) /\
   items (snd (getLogs Logger_fields browser corrupt_world))
   = delete (storageKey Logger_fields) (items corrupt_world) /\
   items (snd (getLogs Logger_fields browser corrupt_world))
     !! storageKey Logger_fields = None /\
   fst (getLogs Logger_fields browser
          (snd (getLogs Logger_fields browser corrupt_world)))
   = Returned (JArr [])) /\
  (fst (getLogs Logger_fields browser (world_with "[{}, 1.5]"))
   = Returned (JArr [JObj []; JNumLit "1.5"]) /\
   items (snd (getLogs Logger_fields browser (world_with "[{}, 1.5]")))
   = items (world_with "[{}, 1.5]") /\
   fst (getLogs Logger_fields browser
          (snd (getLogs Logger_fields browser (world_with "[{}, 1.5]"))))
   = Returned (JArr [JObj []; JNumLit "1.5"])) /\
  (fst (getLogs Logger_fields browser empty_world) = Returned (JArr []) /\
   items (snd (getLogs Logger_fields browser empty_world)) = items empty_world).
Proof.
  split; [|split].
  - apply (proj1 (corrupt_payload_recovery Logger_fields browser corrupt_world)
             "{not json").
    + reflexivity.
    + reflexivity.
    + discriminate.
    + reflexivity.
  - apply (proj1 (proj2 (corrupt_payload_recovery Logger_fields browser
                           (world_with "[{}, 1.5]")))
             "[{}, 1.5]").
    + reflexivity.
    + reflexivity.
    + reflexivity.
  - apply (proj2 (proj2 (corrupt_payload_recovery Logger_fields browser
                           empty_world))).
    right. left. reflexivity.
Defined.

(** C6 as stated fails for a text that is JSON but not a collection of
    entries: the slot holds [{}], which [JSON.parse] accepts; [getLogs]
    returns the object, not an empty sequence, after one read, and the
    text is still in the slot. *)
Lemma foreign_payload_is_kept :
  let w := world_with "{}" in
  enabled Logger_fields = true /\
  slot Logger_fields browser w = Some "{}" /\
  getLogs Logger_fields browser w =
  (Returned (JObj []),
   mkWorld (items w) [EvGetItem "RKLINK_FRONTEND_LOGS" false]) /\
  JObj [] <> JArr [] /\
  slot Logger_fields browser (snd (getLogs Logger_fields browser w))
  = Some "{}".
Proof.
  intros w. repeat split; try reflexivity. discriminate.
Qed.

Lemma stringify_pretty_nonempty gap v :
  well_formed v = true ->
  String.eqb (JSON.stringify_pretty gap v) "" = false.
Proof.
  intros Hv. unfold JSON.stringify_pretty.
  destruct (print_head gap 0 v Hv) as (c & r & -> & _). reflexivity.
Qed.

Lemma decode_stringify_pretty gap v :
  well_formed v = true ->
  decode (Some (JSON.stringify_pretty gap v)) = v.
Proof.
  intros Hv. cbn [decode].
  now rewrite stringify_pretty_nonempty, parse_stringify_pretty.
Qed.

Lemma decode_stringify v :
  well_formed v = true -> decode (Some (JSON.stringify v)) = v.
Proof. apply (decode_stringify_pretty 0). Qed.

(** What a reader decodes is well formed, and so is what
    [JSON.stringify] makes of a value. *)
Lemma decode_well_formed s : well_formed (decode s) = true.
Proof.
  destruct s as [text|]; cbn [decode]; [|reflexivity].
  destruct (String.eqb text ""); [reflexivity|].
  destruct (JSON.parse text) eqn:Hp; [|reflexivity].
  eapply parse_returns_well_formed, Hp.
Qed.

Lemma well_formed_array xs :
  well_formed (JArr xs) = true <-> Forall (fun x => well_formed x = true) xs.
Proof.
  cbn [well_formed]. rewrite List.forallb_forall, List.Forall_forall. tauto.
Qed.

Lemma serialize_elements_well_formed f xs js :
  Forall (fun x => forall o, f x = Returned o ->
                             forall j, o = Some j -> well_formed j = true) xs ->
  serialize_elements f xs = Returned js ->
  forallb well_formed js = true.
Proof.
  intros H. revert js. induction H as [|x l Hx _ IH]; intros js; cbn.
  - now intros [= <-].
  - destruct (f x) as [o|] eqn:Ho; [|discriminate].
    destruct (serialize_elements f l) as [js'|]; [|discriminate].
    intros [= <-]. cbn [forallb]. rewrite (IH _ eq_refl), andb_true_r.
    destruct o as [j|]; [|reflexivity]. now apply (Hx _ eq_refl).
Qed.

Lemma serialize_members_well_formed f fs ms :
  Forall (fun kv => forall o, f (snd kv) = Returned o ->
                              forall j, o = Some j -> well_formed j = true) fs ->
  serialize_members f fs = Returned ms ->
  forallb (fun kv => well_formed (snd kv)) ms = true.
Proof.
  intros H. revert ms. induction H as [|x l Hx _ IH]; intros ms; cbn.
  - now intros [= <-].
  - destruct (f (snd x)) as [o|] eqn:Ho; [|discriminate].
    destruct (serialize_members f l) as [ms'|]; [|discriminate].
    intros [= <-]. specialize (IH _ eq_refl).
    destruct o as [j|]; [|exact IH].
    cbn [forallb snd]. now rewrite (Hx _ eq_refl _ eq_refl), IH.
Qed.

Lemma serialize_well_formed v : forall method o,
  serialize method v = Returned o ->
  forall j, o = Some j -> well_formed j = true.
Proof.
  induction v as [| |b|n|s|xs IH|fs IH|m st own IH|n|fs IH|self r IHs IHr]
    using any_rect'; intros method o; cbn [serialize].
  - now intros [= <-].
  - now intros [= <-] j [= <-].
  - now intros [= <-] j [= <-].
  - now intros [= <-] j [= <-].
  - now intros [= <-] j [= <-].
  - destruct (serialize_elements _ xs) as [js|] eqn:Hjs; [|discriminate].
    intros [= <-] j [= <-]. cbn [well_formed].
    eapply serialize_elements_well_formed, Hjs.
    eapply Forall_impl; [exact IH|]. intros x Hx. apply Hx.
  - destruct (serialize_members _ fs) as [ms|] eqn:Hms; [|discriminate].
    intros [= <-] j [= <-]. cbn [well_formed].
    eapply serialize_members_well_formed, Hms.
    eapply Forall_impl; [exact IH|]. intros x Hx. apply Hx.
  - destruct (serialize_members _ own) as [ms|] eqn:Hms; [|discriminate].
    intros [= <-] j [= <-]. cbn [well_formed].
    eapply serialize_members_well_formed, Hms.
    eapply Forall_impl; [exact IH|]. intros x Hx. apply Hx.
  - discriminate.
  - now destruct (serialize_members _ fs).
  - destruct method; [|apply IHs].
    destruct r as [x|]; [|discriminate]. now apply (IHr x).
Qed.

Lemma toJSON_well_formed v o :
  toJSON v = Returned o -> well_formed (JObj (member "k" o)) = true.
Proof.
  intros H. destruct o as [j|]; [|reflexivity]. cbn.
  now rewrite (serialize_well_formed v _ _ H j).
Qed.

(** Reading does not change what the next read finds. *)
Lemma decode_after_read this h w :
  decode (slot this h (after_read this h w)) = decode (slot this h w).
Proof.
  unfold after_read. destruct (corrupt (slot this h w)) eqn:Hc.
  - rewrite (decode_corrupt _ Hc). unfold slot. cbn [items].
    rewrite lookup_delete_eq. now destruct (unavailable h).
  - reflexivity.
Qed.


(* ===================================================================== *)
(** ** Entries as they are stored *)
(* ===================================================================== *)

Lemma stored_inv e x :
  stored e x ->
  exists d s,
    toJSON (data e) = Returned d /\ toJSON (stack e) = Returned s /\
    x = JObj ([("timestamp", JStr (timestamp e));
               ("level", JStr (LogLevel_name (level e)));
               ("message", JStr (message e))]
              ++ member "data" d ++ member "stack" s
              ++ [("url", JStr (url e)); ("userAgent", JStr (userAgent e))]).
Proof.
  unfold stored, LogEntry_json.
  destruct (toJSON (data e)) as [d|]; [|discriminate].
  destruct (toJSON (stack e)) as [s|]; [|discriminate].
  intros [= <-]. eauto.
Qed.

Lemma stored_total e :
  serialisable e = true -> exists x, stored e x.
Proof.
  unfold serialisable, stored. destruct (LogEntry_json e); [eauto|discriminate].
Qed.

Lemma stored_serialisable e x : stored e x -> serialisable e = true.
Proof. unfold serialisable, stored. now intros ->. Qed.

Lemma stored_level e x :
  stored e x ->
  get_prop x "level" = Returned (Some (JStr (LogLevel_name (level e)))).
Proof.
  intros H. destruct (stored_inv e x H) as ([d|] & [s|] & _ & _ & ->);
    reflexivity.
Qed.

Lemma stored_timestamp e x :
  stored e x -> get_prop x "timestamp" = Returned (Some (JStr (timestamp e))).
Proof.
  intros H. destruct (stored_inv e x H) as ([d|] & [s|] & _ & _ & ->);
    reflexivity.
Qed.

Lemma stored_carries e x : stored e x -> carries e x.
Proof.
  intros H. destruct (stored_inv e x H) as (d & s & Hd & Hs & ->).
  unfold carries. rewrite Hd, Hs.
  destruct d, s; repeat split; reflexivity.
Qed.

Lemma stored_well_formed e x : stored e x -> well_formed x = true.
Proof.
  intros H. destruct (stored_inv e x H) as (d & s & Hd & Hs & ->).
  pose proof (toJSON_well_formed _ _ Hd) as H1.
  pose proof (toJSON_well_formed _ _ Hs) as H2.
  destruct d, s; cbn in *; rewrite ?andb_true_r in *; rewrite ?H1, ?H2;
    reflexivity.
Qed.

Lemma stored_all_well_formed es xs :
  Forall2 stored es xs -> Forall (fun x => well_formed x = true) xs.
Proof.
  induction 1; constructor; eauto using stored_well_formed.
Qed.

Lemma entries_json_stored es :
  Forall (fun e => serialisable e = true) es ->
  Forall2 stored es (entries_json es).
Proof.
  induction 1 as [|e l He _ IH]; [constructor|].
  unfold entries_json. cbn [flat_map]. fold (entries_json l).
  unfold serialisable in He. destruct (LogEntry_json e) eqn:Hx; [|discriminate].
  now constructor.
Qed.

Lemma LogLevel_name_eqb a b :
  String.eqb (LogLevel_name a) (LogLevel_name b) = bool_decide (a = b).
Proof. destruct a, b; reflexivity. Qed.

Lemma level_is_stored l e x :
  stored e x -> level_is l x = Returned (bool_decide (level e = l)).
Proof.
  intros H. unfold level_is.
  now rewrite (stored_level e x H), LogLevel_name_eqb.
Qed.

(** On a collection of stored entries, a callback that reads the
    entries without throwing makes [filter] the list filter. *)
Lemma Array_filter_stored p q es xs :
  Forall2 stored es xs ->
  (forall e x, stored e x -> p x = Returned (q e)) ->
  exists ys, Array_filter p xs = Returned ys /\
             Forall2 stored (List.filter q es) ys.
Proof.
  intros H Hp. induction H as [|e x es xs Hx _ (ys & Hys & IH)].
  - exists []. split; [reflexivity|constructor].
  - cbn [Array_filter List.filter]. rewrite (Hp e x Hx), Hys.
    destruct (q e); eexists; (split; [reflexivity|]); [now constructor|exact IH].
Qed.

Lemma count_level_filter l es :
  List.length (List.filter (fun e => bool_decide (level e = l)) es)
  = count_level l es.
Proof.
  unfold count_level. induction es as [|e es IH]; cbn; [reflexivity|].
  destruct (LogLevel_eq_dec (level e) l) as [E|E].
  - rewrite bool_decide_eq_true_2 by exact E. cbn. now rewrite IH.
  - rewrite bool_decide_eq_false_2 by exact E. exact IH.
Qed.

Lemma level_count l es xs :
  Forall2 stored es xs ->
  exists ys, Array_filter (level_is l) xs = Returned ys /\
             List.length ys = count_level l es.
Proof.
  intros H.
  destruct (Array_filter_stored (level_is l)
              (fun e => bool_decide (level e = l)) es xs H)
    as (ys & Hys & Hst).
  { intros e x. apply level_is_stored. }
  exists ys. split; [exact Hys|].
  rewrite <- (Forall2_length _ _ _ Hst). apply count_level_filter.
Qed.

(** C9. On an enabled store whose slot holds a collection of entries,
    [getLogsSummary] returns their number and, for each level, the
    number of entries of that level; on a disabled store it returns five
    zeros (and touches nothing). *)
Theorem summary_counts this h w :
  (forall text es xs,
      enabled this = true ->
      slot this h w = Some text ->
      JSON.parse text = Some (JArr xs) ->
      Forall2 stored es xs ->
      fst (getLogsSummary this h w) =
      Returned {| Summary.total := List.length es;
                  Summary.errors := count_level ERROR es;
                  Summary.warnings := count_level WARN es;
                  Summary.info := count_level INFO es;
                  Summary.debug := count_level DEBUG es |}) /\
  (enabled this = false ->
   getLogsSummary this h w = (Returned (Summary.mk 0 0 0 0 0), w)).
Proof.
  split.
  - intros text es xs He Hslot Hparse Hes.
    unfold getLogsSummary. rewrite He. cbn [negb].
    unfold bind at 1. rewrite getLogs_run, He, Hslot.
    assert (Hd : decode (Some text) = JArr xs).
    { cbn [decode]. rewrite Hparse.
      destruct (String.eqb_spec text ""); [|reflexivity].
      subst text. discriminate Hparse. }
    rewrite Hd. unfold bind, lift, ret. cbn [as_array].
    destruct (level_count ERROR es xs Hes) as (e & -> & <-).
    destruct (level_count WARN es xs Hes) as (wn & -> & <-).
    destruct (level_count INFO es xs Hes) as (i & -> & <-).
    destruct (level_count DEBUG es xs Hes) as (d & -> & <-).
    cbn [fst]. now rewrite (Forall2_length _ _ _ Hes).
  - intros He. unfold getLogsSummary. now rewrite He.
Qed.

Lemma summary_counts_witness :
  fst (getLogsSummary Logger_fields browser (world_of six_entries))
  = Returned (Summary.mk 6 2 1 3 0) /\
  getLogsSummary (disable Logger_fields) browser (world_of six_entries)
  = (Returned (Summary.mk 0 0 0 0 0), world_of six_entries).
Proof.
  split.
  - apply (proj1 (summary_counts Logger_fields browser (world_of six_entries))
             (JSON.stringify (JArr (entries_json six_entries)))
             six_entries (entries_json six_entries)).
    + reflexivity.
    + reflexivity.
    + apply parse_stringify. reflexivity.
    + apply entries_json_stored. repeat (constructor; [reflexivity|]).
      constructor.
  - apply (proj2 (summary_counts (disable Logger_fields) browser
                    (world_of six_entries))).
    reflexivity.
Defined.

(* ===================================================================== *)
(** ** Appending to the stored collection *)
(* ===================================================================== *)

(** A log call that passes the gates and whose entry [JSON.stringify]
    writes as [x], on a storage that works: the array read is written
    back with [x] pushed and, when that made it longer than [maxLogs],
    its first element shifted out. *)
Lemma log_persists this h l msg d w xs x :
  enabled this = true ->
  shouldLog this l = true ->
  storage h = Available ->
  decode (slot this h w) = JArr xs ->
  stored (createLogEntry h l msg d) x ->
  fst (log this h l msg d w) = Returned tt /\
  items (snd (log this h l msg d w)) =
  <[storageKey this :=
      JSON.stringify (JArr (evict (maxLogs this) (xs ++ [x])))]> (items w).
Proof.
  intros He Hs Hst Hd Hx.
  rewrite log_run, saveLog_run, He. cbn [level createLogEntry andb].
  rewrite Hs, Hd. cbn [as_array].
  rewrite (stringify_logs_stored _ _ _ _ Hx).
  rewrite safeLocalStorageSet_run, Hst, logToConsole_run. cbn [fst snd items].
  split; [reflexivity|].
  unfold after_read. destruct (corrupt (slot this h w)); cbn [items];
    [apply insert_delete_eq|reflexivity].
Qed.

(** A log call that passes the gates and whose entry [JSON.stringify]
    refuses: the call throws what [JSON.stringify] throws, after the
    read and before any write and any console line. *)
Lemma log_raises this h l msg d w xs x :
  enabled this = true ->
  shouldLog this l = true ->
  decode (slot this h w) = JArr xs ->
  LogEntry_json (createLogEntry h l msg d) = Thrown x ->
  (1 <= maxLogs this)%nat \/ xs <> [] ->
  log this h l msg d w = (Thrown x, after_read this h w).
Proof.
  intros He Hs Hd Hx Hn.
  rewrite log_run, saveLog_run, He. cbn [level createLogEntry andb].
  rewrite Hs, Hd. cbn [as_array].
  now rewrite (stringify_logs_thrown _ _ _ _ Hx Hn).
Qed.

Lemma length_evict {A} n (xs : list A) e :
  List.length (evict n (xs ++ [e])) =
  if Nat.ltb (List.length xs) n then S (List.length xs) else List.length xs.
Proof.
  unfold evict. rewrite length_app. cbn [List.length].
  destruct (Nat.ltb_spec n (List.length xs + 1)),
           (Nat.ltb_spec (List.length xs) n); try lia.
  - destruct xs; cbn in *; rewrite ?length_app; cbn; lia.
  - rewrite length_app. cbn. lia.
Qed.

Lemma written_well_formed n xs x :
  well_formed (JArr xs) = true -> well_formed x = true ->
  well_formed (JArr (evict n (xs ++ [x]))) = true.
Proof.
  cbn [well_formed]. intros Hxs Hx. unfold evict.
  destruct (Nat.ltb n _).
  - destruct xs as [|y xs]; [reflexivity|]. cbn [app tail].
    cbn [forallb] in Hxs. apply andb_true_iff in Hxs as [_ Hxs].
    rewrite forallb_app, Hxs. cbn. now rewrite Hx.
  - rewrite forallb_app, Hxs. cbn. now rewrite Hx.
Qed.

(** What a reader decodes from the text such a call wrote. *)
Lemma decode_written s n xs e x :
  decode s = JArr xs -> stored e x ->
  decode (Some (JSON.stringify (JArr (evict n (xs ++ [x])))))
  = JArr (evict n (xs ++ [x])).
Proof.
  intros Hd Hx. apply decode_stringify, written_well_formed.
  - rewrite <- Hd. apply decode_well_formed.
  - eapply stored_well_formed, Hx.
Qed.

(** C10. One log call that passes the gates and whose entry
    [JSON.stringify] writes as [x], on a storage that works, evicts at
    most one entry: when [getLogs] reads an array of length [L], the
    array written has length [L + 1] if [L < maxLogs] and [L] otherwise;
    so a slot that holds more than [maxLogs] entries still holds more
    than [maxLogs] after the call. *)
Theorem one_call_evicts_at_most_one this h l msg d w xs x :
  enabled this = true ->
  levelOrder (levelThreshold this) <= levelOrder l ->
  storage h = Available ->
  fst (getLogs this h w) = Returned (JArr xs) ->
  stored (createLogEntry h l msg d) x ->
  exists ys,
    fst (log this h l msg d w) = Returned tt /\
    items (snd (log this h l msg d w)) !! storageKey this
    = Some (JSON.stringify (JArr ys)) /\
    ys = evict (maxLogs this) (xs ++ [x]) /\
    List.length ys = (if Nat.ltb (List.length xs) (maxLogs this)
                      then S (List.length xs) else List.length xs) /\
    (maxLogs this < List.length xs -> maxLogs this < List.length ys)%nat.
Proof.
  intros He Hs Hst Hget Hx. apply Z.leb_le in Hs. fold (shouldLog this l) in Hs.
  rewrite getLogs_run, He in Hget. cbn [fst] in Hget. injection Hget as Hd.
  destruct (log_persists this h l msg d w xs x He Hs Hst Hd Hx) as [Hr Hi].
  eexists. split; [exact Hr|]. split; [rewrite Hi; apply lookup_insert_eq|].
  split; [reflexivity|]. rewrite length_evict.
  destruct (Nat.ltb_spec (List.length xs) (maxLogs this)); split; auto; lia.
Qed.

Lemma one_call_evicts_at_most_one_witness :
  let this := with_maxLogs 2 Logger_fields in
  let xs := entries_json [sample INFO "a"; sample INFO "b"; sample INFO "c"] in
  let x := JObj [("timestamp", JStr "2026-01-01T00:00:00.000Z");
                 ("level", JStr "WARN"); ("message", JStr "d");
                 ("stack", JStr "Error at main.js:1:1");
                 ("url", JStr "https://app.example/home");
                 ("userAgent", JStr "Mozilla/5.0")] in
  let w := world_of [sample INFO "a"; sample INFO "b"; sample INFO "c"] in
  exists ys,
    fst (log this browser WARN "d" Undefined w) = Returned tt /\
    items (snd (log this browser WARN "d" Undefined w)) !! storageKey this
    = Some (JSON.stringify (JArr ys)) /\
    ys = evict (maxLogs this) (xs ++ [x]) /\
    List.length ys = 3%nat /\
    (maxLogs this < List.length xs -> maxLogs this < List.length ys)%nat.
Proof.
  intros this xs x w.
  apply (one_call_evicts_at_most_one this browser WARN "d" Undefined w xs x);
    try reflexivity.
  cbn. lia.
Defined.

(* ===================================================================== *)
(** ** Runs of log calls *)
(* ===================================================================== *)

Lemma drop_S_tail {A} n (l : list A) : drop (S n) l = tail (drop n l).
Proof.
  revert l. induction n as [|n IH]; intros [|x l]; cbn; auto.
Qed.

Lemma evict_most_recent {A} n (l : list A) e :
  evict n (most_recent n l ++ [e]) = most_recent n (l ++ [e]).
Proof.
  unfold evict, most_recent.
  rewrite !length_app, length_drop. cbn [List.length].
  destruct (Nat.ltb_spec n (List.length l - (List.length l - n) + 1)).
  - replace (List.length l + 1 - n)%nat with (S (List.length l - n)) by lia.
    rewrite drop_S_tail, drop_app_le by lia. reflexivity.
  - replace (List.length l - n)%nat with 0%nat by lia.
    replace (List.length l + 1 - n)%nat with 0%nat by lia. reflexivity.
Qed.


Lemma length_most_recent {A} n (l : list A) :
  (n <= List.length l)%nat -> List.length (most_recent n l) = n.
Proof. intros H. unfold most_recent. rewrite length_drop. lia. Qed.

(** From a slot that reads as the last [maxLogs] elements of [old], a
    run of accepted calls whose entries [JSON.stringify] writes as [new]
    leaves the last [maxLogs] elements of [old] followed by [new], and
    every call returns. *)
Lemma run_calls_persists this cs : forall w old new,
  enabled this = true ->
  Forall (accepted this) cs ->
  Forall2 (fun c x => stored (entry_of c) x) cs new ->
  decode (items w !! storageKey this) = JArr (most_recent (maxLogs this) old) ->
  Forall (fun r => r = Returned tt) (fst (run_calls this cs w)) /\
  decode (items (snd (run_calls this cs w)) !! storageKey this)
  = JArr (most_recent (maxLogs this) (old ++ new)).
Proof.
  induction cs as [|c cs IH]; intros w old new He Hcs Hnew Hw.
  - inversion Hnew; subst. cbn. rewrite app_nil_r. auto.
  - inversion Hcs as [|? ? [Hs Hst] Hcs']; subst.
    inversion Hnew as [|? x ? new' Hx Hnew']; subst.
    apply Z.leb_le in Hs. fold (shouldLog this (call_level c)) in Hs.
    assert (Hslot : decode (slot this (call_host c) w)
                    = JArr (most_recent (maxLogs this) old)).
    { unfold slot, unavailable. now rewrite Hst. }
    destruct (log_persists this (call_host c) (call_level c) (call_message c)
                (call_data c) w _ x He Hs Hst Hslot Hx) as [Hr Hi].
    cbn [run_calls]. unfold call at 1 2.
    destruct (log this (call_host c) (call_level c) (call_message c)
                (call_data c) w) as [r w1] eqn:Hrun.
    cbn [fst snd] in Hr, Hi. subst r.
    specialize (IH w1 (old ++ [x]) new' He Hcs' Hnew').
    destruct (run_calls this cs w1) as [rs w2]. cbn [fst snd] in *.
    rewrite <- app_assoc in IH. cbn [app] in IH.
    destruct IH as [IH1 IH2].
    + rewrite Hi, lookup_insert_eq, (decode_written _ _ _ _ _ Hw Hx).
      f_equal. apply evict_most_recent.
    + split; [constructor; auto|exact IH2].
Qed.

Lemma decode_slot_empty this w :
  slot_empty this w -> decode (items w !! storageKey this) = JArr [].
Proof. intros [-> | ->]; reflexivity. Qed.

Lemma getLogs_readable this h w :
  enabled this = true -> storage h = Available ->
  fst (getLogs this h w) = Returned (decode (items w !! storageKey this)).
Proof.
  intros He Hst. rewrite getLogs_run, He. unfold slot, unavailable.
  now rewrite Hst.
Qed.

Lemma stored_calls cs :
  Forall (fun c => serialisable (entry_of c) = true) cs ->
  exists xs, Forall2 (fun c x => stored (entry_of c) x) cs xs.
Proof.
  induction 1 as [|c l Hc _ (xs & IH)]; [exists []; constructor|].
  destruct (stored_total _ Hc) as (x & Hx). exists (x :: xs). now constructor.
Qed.




(* ===================================================================== *)
(** ** The capacity bound *)
(* ===================================================================== *)

Lemma within_capacity_read this h w :
  within_capacity (storageKey this) (maxLogs this) w ->
  within_capacity (storageKey this) (maxLogs this) (after_read this h w).
Proof.
  intros Hw. unfold after_read.
  destruct (corrupt (slot this h w)); [|exact Hw].
  exists []. cbn [items]. rewrite lookup_delete_eq. split; [reflexivity|cbn; lia].
Qed.

Lemma within_capacity_getLogs this h w :
  within_capacity (storageKey this) (maxLogs this) w ->
  within_capacity (storageKey this) (maxLogs this) (snd (getLogs this h w)).
Proof.
  intros Hw. rewrite getLogs_run.
  destruct (enabled this); [now apply within_capacity_read|exact Hw].
Qed.

Lemma decode_slot_cases this h w :
  decode (slot this h w) = decode (items w !! storageKey this) \/
  decode (slot this h w) = JArr [].
Proof. unfold slot. destruct (unavailable h); auto. Qed.

(** What [JSON.stringify(logs)] gives in [saveLog]: the text of the
    array with the entry in its stored form, or what the entry makes it
    throw, or, when the array was empty and [maxLogs] is 0, the text of
    the empty array. *)
Lemma stringify_logs_cases n xs e :
  (exists x, stored e x /\
             stringify_logs (evict n (map Parsed xs ++ [Pushed e]))
             = Returned (JSON.stringify (JArr (evict n (xs ++ [x]))))) \/
  (exists x, stringify_logs (evict n (map Parsed xs ++ [Pushed e])) = Thrown x) \/
  (n = 0%nat /\ xs = [] /\
   stringify_logs (evict n (map Parsed xs ++ [Pushed e]))
   = Returned (JSON.stringify (JArr []))).
Proof.
  destruct (LogEntry_json e) as [x|x] eqn:Hx.
  - left. exists x. split; [exact Hx|]. now apply stringify_logs_stored.
  - destruct n as [|n].
    + destruct xs as [|y xs].
      * right. right. now rewrite stringify_logs_shifted.
      * right. left. exists x.
        apply stringify_logs_thrown; [exact Hx|right; discriminate].
    + right. left. exists x.
      apply stringify_logs_thrown; [exact Hx|left; lia].
Qed.

Lemma within_capacity_log this h l msg d w :
  within_capacity (storageKey this) (maxLogs this) w ->
  within_capacity (storageKey this) (maxLogs this) (snd (log this h l msg d w)).
Proof.
  intros Hw. rewrite log_run, saveLog_run.
  destruct (enabled this && shouldLog this (level (createLogEntry h l msg d))).
  2:{ rewrite logToConsole_run. exact Hw. }
  assert (Hread := within_capacity_read this h w Hw).
  assert (Hxs : exists xs, decode (slot this h w) = JArr xs /\
                           (List.length xs <= maxLogs this)%nat).
  { destruct (decode_slot_cases this h w) as [-> | ->]; [exact Hw|].
    exists []. split; [reflexivity|cbn; lia]. }
  destruct Hxs as (xs & Hd & Hlen). rewrite Hd. cbn [as_array].
  destruct (stringify_logs_cases (maxLogs this) xs (createLogEntry h l msg d))
    as [(x & Hx & ->)|[(x & ->)|(Hn & -> & ->)]]; [|exact Hread|].
  - rewrite safeLocalStorageSet_run.
    destruct (storage h); rewrite logToConsole_run; cbn [snd items];
      try exact Hread.
    unfold within_capacity. cbn [items].
    eexists. rewrite lookup_insert_eq, (decode_written _ _ _ _ _ Hd Hx).
    split; [reflexivity|].
    rewrite length_evict.
    destruct (Nat.ltb_spec (List.length xs) (maxLogs this)); lia.
  - rewrite safeLocalStorageSet_run.
    destruct (storage h); rewrite logToConsole_run; cbn [snd items];
      try exact Hread.
    unfold within_capacity. cbn [items].
    exists []. rewrite lookup_insert_eq. split; [reflexivity|cbn; lia].
Qed.

Lemma within_capacity_items key n w w' :
  items w' = items w -> within_capacity key n w -> within_capacity key n w'.
Proof. unfold within_capacity. now intros ->. Qed.

Lemma step_fields op this w :
  storageKey (fst (step op (this, w))) = storageKey this /\
  maxLogs (fst (step op (this, w))) = maxLogs this.
Proof. destruct op; auto. Qed.

Lemma within_capacity_step op this w :
  within_capacity (storageKey this) (maxLogs this) w ->
  within_capacity (storageKey this) (maxLogs this) (snd (step op (this, w))).
Proof.
  intros Hw. destruct op; cbn [step snd]; auto.
  - now apply within_capacity_log.
  - exact (within_capacity_log this h ERROR _ _ w Hw).
  - exact (within_capacity_log this h ERROR _ _ w Hw).
  - now apply within_capacity_getLogs.
  - rewrite clearLogs_run. destruct (enabled this); [|exact Hw].
    destruct (storage h); cbn [snd]; try exact Hw;
      exists []; cbn [items]; rewrite lookup_delete_eq; split;
      try reflexivity; cbn; lia.
  - unfold exportLogs. destruct (enabled this) eqn:He; cbn [negb]; [|exact Hw].
    unfold bind, ret. rewrite getLogs_run, He. cbn [snd].
    now apply within_capacity_read.
  - unfold downloadLogs, exportLogs.
    destruct (enabled this) eqn:He; cbn [negb]; [|exact Hw].
    unfold bind, ret, emit, throw. rewrite getLogs_run, He.
    destruct (document h); cbn [snd];
      apply (within_capacity_items _ _ (after_read this h w));
      auto using within_capacity_read.
  - unfold getLogsSummary. destruct (enabled this) eqn:He; cbn [negb]; [|exact Hw].
    unfold bind at 1. rewrite getLogs_run, He.
    assert (Hread := within_capacity_read this h w Hw).
    unfold bind, lift, ret.
    repeat match goal with
           | |- context [match ?o with Returned _ => _ | Thrown _ => _ end] =>
               destruct o
           end; exact Hread.
Qed.

Lemma within_capacity_run ops : forall this w,
  within_capacity (storageKey this) (maxLogs this) w ->
  within_capacity (storageKey this) (maxLogs this) (snd (run ops (this, w))) /\
  storageKey (fst (run ops (this, w))) = storageKey this /\
  maxLogs (fst (run ops (this, w))) = maxLogs this.
Proof.
  induction ops as [|op ops IH]; intros this w Hw; [auto|].
  cbn [run]. pose proof (step_fields op this w) as [Hk Hm].
  pose proof (within_capacity_step op this w Hw) as Hstep.
  destruct (step op (this, w)) as [this1 w1]. cbn [fst snd] in *.
  rewrite <- Hk, <- Hm in Hstep. destruct (IH this1 w1 Hstep) as (H1 & H2 & H3).
  rewrite <- Hk, <- Hm, <- H2, <- H3. rewrite H2, H3. auto.
Qed.

(** C2. From an empty slot, whatever operations are run (log calls
    that throw included), the collection decoded from the slot never has
    more than [maxLogs] elements; and after more than [maxLogs] log
    calls on an enabled store that are accepted and whose entries
    [JSON.stringify] does not refuse, every call has returned normally
    and [getLogs] returns exactly [maxLogs] entries, the most recent
    ones in call order and in their stored forms (the older ones were
    shifted out first). *)
Theorem capacity_bound :
  (forall ops this w,
      slot_empty this w ->
      within_capacity (storageKey this) (maxLogs this)
        (snd (run ops (this, w)))) /\
  (forall this cs w h,
      enabled this = true ->
      slot_empty this w ->
      Forall (accepted this) cs ->
      Forall (fun c => serialisable (entry_of c) = true) cs ->
      (maxLogs this < List.length cs)%nat ->
      storage h = Available ->
      Forall (fun r => r = Returned tt) (fst (run_calls this cs w)) /\
      exists xs all,
        fst (getLogs this h (snd (run_calls this cs w))) = Returned (JArr xs) /\
        List.length xs = maxLogs this /\
        Forall2 (fun c x => stored (entry_of c) x) cs all /\
        xs = most_recent (maxLogs this) all).
Proof.
  split.
  - intros ops this w Hw. apply within_capacity_run.
    exists []. rewrite (decode_slot_empty _ _ Hw). split; [reflexivity|cbn; lia].
  - intros this cs w h He Hw Hcs Hser Hlen Hst.
    destruct (stored_calls cs Hser) as (all & Hall).
    destruct (run_calls_persists this cs w [] all He Hcs Hall) as [Hr Hd].
    { now rewrite decode_slot_empty. }
    split; [exact Hr|]. exists (most_recent (maxLogs this) all), all.
    split; [|split; [|split; [exact Hall|reflexivity]]].
    + rewrite getLogs_readable, Hd by assumption. reflexivity.
    + apply length_most_recent. rewrite <- (Forall2_length _ _ _ Hall). lia.
Qed.

Lemma capacity_bound_witness :
  let this := with_maxLogs 2 Logger_fields in
  within_capacity (storageKey this) (maxLogs this)
    (snd (run [Log (mkCall browser INFO "a" Undefined); Disable;
               Log (mkCall browser INFO "b" Undefined); Enable;
               SetLevelThreshold WARN;
               Log (mkCall browser ERROR "c" Undefined);
               ExportLogs browser;
               Log (mkCall browser WARN "d" Undefined);
               Log (mkCall browser ERROR "e" Undefined)]
            (this, empty_world))) /\
  (Forall (fun r => r = Returned tt) (fst (run_calls this three_calls empty_world)) /\
   exists xs all,
     fst (getLogs this browser (snd (run_calls this three_calls empty_world)))
     = Returned (JArr xs) /\
     List.length xs = maxLogs this /\
     Forall2 (fun c x => stored (entry_of c) x) three_calls all /\
     xs = most_recent (maxLogs this) all).
Proof.
  intros this. split.
  - apply (proj1 capacity_bound). left. reflexivity.
  - apply (proj2 capacity_bound this three_calls empty_world browser).
    + reflexivity.
    + left. reflexivity.
    + repeat (constructor; [split; [cbn; lia|reflexivity]|]). constructor.
    + repeat (constructor; [reflexivity|]). constructor.
    + cbn. lia.
    + reflexivity.
Defined.

(* ===================================================================== *)
(** ** The sweep of expired entries at construction *)
(* ===================================================================== *)

Lemma not_expired_stored h cutoff e x :
  stored e x -> not_expired h cutoff x = Returned (fresh h cutoff e).
Proof.
  intros H. unfold not_expired. now rewrite (stored_timestamp e x H).
Qed.

Lemma filter_same_length {A} (p : A -> bool) (l : list A) :
  List.length (List.filter p l) = List.length l -> List.filter p l = l.
Proof.
  induction l as [|a l IH]; cbn; [reflexivity|].
  destruct (p a); cbn; intros H.
  - f_equal. apply IH. lia.
  - pose proof (List.filter_length_le p l). lia.
Qed.

Lemma stored_same e x x' : stored e x -> stored e x' -> x = x'.
Proof. unfold stored. congruence. Qed.

Lemma stored_same_timestamp e e' x :
  stored e x -> stored e' x -> timestamp e = timestamp e'.
Proof.
  intros H H'. pose proof (stored_timestamp e x H) as Ht.
  rewrite (stored_timestamp e' x H') in Ht. now injection Ht.
Qed.

Lemma stored_In_r es xs x :
  Forall2 stored es xs -> In x xs -> exists e, In e es /\ stored e x.
Proof.
  induction 1 as [|e y es xs Hy _ IH]; intros Hin; [destruct Hin|].
  destruct Hin as [<-|Hin]; [exists e; split; [now left|exact Hy]|].
  destruct (IH Hin) as (e' & He' & Hx). exists e'. split; [now right|exact Hx].
Qed.

Lemma stored_In_l es xs e :
  Forall2 stored es xs -> In e es -> exists x, In x xs /\ stored e x.
Proof.
  induction 1 as [|e' y es xs Hy _ IH]; intros Hin; [destruct Hin|].
  destruct Hin as [<-|Hin]; [exists y; split; [now left|exact Hy]|].
  destruct (IH Hin) as (x & Hx & Hs). exists x. split; [now right|exact Hs].
Qed.

(** The sweep on a slot that holds a collection of entries: the fresh
    ones are written back when some entry is not fresh and the storage
    takes the write; otherwise the storage is left as it is. *)
Lemma cleanExpiredLogs_entries this h w text es xs :
  enabled this = true ->
  slot this h w = Some text ->
  JSON.parse text = Some (JArr xs) ->
  Forall2 stored es xs ->
  let cutoff := Date_now h - logExpireDays this * 24 * 60 * 60 * 1000 in
  let kept := List.filter (fresh h cutoff) es in
  exists tr ys,
    Forall2 stored kept ys /\
    cleanExpiredLogs this h w =
    (Returned tt,
     mkWorld
       (if Nat.eqb (List.length kept) (List.length es) then items w
        else match storage h with
             | Available =>
                 <[storageKey this := JSON.stringify (JArr ys)]> (items w)
             | _ => items w
             end)
       (trace w ++ tr)).
Proof.
  intros He Hslot Hparse Hes cutoff kept.
  unfold cleanExpiredLogs. unfold bind at 1. rewrite getLogs_run, He, Hslot.
  rewrite (decode_parsed _ _ Hparse). unfold bind, lift, ret. cbn [as_array].
  fold cutoff.
  destruct (Array_filter_stored (not_expired h cutoff) (fresh h cutoff) es xs Hes)
    as (ys & -> & Hys).
  { intros e x. apply not_expired_stored. }
  fold kept in Hys.
  rewrite <- (Forall2_length _ _ _ Hys), <- (Forall2_length _ _ _ Hes).
  unfold after_read. rewrite Hslot, (corrupt_parsed _ _ Hparse).
  destruct (Nat.eqb (List.length kept) (List.length es)); cbn [negb].
  - exists [EvGetItem (storageKey this) (unavailable h)], ys.
    split; [exact Hys|reflexivity].
  - rewrite safeLocalStorageSet_run.
    destruct (storage h); cbn [items trace]; rewrite <- app_assoc;
      do 2 eexists; (split; [exact Hys|reflexivity]).
Qed.

Lemma filter_all_kept es xs ys (p : LogEntry -> bool) :
  Forall2 stored es xs ->
  Forall2 stored (List.filter p es) ys ->
  List.length (List.filter p es) = List.length es ->
  ys = xs.
Proof.
  intros Hes Hys E. rewrite (filter_same_length _ _ E) in Hys.
  clear E. revert ys Hys.
  induction Hes as [|e x es xs Hx _ IH]; intros ys Hys; inversion Hys; subst;
    [reflexivity|].
  f_equal; [eapply stored_same; eauto|auto].
Qed.

(** C7 (as amended). In a host environment whose slot holds a
    collection of entries, the constructor returns the logger and, when
    the storage takes the write, leaves in the slot the entries whose
    timestamp reads as a time within the last [logExpireDays] days, in
    their order: every entry older than that is gone and every entry
    within the window is kept.  When the storage refuses the write, the
    failure is swallowed and the storage is left as it was. *)
Theorem sweep_at_construction h w href text es xs :
  window h = Some href ->
  document h = true ->
  slot Logger_fields h w = Some text ->
  JSON.parse text = Some (JArr xs) ->
  Forall2 stored es xs ->
  let cutoff := Date_now h - 30 * 24 * 60 * 60 * 1000 in
  fst (new_Logger h w) = Returned Logger_fields /\
  (storage h = Available ->
   exists ys,
     decode (items (snd (new_Logger h w)) !! storageKey Logger_fields) = JArr ys /\
     Forall2 stored (List.filter (fresh h cutoff) es) ys /\
     (forall e x t, In e es -> stored e x ->
                    Date_getTime h (Some (JStr (timestamp e))) = Some t ->
                    t < cutoff -> ~ In x ys) /\
     (forall e x t, In e es -> stored e x ->
                    Date_getTime h (Some (JStr (timestamp e))) = Some t ->
                    cutoff <= t -> In x ys)) /\
  (storage h <> Available -> items (snd (new_Logger h w)) = items w).
Proof.
  intros Hwin Hdoc Hslot Hparse Hes cutoff.
  destruct (cleanExpiredLogs_entries Logger_fields h w text es xs eq_refl
              Hslot Hparse Hes) as (tr & ys & Hys & Hrun).
  cbn [logExpireDays Logger_fields] in Hrun, Hys. fold cutoff in Hrun, Hys.
  set (kept := List.filter (fresh h cutoff) es) in *.
  assert (Hnew : exists tr', new_Logger h w =
            (Returned Logger_fields,
             mkWorld (if Nat.eqb (List.length kept) (List.length es) then items w
                      else match storage h with
                           | Available =>
                               <[storageKey Logger_fields :=
                                   JSON.stringify (JArr ys)]> (items w)
                           | _ => items w
                           end) tr')).
  { unfold new_Logger. rewrite Hwin, Hdoc.
    unfold setupGlobalErrorHandler, setupUnhandledRejectionHandler, bind, emit, ret.
    rewrite Hrun. cbn [items trace]. eexists. reflexivity. }
  destruct Hnew as [tr' Hnew]. rewrite Hnew. clear Hnew Hrun.
  cbn [fst snd items]. split; [reflexivity|]. split.
  - intros Hst. rewrite Hst. exists ys.
    assert (Hitems : items w !! storageKey Logger_fields = Some text).
    { unfold slot, unavailable in Hslot. now rewrite Hst in Hslot. }
    split; [|split; [exact Hys|split]].
    + destruct (Nat.eqb_spec (List.length kept) (List.length es)) as [E|E].
      * rewrite Hitems, (decode_parsed _ _ Hparse).
        f_equal. symmetry. eapply filter_all_kept; eauto.
      * rewrite lookup_insert_eq. apply decode_stringify.
        apply well_formed_array. eapply stored_all_well_formed, Hys.
    + intros e x t Hin Hx Ht Hold Hmem.
      destruct (stored_In_r _ _ _ Hys Hmem) as (e' & Hk & Hx').
      apply List.filter_In in Hk as [_ Hf].
      unfold fresh in Hf.
      rewrite <- (stored_same_timestamp _ _ _ Hx Hx'), Ht in Hf.
      apply Z.leb_le in Hf. lia.
    + intros e x t Hin Hx Ht Hnew.
      assert (Hk : In e kept).
      { apply List.filter_In. split; [exact Hin|].
        unfold fresh. rewrite Ht. now apply Z.leb_le. }
      destruct (stored_In_l _ _ _ Hys Hk) as (x' & Hx' & Hs).
      now rewrite (stored_same _ _ _ Hx Hs).
  - intros Hst. destruct (Nat.eqb _ _); [reflexivity|].
    destruct (storage h); [contradiction|reflexivity|reflexivity].
Qed.

Lemma sweep_at_construction_witness :
  let w := world_of [old_entry; recent_entry] in
  let cutoff := Date_now browser - 30 * 24 * 60 * 60 * 1000 in
  fst (new_Logger browser w) = Returned Logger_fields /\
  (storage browser = Available ->
   exists ys,
     decode (items (snd (new_Logger browser w)) !! storageKey Logger_fields)
     = JArr ys /\
     Forall2 stored (List.filter (fresh browser cutoff)
                       [old_entry; recent_entry]) ys /\
     (forall e x t, In e [old_entry; recent_entry] -> stored e x ->
                    Date_getTime browser (Some (JStr (timestamp e))) = Some t ->
                    t < cutoff -> ~ In x ys) /\
     (forall e x t, In e [old_entry; recent_entry] -> stored e x ->
                    Date_getTime browser (Some (JStr (timestamp e))) = Some t ->
                    cutoff <= t -> In x ys)) /\
  (storage browser <> Available ->
   items (snd (new_Logger browser w)) = items w).
Proof.
  intros w cutoff.
  apply (sweep_at_construction browser w "https://app.example/home"
           (JSON.stringify (JArr (entries_json [old_entry; recent_entry])))
           [old_entry; recent_entry] (entries_json [old_entry; recent_entry])).
  - reflexivity.
  - reflexivity.
  - reflexivity.
  - apply parse_stringify. reflexivity.
  - apply entries_json_stored. repeat (constructor; [reflexivity|]). constructor.
Defined.

(** C7 as stated fails when the storage is full: the sweep finds the
    entry of 2025-10-01, more than thirty days old on 2026-01-01, and
    the write that would drop it throws and is swallowed; the entry is
    still in the slot after the construction. *)
Lemma expired_entry_survives_full_storage :
  let h := with_storage QuotaExceeded browser in
  let w := world_of [old_entry] in
  window h = Some "https://app.example/home" /\ document h = true /\
  Date_getTime h (Some (JStr (timestamp old_entry))) = Some 1759276800000 /\
  1759276800000 < Date_now h - 30 * 24 * 60 * 60 * 1000 /\
  fst (new_Logger h w) = Returned Logger_fields /\
  LogEntry_json old_entry
  = Returned (JObj [("timestamp", JStr "2025-10-01T00:00:00.000Z");
                    ("level", JStr "WARN"); ("message", JStr "old");
                    ("stack", JStr "Error at main.js:1:1");
                    ("url", JStr "https://app.example/home");
                    ("userAgent", JStr "Mozilla/5.0")]) /\
  decode (items (snd (new_Logger h w)) !! "RKLINK_FRONTEND_LOGS")
  = JArr [JObj [("timestamp", JStr "2025-10-01T00:00:00.000Z");
                ("level", JStr "WARN"); ("message", JStr "old");
                ("stack", JStr "Error at main.js:1:1");
                ("url", JStr "https://app.example/home");
                ("userAgent", JStr "Mozilla/5.0")]].
Proof. vm_compute. repeat split; reflexivity. Qed.

(* ===================================================================== *)
(** ** When a call raises *)
(* ===================================================================== *)

Lemma corrupt_decodes_array s : corrupt s = true -> is_array (decode s) = true.
Proof. intros H. now rewrite (decode_corrupt _ H). Qed.

Lemma as_array_is_array v :
  match as_array v with
  | Returned xs => v = JArr xs /\ is_array v = true
  | Thrown e => e = TypeError /\ is_array v = false
  end.
Proof. destruct v; cbn; auto. Qed.



(** X2. [getLogs], [clearLogs] and [exportLogs] never raise, whatever
    the storage does and whatever the slot holds. *)
Theorem reads_and_clear_never_throw this h w :
  (exists v, fst (getLogs this h w) = Returned v) /\
  fst (clearLogs this h w) = Returned tt /\
  (exists text, fst (exportLogs this h w) = Returned text).
Proof.
  split; [|split].
  - rewrite getLogs_run. destruct (enabled this); eauto.
  - rewrite clearLogs_run. destruct (enabled this), (storage h); reflexivity.
  - unfold exportLogs, bind, ret. destruct (enabled this) eqn:He; cbn [negb].
    + rewrite getLogs_run, He. eauto.
    + eauto.
Qed.

Lemma corrupt_after_read this h w :
  corrupt (slot this h (after_read this h w)) = false.
Proof.
  unfold after_read. destruct (corrupt (slot this h w)) eqn:Hc.
  - unfold slot. cbn [items]. rewrite lookup_delete_eq.
    now destruct (unavailable h).
  - exact Hc.
Qed.

(** X3. [getLogs] is idempotent: called again, it returns the same value
    and leaves the storage as the first call left it. *)
Theorem getLogs_twice this h w :
  fst (getLogs this h (snd (getLogs this h w))) = fst (getLogs this h w) /\
  items (snd (getLogs this h (snd (getLogs this h w))))
  = items (snd (getLogs this h w)).
Proof.
  rewrite !getLogs_run. destruct (enabled this) eqn:He; cbn [fst snd].
  - rewrite decode_after_read. split; [reflexivity|].
    unfold after_read at 1. now rewrite corrupt_after_read.
  - rewrite ?He. auto.
Qed.

(* ===================================================================== *)
(** ** What the operations leave alone *)
(* ===================================================================== *)

Lemma exportLogs_world this h w :
  snd (exportLogs this h w) = snd (getLogs this h w).
Proof.
  unfold exportLogs. rewrite getLogs_run.
  destruct (enabled this) eqn:He; cbn [negb]; [|reflexivity].
  unfold bind, ret. now rewrite getLogs_run, He.
Qed.

Lemma getLogsSummary_world this h w :
  snd (getLogsSummary this h w) = snd (getLogs this h w).
Proof.
  unfold getLogsSummary. rewrite getLogs_run.
  destruct (enabled this) eqn:He; cbn [negb]; [|reflexivity].
  unfold bind at 1. rewrite getLogs_run, He. unfold bind, lift, ret.
  repeat match goal with
         | |- context [match ?o with Returned _ => _ | Thrown _ => _ end] =>
             destruct o
         end; reflexivity.
Qed.

Lemma downloadLogs_items this h f w :
  items (snd (downloadLogs this h f w)) = items (snd (getLogs this h w)).
Proof.
  unfold downloadLogs, exportLogs. rewrite getLogs_run.
  destruct (enabled this) eqn:He; cbn [negb]; [|reflexivity].
  unfold bind, ret, emit, throw. rewrite getLogs_run, He.
  now destruct (document h).
Qed.

Lemma same_elsewhere_refl key w : same_elsewhere key w w.
Proof. now intros k _. Qed.

Lemma same_elsewhere_items key w w1 w2 :
  items w2 = items w1 -> same_elsewhere key w w1 -> same_elsewhere key w w2.
Proof. intros E H k Hk. rewrite E. now apply H. Qed.

Lemma same_elsewhere_read this h w :
  same_elsewhere (storageKey this) w (after_read this h w).
Proof.
  unfold after_read. intros k Hk.
  destruct (corrupt (slot this h w)); cbn [items]; [|reflexivity].
  apply lookup_delete_ne. congruence.
Qed.

Lemma same_elsewhere_getLogs this h w :
  same_elsewhere (storageKey this) w (snd (getLogs this h w)).
Proof.
  rewrite getLogs_run. destruct (enabled this); cbn [snd];
    auto using same_elsewhere_read, same_elsewhere_refl.
Qed.

Lemma same_elsewhere_log this h l msg d w :
  same_elsewhere (storageKey this) w (snd (log this h l msg d w)).
Proof.
  rewrite log_run, saveLog_run.
  destruct (enabled this && shouldLog this (level (createLogEntry h l msg d))).
  2:{ rewrite logToConsole_run. now intros k _. }
  pose proof (same_elsewhere_read this h w) as Hread.
  destruct (as_array (decode (slot this h w))); [|exact Hread].
  destruct (stringify_logs _); [|exact Hread].
  rewrite safeLocalStorageSet_run.
  destruct (storage h); rewrite logToConsole_run; cbn [snd items];
    try exact Hread.
  intros k Hk. cbn [items]. rewrite lookup_insert_ne by congruence.
  now apply Hread.
Qed.

Lemma same_elsewhere_step op this w :
  same_elsewhere (storageKey this) w (snd (step op (this, w))).
Proof.
  destruct op; cbn [step snd]; try apply same_elsewhere_refl.
  - apply same_elsewhere_log.
  - exact (same_elsewhere_log this h ERROR _ _ w).
  - exact (same_elsewhere_log this h ERROR _ _ w).
  - apply same_elsewhere_getLogs.
  - rewrite clearLogs_run. destruct (enabled this), (storage h); cbn [snd];
      intros k Hk; cbn [items]; rewrite ?lookup_delete_ne by congruence;
      reflexivity.
  - rewrite exportLogs_world. apply same_elsewhere_getLogs.
  - eapply same_elsewhere_items; [apply downloadLogs_items|].
    apply same_elsewhere_getLogs.
  - rewrite getLogsSummary_world. apply same_elsewhere_getLogs.
Qed.

(** X4. The logger owns one key: whatever operations are run, every
    other key of [localStorage] holds what it held. *)
Theorem other_keys_are_untouched ops : forall this w k,
  k <> storageKey this ->
  items (snd (run ops (this, w))) !! k = items w !! k.
Proof.
  induction ops as [|op ops IH]; intros this w k Hk; [reflexivity|].
  cbn [run]. pose proof (step_fields op this w) as [Hkey _].
  pose proof (same_elsewhere_step op this w k Hk) as Hstep.
  destruct (step op (this, w)) as [this1 w1]. cbn [fst snd] in *.
  rewrite IH by congruence. exact Hstep.
Qed.

Lemma other_keys_are_untouched_witness :
  "theme" <> storageKey Logger_fields /\
  items (snd (run [Log (mkCall browser INFO "a" Undefined); GetLogs browser;
                   ClearLogs browser; Log (mkCall browser ERROR "b" Undefined)]
                (Logger_fields, world_with "{not json"))) !! "theme"
  = items (world_with "{not json") !! "theme".
Proof.
  split; [discriminate|].
  apply other_keys_are_untouched. discriminate.
Defined.

Lemma disabled_step op this w :
  enabled this = false -> not_enable op = true ->
  enabled (fst (step op (this, w))) = false /\
  items (snd (step op (this, w))) = items w /\
  exists evs, trace (snd (step op (this, w))) = trace w ++ evs /\
              forallb console_event evs = true.
Proof.
  intros He Hop.
  assert (Hlog : forall h l msg d,
             items (snd (log this h l msg d w)) = items w /\
             exists evs, trace (snd (log this h l msg d w)) = trace w ++ evs /\
                         forallb console_event evs = true).
  { intros h l msg d. rewrite log_run, saveLog_run, He. cbn [andb].
    rewrite logToConsole_run. cbn [snd items trace]. split; [reflexivity|].
    eexists. split; [reflexivity|]. now destruct (shouldLog _ _). }
  assert (Hsame : items w = items w /\
                  exists evs, trace w = trace w ++ evs /\
                              forallb console_event evs = true).
  { split; [reflexivity|]. exists []. now rewrite app_nil_r. }
  destruct op; cbn [step fst snd]; try discriminate Hop; (split; [auto|]).
  - apply Hlog.
  - apply (Hlog h ERROR).
  - apply (Hlog h ERROR).
  - now rewrite getLogs_run, He.
  - now rewrite clearLogs_run, He.
  - rewrite exportLogs_world. now rewrite getLogs_run, He.
  - unfold downloadLogs. now rewrite He.
  - rewrite getLogsSummary_world. now rewrite getLogs_run, He.
  - exact Hsame.
  - exact Hsame.
Qed.

Lemma disabled_run ops : forall this w,
  enabled this = false -> forallb not_enable ops = true ->
  enabled (fst (run ops (this, w))) = false /\
  items (snd (run ops (this, w))) = items w /\
  exists evs, trace (snd (run ops (this, w))) = trace w ++ evs /\
              forallb console_event evs = true.
Proof.
  induction ops as [|op ops IH]; intros this w He Hops.
  - cbn. repeat split; auto. exists []. now rewrite app_nil_r.
  - cbn [forallb] in Hops. apply andb_true_iff in Hops as [Hop Hops].
    cbn [run].
    destruct (disabled_step op this w He Hop) as (He1 & Hi1 & evs1 & Ht1 & Hc1).
    destruct (step op (this, w)) as [this1 w1]. cbn [fst snd] in *.
    destruct (IH this1 w1 He1 Hops) as (He2 & Hi2 & evs2 & Ht2 & Hc2).
    split; [exact He2|]. split; [congruence|].
    exists (evs1 ++ evs2). rewrite Ht2, Ht1, <- app_assoc. split; [reflexivity|].
    rewrite forallb_app. now rewrite Hc1, Hc2.
Qed.

(** X5. A disabled store stays away from the storage: as long as
    [enable()] is not called, whatever operations are run leave
    [localStorage] as it was, the store disabled, and nothing in the
    trace of effects but console lines. *)
Theorem disabled_store_leaves_storage ops this w :
  enabled this = false ->
  forallb not_enable ops = true ->
  enabled (fst (run ops (this, w))) = false /\
  items (snd (run ops (this, w))) = items w /\
  exists evs, trace (snd (run ops (this, w))) = trace w ++ evs /\
              forallb console_event evs = true.
Proof. apply disabled_run. Qed.

Lemma disabled_store_leaves_storage_witness :
  let ops := [Log (mkCall browser ERROR "a" Undefined); ClearLogs browser;
              SetLevelThreshold WARN; ExportLogs browser;
              DownloadLogs browser None; GetLogsSummary browser;
              OnError browser script_error] in
  let this := disable Logger_fields in
  let w := world_of six_entries in
  enabled (fst (run ops (this, w))) = false /\
  items (snd (run ops (this, w))) = items w /\
  exists evs, trace (snd (run ops (this, w))) = trace w ++ evs /\
              forallb console_event evs = true.
Proof.
  intros ops this w. apply disabled_store_leaves_storage; reflexivity.
Defined.

(** X6. In a host without [window] or without [document] the
    constructor gives a disabled store, writes its one notice to the
    console and registers no listener; and whatever is then done with
    that store short of [enable()] leaves [localStorage] as it was. *)
Theorem construction_outside_a_browser h w :
  window h = None \/ document h = false ->
  new_Logger h w =
  (Returned (disable Logger_fields),
   mkWorld (items w)
     (trace w ++
      [EvConsole console_warn
         [Str "Logger is designed for browser environments and will be disabled."]]))
  /\
  forall ops, forallb not_enable ops = true ->
              items (snd (run ops (disable Logger_fields, snd (new_Logger h w))))
              = items w.
Proof.
  intros Hh.
  assert (E : new_Logger h w =
    (Returned (disable Logger_fields),
     mkWorld (items w)
       (trace w ++
        [EvConsole console_warn
           [Str "Logger is designed for browser environments and will be disabled."]]))).
  { unfold new_Logger. destruct Hh as [-> | Hd].
    - reflexivity.
    - rewrite Hd. now destruct (window h). }
  split; [exact E|]. intros ops Hops. rewrite E. cbn [snd].
  now destruct (disabled_run ops (disable Logger_fields)
                  (mkWorld (items w)
                     (trace w ++
                      [EvConsole console_warn
                         [Str "Logger is designed for browser environments and will be disabled."]]))
                  eq_refl Hops) as (_ & -> & _).
Qed.

Lemma construction_outside_a_browser_witness :
  (window node = None \/ document node = false) /\
  new_Logger node (world_of six_entries) =
  (Returned (disable Logger_fields),
   mkWorld (items (world_of six_entries))
     (trace (world_of six_entries) ++
      [EvConsole console_warn
         [Str "Logger is designed for browser environments and will be disabled."]]))
  /\
  forall ops, forallb not_enable ops = true ->
              items (snd (run ops (disable Logger_fields,
                                   snd (new_Logger node (world_of six_entries)))))
              = items (world_of six_entries).
Proof.
  split; [now left|].
  apply construction_outside_a_browser. now left.
Defined.

(* ===================================================================== *)
(** ** More on the construction and its sweep *)
(* ===================================================================== *)

Lemma cleanExpiredLogs_run this h w :
  enabled this = true ->
  cleanExpiredLogs this h w =
  match as_array (decode (slot this h w)) with
  | Thrown x => (Thrown x, after_read this h w)
  | Returned xs =>
      match Array_filter
              (not_expired h (Date_now h - logExpireDays this * 24 * 60 * 60 * 1000))
              xs with
      | Thrown x => (Thrown x, after_read this h w)
      | Returned ys =>
          if negb (Nat.eqb (List.length ys) (List.length xs))
          then safeLocalStorageSet h (storageKey this)
                 (JSON.stringify (JArr ys)) (after_read this h w)
          else (Returned tt, after_read this h w)
      end
  end.
Proof.
  intros He. unfold cleanExpiredLogs. unfold bind at 1. rewrite getLogs_run, He.
  unfold bind, lift, ret.
  destruct (as_array _); [|reflexivity].
  destruct (Array_filter _ _); [|reflexivity].
  now destruct (negb _).
Qed.

Lemma new_Logger_run h w href :
  window h = Some href -> document h = true ->
  new_Logger h w =
  match cleanExpiredLogs Logger_fields h w with
  | (Returned _, w1) =>
      (Returned Logger_fields,
       mkWorld (items w1)
         (trace w1 ++ [EvAddEventListener "error";
                       EvAddEventListener "unhandledrejection"]))
  | (Thrown x, w1) => (Thrown x, w1)
  end.
Proof.
  intros Hw Hd. unfold new_Logger. rewrite Hw, Hd.
  unfold setupGlobalErrorHandler, setupUnhandledRejectionHandler, bind, emit, ret.
  destruct (cleanExpiredLogs Logger_fields h w) as [[[]|x] w1]; [|reflexivity].
  cbn [items trace]. now rewrite <- app_assoc.
Qed.

Lemma after_read_parsed this h w :
  corrupt (slot this h w) = false ->
  after_read this h w
  = mkWorld (items w) (trace w ++ [EvGetItem (storageKey this) (unavailable h)]).
Proof. intros Hc. unfold after_read. now rewrite Hc. Qed.

(** X7. In a browser whose slot holds a JSON value that is not an array,
    the constructor throws a [TypeError] ([logs.filter] is no function):
    no logger is made, no listener is registered, and the storage is
    left as it was. *)
Theorem construction_throws_on_non_array_slot h w href text v :
  window h = Some href -> document h = true ->
  slot Logger_fields h w = Some text ->
  JSON.parse text = Some v ->
  is_array v = false ->
  new_Logger h w =
  (Thrown TypeError,
   mkWorld (items w) (trace w ++ [EvGetItem "RKLINK_FRONTEND_LOGS" false])).
Proof.
  intros Hw Hd Hslot Hparse Hv.
  rewrite (new_Logger_run h w href Hw Hd), cleanExpiredLogs_run by reflexivity.
  rewrite after_read_parsed by (rewrite Hslot; eapply corrupt_parsed; eauto).
  rewrite Hslot, (decode_parsed _ _ Hparse).
  assert (Hu : unavailable h = false).
  { unfold slot in Hslot. now destruct (unavailable h). }
  rewrite Hu. destruct v; try discriminate Hv; reflexivity.
Qed.

Lemma construction_throws_on_non_array_slot_witness :
  new_Logger browser (world_with "{}") =
  (Thrown TypeError,
   mkWorld (items (world_with "{}"))
           (trace (world_with "{}") ++ [EvGetItem "RKLINK_FRONTEND_LOGS" false])).
Proof.
  apply (construction_throws_on_non_array_slot browser (world_with "{}")
           "https://app.example/home" "{}" (JObj [])); reflexivity.
Defined.

Lemma filter_all_true {A} (p : A -> bool) (l : list A) :
  Forall (fun a => p a = true) l -> List.filter p l = l.
Proof.
  induction 1 as [|a l Ha _ IH]; cbn; [reflexivity|]. now rewrite Ha, IH.
Qed.

(** X8. When no stored entry has expired (in particular when the slot
    is empty), the construction in a browser writes nothing: it reads
    the slot once, registers the listener of [error] and then the one of
    [unhandledrejection], and returns the enabled logger; the stored
    text is not even rewritten. *)
Theorem construction_without_expired_entries h w href es xs :
  window h = Some href -> document h = true ->
  corrupt (slot Logger_fields h w) = false ->
  decode (slot Logger_fields h w) = JArr xs ->
  Forall2 stored es xs ->
  Forall (fun e => fresh h (Date_now h - 30 * 24 * 60 * 60 * 1000) e = true) es ->
  new_Logger h w =
  (Returned Logger_fields,
   mkWorld (items w)
     (trace w ++ [EvGetItem "RKLINK_FRONTEND_LOGS" (unavailable h);
                  EvAddEventListener "error";
                  EvAddEventListener "unhandledrejection"])).
Proof.
  intros Hw Hd Hc Hdec Hes Hfresh.
  rewrite (new_Logger_run h w href Hw Hd), cleanExpiredLogs_run by reflexivity.
  rewrite (after_read_parsed _ _ _ Hc), Hdec. cbn [as_array logExpireDays Logger_fields].
  destruct (Array_filter_stored
              (not_expired h (Date_now h - 30 * 24 * 60 * 60 * 1000))
              (fresh h (Date_now h - 30 * 24 * 60 * 60 * 1000)) es xs Hes)
    as (ys & -> & Hys).
  { intros e x. apply not_expired_stored. }
  rewrite (filter_all_true _ _ Hfresh) in Hys.
  rewrite <- (Forall2_length _ _ _ Hys), (Forall2_length _ _ _ Hes), Nat.eqb_refl.
  cbn [negb items trace]. now rewrite <- app_assoc.
Qed.

Lemma construction_without_expired_entries_witness :
  let w := world_of [recent_entry] in
  new_Logger browser w =
  (Returned Logger_fields,
   mkWorld (items w)
     (trace w ++ [EvGetItem "RKLINK_FRONTEND_LOGS" (unavailable browser);
                  EvAddEventListener "error";
                  EvAddEventListener "unhandledrejection"])).
Proof.
  intros w.
  apply (construction_without_expired_entries browser w
           "https://app.example/home" [recent_entry] (entries_json [recent_entry])).
  - reflexivity.
  - reflexivity.
  - unfold w. cbn [slot unavailable browser storage].
    apply corrupt_parsed with (v := JArr (entries_json [recent_entry])).
    apply parse_stringify. reflexivity.
  - apply decode_stringify. reflexivity.
  - apply entries_json_stored. repeat constructor.
  - repeat constructor.
Defined.

Lemma new_Logger_sweeps h w href text es xs :
  window h = Some href -> document h = true ->
  storage h = Available ->
  items w !! "RKLINK_FRONTEND_LOGS" = Some text ->
  JSON.parse text = Some (JArr xs) ->
  Forall2 stored es xs ->
  fst (new_Logger h w) = Returned Logger_fields /\
  exists ys,
    decode (items (snd (new_Logger h w)) !! "RKLINK_FRONTEND_LOGS") = JArr ys /\
    Forall2 stored
      (List.filter (fresh h (Date_now h - 30 * 24 * 60 * 60 * 1000)) es) ys.
Proof.
  intros Hw Hd Hst Hitems Hparse Hes.
  assert (Hslot : slot Logger_fields h w = Some text).
  { unfold slot, unavailable. now rewrite Hst. }
  destruct (cleanExpiredLogs_entries Logger_fields h w text es xs eq_refl
              Hslot Hparse Hes) as (tr & ys & Hys & Hrun).
  cbn [logExpireDays Logger_fields] in Hrun, Hys.
  rewrite (new_Logger_run h w href Hw Hd), Hrun, Hst. cbn [fst snd items].
  split; [reflexivity|]. exists ys. split; [|exact Hys].
  destruct (Nat.eqb_spec
              (List.length (List.filter
                              (fresh h (Date_now h - 30 * 24 * 60 * 60 * 1000)) es))
              (List.length es)) as [E|E].
  - rewrite Hitems, (decode_parsed _ _ Hparse).
    f_equal. symmetry. eapply filter_all_kept; eauto.
  - cbn [storageKey Logger_fields]. rewrite lookup_insert_eq.
    apply decode_stringify, well_formed_array.
    eapply stored_all_well_formed, Hys.
Qed.

(** X9. An entry whose timestamp cannot be read as a date does not
    survive the construction (its time is NaN, and NaN is not at or
    after the cut-off): on a storage that works, it is swept with the
    expired ones. *)
Theorem sweep_drops_unreadable_timestamps h w href text es xs :
  window h = Some href -> document h = true ->
  storage h = Available ->
  items w !! "RKLINK_FRONTEND_LOGS" = Some text ->
  JSON.parse text = Some (JArr xs) ->
  Forall2 stored es xs ->
  exists ys,
    decode (items (snd (new_Logger h w)) !! "RKLINK_FRONTEND_LOGS") = JArr ys /\
    forall e x, In e es -> stored e x ->
                Date_getTime h (Some (JStr (timestamp e))) = None ->
                ~ In x ys.
Proof.
  intros Hw Hd Hst Hitems Hparse Hes.
  destruct (new_Logger_sweeps h w href text es xs Hw Hd Hst Hitems Hparse Hes)
    as (_ & ys & Hdec & Hys).
  exists ys. split; [exact Hdec|].
  intros e x Hin Hx Ht Hmem.
  destruct (stored_In_r _ _ _ Hys Hmem) as (e' & Hk & Hx').
  apply List.filter_In in Hk as [_ Hf]. unfold fresh in Hf.
  rewrite <- (stored_same_timestamp _ _ _ Hx Hx'), Ht in Hf. discriminate Hf.
Qed.

Lemma sweep_drops_unreadable_timestamps_witness :
  let w := world_of [undated_entry; recent_entry] in
  exists ys,
    decode (items (snd (new_Logger browser w)) !! "RKLINK_FRONTEND_LOGS") = JArr ys /\
    forall e x, In e [undated_entry; recent_entry] -> stored e x ->
                Date_getTime browser (Some (JStr (timestamp e))) = None ->
                ~ In x ys.
Proof.
  intros w.
  apply (sweep_drops_unreadable_timestamps browser w "https://app.example/home"
           (JSON.stringify (JArr (entries_json [undated_entry; recent_entry])))
           [undated_entry; recent_entry]
           (entries_json [undated_entry; recent_entry])).
  - reflexivity.
  - reflexivity.
  - reflexivity.
  - reflexivity.
  - apply parse_stringify. reflexivity.
  - apply entries_json_stored. repeat constructor.
Defined.

(* ===================================================================== *)
(** ** The entries of the listeners and the stack of an entry *)
(* ===================================================================== *)

Lemma shouldLog_ERROR this : shouldLog this ERROR = true.
Proof. unfold shouldLog. now destruct (levelThreshold this). Qed.

Lemma LogEntry_json_eq e d s :
  toJSON (data e) = Returned d -> toJSON (stack e) = Returned s ->
  stored e (JObj ([("timestamp", JStr (timestamp e));
                   ("level", JStr (LogLevel_name (level e)));
                   ("message", JStr (message e))]
                  ++ member "data" d ++ member "stack" s
                  ++ [("url", JStr (url e)); ("userAgent", JStr (userAgent e))])).
Proof. unfold stored, LogEntry_json. now intros -> ->. Qed.

Lemma toJSON_call_site h :
  toJSON (match Error_stack h with
          | Some s => Str s
          | None => Undefined
          end) = Returned (option_map JStr (Error_stack h)).
Proof. now destruct (Error_stack h). Qed.

(** X10. The listener of uncaught errors persists one entry of level
    ERROR whatever the threshold is: on an enabled store with a working
    storage, when the slot reads as an array and [JSON.stringify] takes
    the stack of the event's error (a string, or nothing), it returns
    normally and appends to the collection read an entry named "Global
    Error" whose [data] holds the message, the file, the line and the
    column of the event, and that stack when there is one. *)
Theorem onError_persists_the_event this h ev w xs o :
  enabled this = true ->
  storage h = Available ->
  decode (slot this h w) = JArr xs ->
  toJSON (optional_stack (ev_error ev)) = Returned o ->
  exists x,
    fst (onError this h ev w) = Returned tt /\
    items (snd (onError this h ev w)) !! storageKey this
    = Some (JSON.stringify (JArr (evict (maxLogs this) (xs ++ [x])))) /\
    get_prop x "level" = Returned (Some (JStr "ERROR")) /\
    get_prop x "message" = Returned (Some (JStr "Global Error")) /\
    get_prop x "data"
    = Returned (Some (JObj ([("message", JStr (ev_message ev));
                             ("filename", JStr (ev_filename ev));
                             ("lineno", JNum (ev_lineno ev));
                             ("colno", JNum (ev_colno ev))]
                            ++ member "error" o))).
Proof.
  intros He Hst Hd Ho.
  set (d := Obj [("message", Str (ev_message ev));
                 ("filename", Str (ev_filename ev));
                 ("lineno", Num (ev_lineno ev));
                 ("colno", Num (ev_colno ev));
                 ("error", optional_stack (ev_error ev))]).
  assert (Hdata : toJSON d
                  = Returned (Some (JObj ([("message", JStr (ev_message ev));
                                          ("filename", JStr (ev_filename ev));
                                          ("lineno", JNum (ev_lineno ev));
                                          ("colno", JNum (ev_colno ev))]
                                         ++ member "error" o)))).
  { unfold toJSON in *. cbn [d serialize serialize_members snd fst].
    rewrite Ho. now destruct o. }
  pose proof (LogEntry_json_eq (createLogEntry h ERROR "Global Error" d) _ _
                Hdata (toJSON_call_site h)) as Hx.
  destruct (log_persists this h ERROR "Global Error" d w xs _
              He (shouldLog_ERROR this) Hst Hd Hx) as [Hr Hi].
  eexists. split; [exact Hr|]. split.
  { change (onError this h ev w) with (log this h ERROR "Global Error" d w).
    rewrite Hi. apply lookup_insert_eq. }
  destruct (stored_carries _ _ Hx) as (_ & Hl & Hm & Hdt & _).
  split; [exact Hl|]. split; [exact Hm|].
  rewrite Hdt. cbn [data createLogEntry]. exact Hdata.
Qed.

Lemma onError_persists_the_event_witness :
  let this := setLevelThreshold Logger_fields ERROR in
  exists x,
    fst (onError this browser script_error empty_world) = Returned tt /\
    items (snd (onError this browser script_error empty_world)) !! storageKey this
    = Some (JSON.stringify (JArr (evict (maxLogs this) ([] ++ [x])))) /\
    get_prop x "level" = Returned (Some (JStr "ERROR")) /\
    get_prop x "message" = Returned (Some (JStr "Global Error")) /\
    get_prop x "data"
    = Returned (Some (JObj ([("message", JStr (ev_message script_error));
                             ("filename", JStr (ev_filename script_error));
                             ("lineno", JNum (ev_lineno script_error));
                             ("colno", JNum (ev_colno script_error))]
                            ++ member "error"
                                 (Some (JStr "ReferenceError at main.js:12:5"))))).
Proof.
  intros this.
  apply (onError_persists_the_event this browser script_error empty_world []);
    reflexivity.
Defined.

(** X11. The listener of unhandled rejections persists one entry of
    level ERROR whatever the threshold is: on an enabled store with a
    working storage, when the slot reads as an array and
    [JSON.stringify] takes the reason, it returns normally and appends
    to the collection read an entry named "Unhandled Promise Rejection"
    whose [data] holds the reason as [JSON.stringify] writes it: nothing
    for [undefined], and an empty object for an [Error] without
    enumerable properties of its own, whose message and stack are
    therefore not persisted (the [stack] of the entry is the one of the
    call site). *)
Theorem onUnhandledRejection_persists_the_reason this h reason w xs o :
  enabled this = true ->
  storage h = Available ->
  decode (slot this h w) = JArr xs ->
  toJSON reason = Returned o ->
  exists x,
    fst (onUnhandledRejection this h reason w) = Returned tt /\
    items (snd (onUnhandledRejection this h reason w)) !! storageKey this
    = Some (JSON.stringify (JArr (evict (maxLogs this) (xs ++ [x])))) /\
    get_prop x "level" = Returned (Some (JStr "ERROR")) /\
    get_prop x "message" = Returned (Some (JStr "Unhandled Promise Rejection")) /\
    get_prop x "data" = Returned (Some (JObj (member "reason" o))) /\
    get_prop x "stack" = Returned (option_map JStr (Error_stack h)) /\
    (forall m s, reason = ErrorObject m s [] ->
                 get_prop x "data" = Returned (Some (JObj [("reason", JObj [])]))).
Proof.
  intros He Hst Hd Ho.
  assert (Hdata : toJSON (Obj [("reason", reason)])
                  = Returned (Some (JObj (member "reason" o)))).
  { unfold toJSON in *. cbn [serialize serialize_members snd fst].
    rewrite Ho. now destruct o. }
  pose proof (LogEntry_json_eq
                (createLogEntry h ERROR "Unhandled Promise Rejection"
                   (Obj [("reason", reason)])) _ _
                Hdata (toJSON_call_site h)) as Hx.
  destruct (log_persists this h ERROR "Unhandled Promise Rejection"
              (Obj [("reason", reason)]) w xs _
              He (shouldLog_ERROR this) Hst Hd Hx) as [Hr Hi].
  eexists. split; [exact Hr|]. split.
  { change (onUnhandledRejection this h reason w) with
      (log this h ERROR "Unhandled Promise Rejection" (Obj [("reason", reason)]) w).
    rewrite Hi. apply lookup_insert_eq. }
  destruct (stored_carries _ _ Hx) as (_ & Hl & Hm & Hdt & Hstack & _).
  split; [exact Hl|]. split; [exact Hm|].
  split; [rewrite Hdt; cbn [data createLogEntry]; exact Hdata|].
  split; [rewrite Hstack; apply toJSON_call_site|].
  intros m s ->. rewrite Hdt. cbn [data createLogEntry]. rewrite Hdata.
  injection Ho as <-. reflexivity.
Qed.

Lemma onUnhandledRejection_persists_the_reason_witness :
  let reason := ErrorObject "timeout" (Some "Error: timeout at api.js:3:9") [] in
  exists x,
    fst (onUnhandledRejection Logger_fields browser reason empty_world)
    = Returned tt /\
    items (snd (onUnhandledRejection Logger_fields browser reason empty_world))
      !! storageKey Logger_fields
    = Some (JSON.stringify (JArr (evict (maxLogs Logger_fields) ([] ++ [x])))) /\
    get_prop x "level" = Returned (Some (JStr "ERROR")) /\
    get_prop x "message" = Returned (Some (JStr "Unhandled Promise Rejection")) /\
    get_prop x "data" = Returned (Some (JObj (member "reason" (Some (JObj []))))) /\
    get_prop x "stack" = Returned (option_map JStr (Error_stack browser)) /\
    (forall m s, reason = ErrorObject m s [] ->
                 get_prop x "data" = Returned (Some (JObj [("reason", JObj [])]))).
Proof.
  intros reason.
  apply (onUnhandledRejection_persists_the_reason Logger_fields browser reason
           empty_world []); reflexivity.
Defined.

(** X12. An [Error] passed as [data] is persisted as the object of its
    own enumerable properties, an empty object when it has none: its
    message is not persisted.  On an enabled store with a working
    storage, an empty slot and room for one entry, when
    [JSON.stringify] takes these properties as [ms], the entry read back
    after the call has the message of the call, the object [ms] as
    [data] and the stack of the error, when it has one, as [stack].
    (An [Error] with a [toJSON] method is written as that method
    says.) *)
Theorem logged_error_loses_its_message this h l msg m st own ms w :
  enabled this = true ->
  shouldLog this l = true ->
  storage h = Available ->
  slot_empty this w ->
  (1 <= maxLogs this)%nat ->
  serialize_members toJSON own = Returned ms ->
  exists x,
    fst (getLogs this h (snd (log this h l msg (ErrorObject m st own) w)))
    = Returned (JArr [x]) /\
    get_prop x "message" = Returned (Some (JStr msg)) /\
    get_prop x "data" = Returned (Some (JObj ms)) /\
    get_prop x "stack" = Returned (option_map JStr st) /\
    (own = [] -> get_prop x "data" = Returned (Some (JObj []))).
Proof.
  intros He Hs Hst Hw Hn Hms.
  assert (Hslot : decode (slot this h w) = JArr []).
  { unfold slot, unavailable. rewrite Hst. now apply decode_slot_empty. }
  assert (Hdata : toJSON (ErrorObject m st own) = Returned (Some (JObj ms))).
  { change (serialize_members (serialize true) own = Returned ms) in Hms.
    unfold toJSON. cbn [serialize]. now rewrite Hms. }
  assert (Hstack : toJSON (stack (createLogEntry h l msg (ErrorObject m st own)))
                   = Returned (option_map JStr st)).
  { cbn. now destruct st. }
  pose proof (LogEntry_json_eq (createLogEntry h l msg (ErrorObject m st own))
                _ _ Hdata Hstack) as Hx.
  match type of Hx with stored _ ?j => set (x := j) in * end.
  destruct (log_persists this h l msg (ErrorObject m st own) w [] _
              He Hs Hst Hslot Hx) as [_ Hi].
  exists x. split.
  - rewrite getLogs_readable, Hi, lookup_insert_eq by assumption.
    rewrite (decode_written _ _ _ _ _ Hslot Hx).
    unfold evict. cbn [app List.length].
    destruct (Nat.ltb_spec (maxLogs this) 1); [lia|reflexivity].
  - destruct (stored_carries _ _ Hx) as (_ & _ & Hm & Hdt & Hstk & _).
    split; [exact Hm|].
    split; [rewrite Hdt; cbn [data createLogEntry]; exact Hdata|].
    split; [rewrite Hstk; exact Hstack|].
    intros ->. rewrite Hdt. cbn [data createLogEntry]. rewrite Hdata.
    cbn in Hms. now injection Hms as <-.
Qed.

Lemma logged_error_loses_its_message_witness :
  exists x,
    fst (getLogs Logger_fields browser
           (snd (log Logger_fields browser ERROR "Failed to fetch data"
                   (ErrorObject "Network Error" (Some "Error: Network Error")
                      [("status", Num 503)])
                   empty_world)))
    = Returned (JArr [x]) /\
    get_prop x "message" = Returned (Some (JStr "Failed to fetch data")) /\
    get_prop x "data" = Returned (Some (JObj [("status", JNum 503)])) /\
    get_prop x "stack" = Returned (option_map JStr (Some "Error: Network Error")) /\
    ([("status", Num 503)] = [] ->
     get_prop x "data" = Returned (Some (JObj []))).
Proof.
  apply (logged_error_loses_its_message Logger_fields browser ERROR
           "Failed to fetch data" "Network Error" (Some "Error: Network Error")
           [("status", Num 503)] [("status", JNum 503)] empty_world).
  - reflexivity.
  - reflexivity.
  - reflexivity.
  - left. reflexivity.
  - cbn. lia.
  - reflexivity.
Defined.

(* ===================================================================== *)
(** ** What one call does to the storage and the console *)
(* ===================================================================== *)

(** X13. A log call that passes the gates and whose entry
    [JSON.stringify] writes as [x], on a working storage whose slot
    parses (or is empty), does three things and no more, in this order:
    one read of the slot, one write of the collection read with [x]
    pushed (and the first element shifted out past [maxLogs]), and one
    console line. *)
Theorem accepted_call_effects this h l msg d w xs x :
  enabled this = true ->
  shouldLog this l = true ->
  storage h = Available ->
  corrupt (items w !! storageKey this) = false ->
  decode (items w !! storageKey this) = JArr xs ->
  stored (createLogEntry h l msg d) x ->
  let text := JSON.stringify (JArr (evict (maxLogs this) (xs ++ [x]))) in
  log this h l msg d w =
  (Returned tt,
   mkWorld (<[storageKey this := text]> (items w))
           (trace w ++ [EvGetItem (storageKey this) false;
                        EvSetItem (storageKey this) text false;
                        console_line (createLogEntry h l msg d)])).
Proof.
  intros He Hs Hst Hc Hd Hx text.
  assert (Hslot : slot this h w = items w !! storageKey this).
  { unfold slot, unavailable. now rewrite Hst. }
  rewrite log_run, saveLog_run, He. cbn [level createLogEntry andb].
  rewrite Hs, Hslot, Hd. cbn [as_array].
  rewrite (stringify_logs_stored _ _ _ _ Hx).
  rewrite safeLocalStorageSet_run, Hst, logToConsole_run.
  cbn [level createLogEntry]. rewrite Hs.
  unfold after_read. rewrite Hslot, Hc. unfold unavailable. rewrite Hst.
  cbn [items trace]. now rewrite <- !app_assoc.
Qed.

Lemma accepted_call_effects_witness :
  let x := JObj [("timestamp", JStr "2026-01-01T00:00:00.000Z");
                 ("level", JStr "INFO"); ("message", JStr "User logged in");
                 ("data", JObj [("username", JStr "test")]);
                 ("stack", JStr "Error at main.js:1:1");
                 ("url", JStr "https://app.example/home");
                 ("userAgent", JStr "Mozilla/5.0")] in
  let d := Obj [("username", Str "test")] in
  let text := JSON.stringify
                (JArr (evict (maxLogs Logger_fields) ([] ++ [x]))) in
  log Logger_fields browser INFO "User logged in" d empty_world =
  (Returned tt,
   mkWorld (<[storageKey Logger_fields := text]> (items empty_world))
           (trace empty_world ++
            [EvGetItem (storageKey Logger_fields) false;
             EvSetItem (storageKey Logger_fields) text false;
             console_line (createLogEntry browser INFO "User logged in" d)])).
Proof.
  intros x d.
  apply (accepted_call_effects Logger_fields browser INFO "User logged in"
           d empty_world [] x); reflexivity.
Defined.

(** X14. A log call that passes the gates, whose entry [JSON.stringify]
    writes as [x], and that finds a text that does not parse starts the
    collection again: the key is removed, then written with [x] alone
    (when [maxLogs] leaves room for one), and the call returns after its
    console line. *)
Theorem accepted_call_on_corrupt_slot this h l msg d w x :
  enabled this = true ->
  shouldLog this l = true ->
  storage h = Available ->
  corrupt (items w !! storageKey this) = true ->
  (1 <= maxLogs this)%nat ->
  stored (createLogEntry h l msg d) x ->
  let text := JSON.stringify (JArr [x]) in
  log this h l msg d w =
  (Returned tt,
   mkWorld (<[storageKey this := text]> (items w))
           (trace w ++ [EvGetItem (storageKey this) false;
                        EvRemoveItem (storageKey this) false;
                        EvSetItem (storageKey this) text false;
                        console_line (createLogEntry h l msg d)])).
Proof.
  intros He Hs Hst Hc Hn Hx text.
  assert (Hslot : slot this h w = items w !! storageKey this).
  { unfold slot, unavailable. now rewrite Hst. }
  rewrite log_run, saveLog_run, He. cbn [level createLogEntry andb].
  rewrite Hs, Hslot, (decode_corrupt _ Hc). cbn [as_array].
  rewrite (stringify_logs_stored _ _ _ _ Hx).
  rewrite safeLocalStorageSet_run, Hst, logToConsole_run.
  cbn [level createLogEntry]. rewrite Hs.
  unfold after_read. rewrite Hslot, Hc.
  cbn [items trace]. rewrite insert_delete_eq, <- !app_assoc.
  unfold evict. cbn [app List.length].
  destruct (Nat.ltb_spec (maxLogs this) 1); [lia|reflexivity].
Qed.

Lemma accepted_call_on_corrupt_slot_witness :
  let x := JObj [("timestamp", JStr "2026-01-01T00:00:00.000Z");
                 ("level", JStr "WARN"); ("message", JStr "slow");
                 ("stack", JStr "Error at main.js:1:1");
                 ("url", JStr "https://app.example/home");
                 ("userAgent", JStr "Mozilla/5.0")] in
  let text := JSON.stringify (JArr [x]) in
  log Logger_fields browser WARN "slow" Undefined corrupt_world =
  (Returned tt,
   mkWorld (<[storageKey Logger_fields := text]> (items corrupt_world))
           (trace corrupt_world ++
            [EvGetItem (storageKey Logger_fields) false;
             EvRemoveItem (storageKey Logger_fields) false;
             EvSetItem (storageKey Logger_fields) text false;
             console_line (createLogEntry browser WARN "slow" Undefined)])).
Proof.
  intros x.
  apply (accepted_call_on_corrupt_slot Logger_fields browser WARN "slow"
           Undefined corrupt_world x).
  - reflexivity.
  - reflexivity.
  - reflexivity.
  - reflexivity.
  - cbn. lia.
  - reflexivity.
Defined.

(* ===================================================================== *)
(** ** Clearing and downloading *)
(* ===================================================================== *)

(** X15. [clearLogs] on an enabled store removes the key whenever the
    storage can be reached, a full storage included, with one
    [removeItem] and nothing else; every reader then finds an empty
    collection: [getLogs] returns [[]], [exportLogs] the text of an
    empty array, [getLogsSummary] five zeros. *)
Theorem clearLogs_empties_the_store this h h' w :
  enabled this = true ->
  storage h <> Unavailable ->
  let w' := snd (clearLogs this h w) in
  clearLogs this h w =
  (Returned tt, mkWorld (delete (storageKey this) (items w))
                  (trace w ++ [EvRemoveItem (storageKey this) false])) /\
  fst (getLogs this h' w') = Returned (JArr []) /\
  fst (exportLogs this h' w') = Returned "[]" /\
  fst (getLogsSummary this h' w') = Returned (Summary.mk 0 0 0 0 0).
Proof.
  intros He Hst w'.
  assert (Hrun : clearLogs this h w =
                 (Returned tt, mkWorld (delete (storageKey this) (items w))
                                 (trace w ++ [EvRemoveItem (storageKey this) false]))).
  { rewrite clearLogs_run, He. destruct (storage h); congruence. }
  assert (Hslot : decode (slot this h' w') = JArr []).
  { unfold w', slot. rewrite Hrun. cbn [snd items].
    rewrite lookup_delete_eq. now destruct (unavailable h'). }
  split; [exact Hrun|]. split; [|split].
  - now rewrite getLogs_run, He, Hslot.
  - unfold exportLogs. rewrite He. cbn [negb]. unfold bind.
    now rewrite getLogs_run, He, Hslot.
  - unfold getLogsSummary. rewrite He. cbn [negb]. unfold bind at 1.
    now rewrite getLogs_run, He, Hslot.
Qed.

Lemma clearLogs_empties_the_store_witness :
  let h := with_storage QuotaExceeded browser in
  let w' := snd (clearLogs Logger_fields h (world_of six_entries)) in
  clearLogs Logger_fields h (world_of six_entries) =
  (Returned tt, mkWorld (delete (storageKey Logger_fields)
                           (items (world_of six_entries)))
                  (trace (world_of six_entries)
                   ++ [EvRemoveItem (storageKey Logger_fields) false])) /\
  fst (getLogs Logger_fields browser w') = Returned (JArr []) /\
  fst (exportLogs Logger_fields browser w') = Returned "[]" /\
  fst (getLogsSummary Logger_fields browser w') = Returned (Summary.mk 0 0 0 0 0).
Proof.
  intros h.
  apply (clearLogs_empties_the_store Logger_fields h browser (world_of six_entries)).
  - reflexivity.
  - discriminate.
Defined.



(* ===================================================================== *)
(** ** A run of calls of any level *)
(* ===================================================================== *)





(* ===================================================================== *)
(** ** Collections the class did not write *)
(* ===================================================================== *)

Lemma level_is_has_level l x :
  x <> JNull -> level_is l x = Returned (has_level l x).
Proof.
  intros Hx. destruct x; try congruence; try reflexivity.
  unfold level_is, get_prop, has_level.
  destruct (lookup_member _ _) as [[]|]; reflexivity.
Qed.

Lemma Array_filter_no_null p q xs :
  (forall x, x <> JNull -> p x = Returned (q x)) ->
  ~ In JNull xs ->
  Array_filter p xs = Returned (List.filter q xs).
Proof.
  intros Hp. induction xs as [|x xs IH]; intros Hn; cbn; [reflexivity|].
  rewrite Hp by (intros ->; apply Hn; now left).
  rewrite IH by (intros Hin; apply Hn; now right).
  now destruct (q x).
Qed.

Lemma Array_filter_null p xs :
  p JNull = Thrown TypeError ->
  (forall x, x <> JNull -> exists b, p x = Returned b) ->
  In JNull xs ->
  Array_filter p xs = Thrown TypeError.
Proof.
  intros Hnull Hp. induction xs as [|x xs IH]; intros Hin; [destruct Hin|].
  cbn. assert (Hdec : x = JNull \/ x <> JNull)
    by (destruct x; (now left) || (right; discriminate)).
  destruct Hdec as [->|Hx].
  - now rewrite Hnull.
  - destruct (Hp x Hx) as [b ->].
    destruct Hin as [E|Hin]; [congruence|].
    now rewrite (IH Hin).
Qed.

Lemma has_level_exclusive x :
  (Nat.b2n (has_level ERROR x) + Nat.b2n (has_level WARN x)
   + Nat.b2n (has_level INFO x) + Nat.b2n (has_level DEBUG x) <= 1)%nat.
Proof.
  destruct x as [| | | | |?|fs]; cbn; try lia.
  destruct (lookup_member fs "level") as [[| | | |s| |]|]; cbn; try lia.
  destruct (String.eqb_spec s "ERROR") as [->|]; [cbn; lia|].
  destruct (String.eqb_spec s "WARN") as [->|]; [cbn; lia|].
  destruct (String.eqb_spec s "INFO") as [->|]; [cbn; lia|].
  destruct (String.eqb s "DEBUG"); cbn; lia.
Qed.

Lemma has_level_stored l e x :
  stored e x -> has_level l x = bool_decide (level e = l).
Proof.
  intros Hx. pose proof (level_is_stored l e x Hx) as H.
  rewrite level_is_has_level in H; [congruence|].
  destruct (stored_inv e x Hx) as (? & ? & _ & _ & ->). discriminate.
Qed.

Lemma levels_partition xs :
  (List.length (List.filter (has_level ERROR) xs)
   + List.length (List.filter (has_level WARN) xs)
   + List.length (List.filter (has_level INFO) xs)
   + List.length (List.filter (has_level DEBUG) xs) <= List.length xs)%nat.
Proof.
  induction xs as [|x xs IH]; cbn; [lia|].
  pose proof (has_level_exclusive x) as Hx.
  destruct (has_level ERROR x), (has_level WARN x), (has_level INFO x),
           (has_level DEBUG x); cbn in *; lia.
Qed.

Lemma levels_cover es xs :
  Forall2 stored es xs ->
  (List.length (List.filter (has_level ERROR) xs)
   + List.length (List.filter (has_level WARN) xs)
   + List.length (List.filter (has_level INFO) xs)
   + List.length (List.filter (has_level DEBUG) xs)
   = List.length xs)%nat.
Proof.
  induction 1 as [|e x es xs Hx _ IH]; [reflexivity|].
  cbn [List.filter List.length]. rewrite !(has_level_stored _ e x Hx).
  destruct (level e); repeat case_bool_decide; try congruence;
    cbn [List.length]; lia.
Qed.

(** X18. On an enabled store whose slot holds an array without a [null]
    element, whatever else its elements are, [getLogsSummary] returns:
    [total] is the length of the array, each count is the number of
    elements that are objects whose [level] is the name of that level,
    so the four counts add up to at most [total], and to [total] when
    the elements are the stored forms of entries the class wrote. *)
Theorem summary_of_any_array this h w xs :
  enabled this = true ->
  decode (slot this h w) = JArr xs ->
  ~ In JNull xs ->
  exists s,
    fst (getLogsSummary this h w) = Returned s /\
    Summary.total s = List.length xs /\
    Summary.errors s = List.length (List.filter (has_level ERROR) xs) /\
    Summary.warnings s = List.length (List.filter (has_level WARN) xs) /\
    Summary.info s = List.length (List.filter (has_level INFO) xs) /\
    Summary.debug s = List.length (List.filter (has_level DEBUG) xs) /\
    (Summary.errors s + Summary.warnings s + Summary.info s + Summary.debug s
     <= Summary.total s)%nat /\
    (forall es, Forall2 stored es xs ->
                (Summary.errors s + Summary.warnings s + Summary.info s
                 + Summary.debug s = Summary.total s)%nat).
Proof.
  intros He Hd Hn.
  exists (Summary.mk (List.length xs)
            (List.length (List.filter (has_level ERROR) xs))
            (List.length (List.filter (has_level WARN) xs))
            (List.length (List.filter (has_level INFO) xs))
            (List.length (List.filter (has_level DEBUG) xs))).
  split.
  { unfold getLogsSummary. rewrite He. cbn [negb].
    unfold bind at 1. rewrite getLogs_run, He, Hd.
    unfold bind, lift, ret. cbn [as_array].
    rewrite !(Array_filter_no_null _ (has_level _))
      by (assumption || (intros; now apply level_is_has_level)).
    reflexivity. }
  cbn [Summary.total Summary.errors Summary.warnings Summary.info Summary.debug].
  repeat (split; [reflexivity|]).
  split; [apply levels_partition|].
  intros es Hes. eapply levels_cover, Hes.
Qed.

Lemma summary_of_any_array_witness :
  let xs := [JObj [("level", JStr "TRACE")]; JNum 7; JObj [("level", JStr "WARN")]] in
  let text := JSON.stringify (JArr xs) in
  exists s,
    fst (getLogsSummary Logger_fields browser (world_with text)) = Returned s /\
    Summary.total s = List.length xs /\
    Summary.errors s = List.length (List.filter (has_level ERROR) xs) /\
    Summary.warnings s = List.length (List.filter (has_level WARN) xs) /\
    Summary.info s = List.length (List.filter (has_level INFO) xs) /\
    Summary.debug s = List.length (List.filter (has_level DEBUG) xs) /\
    (Summary.errors s + Summary.warnings s + Summary.info s + Summary.debug s
     <= Summary.total s)%nat /\
    (forall es, Forall2 stored es xs ->
                (Summary.errors s + Summary.warnings s + Summary.info s
                 + Summary.debug s = Summary.total s)%nat).
Proof.
  intros xs text.
  apply (summary_of_any_array Logger_fields browser (world_with text) xs).
  - reflexivity.
  - reflexivity.
  - cbn. intros [H|[H|[H|[]]]]; discriminate H.
Defined.

Lemma level_is_returns l x : x <> JNull -> exists b, level_is l x = Returned b.
Proof. intros Hx. eexists. now apply level_is_has_level. Qed.

Lemma not_expired_returns h cutoff x :
  x <> JNull -> exists b, not_expired h cutoff x = Returned b.
Proof.
  intros Hx. unfold not_expired.
  destruct x; try congruence; cbn [get_prop]; eauto.
Qed.

(** X19. An array with a [null] element in the slot is returned by
    [getLogs] as it is, but breaks the methods that read a field of
    every element: [getLogsSummary] throws a [TypeError], and so does
    the construction of the logger in a page (its sweep reads the
    timestamps), both after one read and without changing the
    storage. *)
Theorem null_element_throws this h w xs :
  enabled this = true ->
  decode (slot this h w) = JArr xs ->
  In JNull xs ->
  fst (getLogs this h w) = Returned (JArr xs) /\
  getLogsSummary this h w =
  (Thrown TypeError,
   mkWorld (items w) (trace w ++ [EvGetItem (storageKey this) false])) /\
  (forall href,
      storageKey this = storageKey Logger_fields ->
      window h = Some href -> document h = true ->
      new_Logger h w =
      (Thrown TypeError,
       mkWorld (items w) (trace w ++ [EvGetItem (storageKey this) false]))).
Proof.
  intros He Hd Hin.
  assert (Hc : corrupt (slot this h w) = false).
  { destruct (corrupt (slot this h w)) eqn:Hc; [|reflexivity].
    rewrite (decode_corrupt _ Hc) in Hd. injection Hd as <-. destruct Hin. }
  assert (Hu : unavailable h = false).
  { destruct (unavailable h) eqn:Hu; [|reflexivity].
    unfold slot in Hd. rewrite Hu in Hd. injection Hd as <-. destruct Hin. }
  assert (Hread : after_read this h w =
                  mkWorld (items w) (trace w ++ [EvGetItem (storageKey this) false])).
  { unfold after_read. now rewrite Hc, Hu. }
  split; [now rewrite getLogs_run, He, Hd|]. split.
  - unfold getLogsSummary. rewrite He. cbn [negb].
    unfold bind at 1. rewrite getLogs_run, He, Hd, Hread.
    unfold bind, lift. cbn [as_array].
    rewrite (Array_filter_null (level_is ERROR) xs)
      by (reflexivity || assumption || (intros; now apply level_is_returns)).
    reflexivity.
  - intros href Hk Hw Hdoc.
    assert (Hslot : slot Logger_fields h w = slot this h w).
    { unfold slot. now rewrite Hk. }
    rewrite (new_Logger_run h w href Hw Hdoc), cleanExpiredLogs_run by reflexivity.
    assert (Hread' : after_read Logger_fields h w = after_read this h w).
    { unfold after_read. now rewrite Hslot, Hk. }
    rewrite Hread', Hslot, Hd, Hread. cbn [as_array].
    rewrite (Array_filter_null (not_expired h _) xs)
      by (reflexivity || assumption || (intros; now apply not_expired_returns)).
    reflexivity.
Qed.

Lemma null_element_throws_witness :
  let xs := entries_json [recent_entry] ++ [JNull] in
  let w := world_with (JSON.stringify (JArr xs)) in
  fst (getLogs Logger_fields browser w) = Returned (JArr xs) /\
  getLogsSummary Logger_fields browser w =
  (Thrown TypeError,
   mkWorld (items w) (trace w ++ [EvGetItem (storageKey Logger_fields) false])) /\
  (forall href,
      storageKey Logger_fields = storageKey Logger_fields ->
      window browser = Some href -> document browser = true ->
      new_Logger browser w =
      (Thrown TypeError,
       mkWorld (items w)
         (trace w ++ [EvGetItem (storageKey Logger_fields) false]))).
Proof.
  intros xs w.
  apply (null_element_throws Logger_fields browser w xs).
  - reflexivity.
  - reflexivity.
  - right. left. reflexivity.
Defined.

(** X20. A text in the slot that parses to something other than an
    array (an object, a number, a string, [null]) is neither refused nor
    removed: [getLogs] returns the value as it is and [exportLogs]
    prints it, while [getLogsSummary] throws a [TypeError]; each does
    one read and leaves the text where it is, so the next call finds it
    again. *)
Theorem non_array_value_is_returned_unchecked this h w text v :
  enabled this = true ->
  slot this h w = Some text ->
  JSON.parse text = Some v ->
  is_array v = false ->
  let w' := mkWorld (items w) (trace w ++ [EvGetItem (storageKey this) false]) in
  getLogs this h w = (Returned v, w') /\
  exportLogs this h w = (Returned (JSON.stringify_pretty 2 v), w') /\
  getLogsSummary this h w = (Thrown TypeError, w') /\
  slot this h w' = Some text.
Proof.
  intros He Hslot Hparse Hv w'.
  assert (Hu : unavailable h = false).
  { unfold slot in Hslot. now destruct (unavailable h). }
  assert (Hread : after_read this h w = w').
  { unfold after_read. rewrite Hslot, (corrupt_parsed _ _ Hparse), Hu.
    reflexivity. }
  assert (Hget : getLogs this h w = (Returned v, w')).
  { now rewrite getLogs_run, He, Hslot, (decode_parsed _ _ Hparse), Hread. }
  split; [exact Hget|]. split; [|split].
  - unfold exportLogs. rewrite He. cbn [negb]. unfold bind. now rewrite Hget.
  - unfold getLogsSummary. rewrite He. cbn [negb]. unfold bind at 1.
    rewrite Hget. unfold bind, lift.
    destruct v; try discriminate Hv; reflexivity.
  - exact Hslot.
Qed.

Lemma non_array_value_is_returned_unchecked_witness :
  let w := world_with "{}" in
  let w' := mkWorld (items w)
              (trace w ++ [EvGetItem (storageKey Logger_fields) false]) in
  getLogs Logger_fields browser w = (Returned (JObj []), w') /\
  exportLogs Logger_fields browser w
  = (Returned (JSON.stringify_pretty 2 (JObj [])), w') /\
  getLogsSummary Logger_fields browser w = (Thrown TypeError, w') /\
  slot Logger_fields browser w' = Some "{}".
Proof.
  intros w.
  apply (non_array_value_is_returned_unchecked Logger_fields browser w "{}"
           (JObj [])); reflexivity.
Defined.

(* ===================================================================== *)
(** ** The built class *)
(* ===================================================================== *)

Lemma Dist_getLogs_run this h w :
  Dist.getLogs this h w =
  if Dist.enabled this then
    match storage h with
    | Unavailable =>
        (Returned (JArr []),
         mkWorld (items w)
           (trace w ++ [EvGetItem (Dist.storageKey this) true;
                        EvConsole console_error
                          [Str "Failed to get logs:"; Dist.caught "DOMException"]]))
    | _ =>
        (Returned (decode (items w !! Dist.storageKey this)),
         mkWorld (items w)
           (trace w ++ EvGetItem (Dist.storageKey this) false ::
              if corrupt (items w !! Dist.storageKey this)
              then [EvConsole console_error
                      [Str "Failed to get logs:"; Dist.caught "SyntaxError"]]
              else []))
    end
  else (Returned (JArr []), w).
Proof.
  unfold Dist.getLogs. destruct (Dist.enabled this); [|reflexivity].
  cbn [negb]. unfold try_catch_with, localStorage_getItem.
  destruct (storage h).
  3: { cbv beta iota zeta delta [bind emit throw console ret].
       cbn [items trace Dist.exn_value]. now rewrite <- app_assoc. }
  all: destruct (items w !! Dist.storageKey this) as [text|] eqn:Hi;
    cbv beta iota zeta delta [bind emit throw console ret];
    cbn [items trace]; rewrite ?Hi; cbn [items trace corrupt decode];
    try reflexivity.
  all: destruct (String.eqb text ""); cbn [negb andb]; try reflexivity.
  all: destruct (JSON.parse text); cbn [items trace]; try reflexivity.
  all: now rewrite <- app_assoc.
Qed.

Lemma Dist_log_run this h l msg d w :
  Dist.log this h l msg d w =
  match Dist.saveLog this h (Dist.createLogEntry h l msg d) w with
  | (Returned _, w1) =>
      (Returned tt,
       mkWorld (items w1)
         (trace w1 ++ [Dist.console_line (Dist.createLogEntry h l msg d)]))
  | (Thrown x, w1) => (Thrown x, w1)
  end.
Proof.
  destruct l; cbn [Dist.log]; unfold Dist.debug, Dist.info, Dist.warn, Dist.error,
    bind, emit;
    now destruct (Dist.saveLog _ _ _ _) as [[[]|] ?].
Qed.

Lemma Dist_saveLog_run this h e w :
  Dist.saveLog this h e w =
  if Dist.enabled this then
    let w1 := snd (Dist.getLogs this h w) in
    let report x :=
      (Returned tt,
       mkWorld (items w)
         (trace w1 ++ [EvConsole console_error
                         [Str "Failed to save log:"; Dist.exn_value x]])) in
    match as_array (match storage h with
                    | Unavailable => JArr []
                    | _ => decode (items w !! Dist.storageKey this)
                    end) with
    | Thrown x => report x
    | Returned xs =>
        match stringify_logs
                (evict (Dist.maxLogs this) (map Parsed xs ++ [Pushed e])) with
        | Thrown x => report x
        | Returned text =>
            match storage h with
            | Available =>
                (Returned tt,
                 mkWorld (<[Dist.storageKey this := text]> (items w))
                   (trace w1 ++ [EvSetItem (Dist.storageKey this) text false]))
            | _ =>
                (Returned tt,
                 mkWorld (items w)
                   (trace w1 ++
                    [EvSetItem (Dist.storageKey this) text true;
                     EvConsole console_error
                       [Str "Failed to save log:"; Dist.caught "DOMException"]]))
            end
        end
    end
  else (Returned tt, w).
Proof.
  unfold Dist.saveLog. destruct (Dist.enabled this) eqn:He; [|reflexivity].
  cbn [negb]. unfold try_catch_with. unfold bind at 1.
  rewrite Dist_getLogs_run, He.
  destruct (storage h) eqn:Hst; cbn [snd]; unfold bind at 1, lift at 1;
    destruct (as_array _) as [xs|x]; try reflexivity;
    unfold bind at 1, lift, evict;
    destruct (stringify_logs _) as [text|x]; try reflexivity;
    unfold localStorage_setItem; rewrite Hst;
    cbv beta iota zeta delta [bind emit throw console];
    cbn [items trace Dist.exn_value]; rewrite <- ?app_assoc; reflexivity.
Qed.

(** X21. A log call of the built class never throws and always ends
    with its console line, [[LEVEL] message] and the data, whatever the
    data, the state of the store, of the slot and of the storage; it
    never removes a key from the storage; on a disabled store the
    console line is all it does. *)
Theorem Dist_log_never_throws this h l msg d w :
  let e := Dist.createLogEntry h l msg d in
  fst (Dist.log this h l msg d w) = Returned tt /\
  last (trace (snd (Dist.log this h l msg d w))) = Some (Dist.console_line e) /\
  Dist.console_line e
  = EvConsole (console_of l) [Str ("[" +:+ LogLevel_name l +:+ "] " +:+ msg); d] /\
  (forall k, is_Some (items w !! k) ->
             is_Some (items (snd (Dist.log this h l msg d w)) !! k)) /\
  (Dist.enabled this = false ->
   Dist.log this h l msg d w
   = (Returned tt, mkWorld (items w) (trace w ++ [Dist.console_line e]))).
Proof.
  intros e. rewrite Dist_log_run, Dist_saveLog_run. fold e.
  destruct (Dist.enabled this).
  - cbv zeta.
    destruct (as_array _); [destruct (stringify_logs _)|];
      try destruct (storage h);
      cbn [fst snd items trace];
      (split; [reflexivity|]); (split; [apply last_snoc|]);
      (split; [reflexivity|]); (split; [|discriminate]); intros k Hk; try exact Hk.
    destruct (decide (k = Dist.storageKey this)) as [->|Hne].
    + rewrite lookup_insert_eq. eauto.
    + now rewrite lookup_insert_ne by congruence.
  - cbn [fst snd items trace].
    split; [reflexivity|]. split; [apply last_snoc|].
    split; [reflexivity|]. split; [auto|reflexivity].
Qed.

Lemma Dist_log_never_throws_witness :
  Dist.log (Dist.disable Dist.Logger_fields) browser WARN "slow" Undefined
    (world_of six_entries)
  = (Returned tt,
     mkWorld (items (world_of six_entries))
       (trace (world_of six_entries)
        ++ [Dist.console_line (Dist.createLogEntry browser WARN "slow" Undefined)])).
Proof.
  apply (proj2 (proj2 (proj2 (proj2
           (Dist_log_never_throws (Dist.disable Dist.Logger_fields) browser WARN
              "slow" Undefined (world_of six_entries)))))).
  reflexivity.
Defined.



(** X23. The built class does not recover from a text that does not
    parse: [getLogs] reports the failure with [console.error] and
    returns [[]], but leaves the text in the slot, so the next read
    fails and reports again. *)
Theorem Dist_getLogs_keeps_corrupt_text this h w :
  Dist.enabled this = true ->
  storage h <> Unavailable ->
  corrupt (items w !! Dist.storageKey this) = true ->
  let w' := mkWorld (items w)
              (trace w ++ [EvGetItem (Dist.storageKey this) false;
                           EvConsole console_error
                             [Str "Failed to get logs:"; Dist.caught "SyntaxError"]]) in
  Dist.getLogs this h w = (Returned (JArr []), w') /\
  corrupt (items w' !! Dist.storageKey this) = true /\
  exists evs,
    Dist.getLogs this h w' = (Returned (JArr []), mkWorld (items w) (trace w' ++ evs)) /\
    In (EvConsole console_error
          [Str "Failed to get logs:"; Dist.caught "SyntaxError"]) evs.
Proof.
  intros He Hst Hc w'.
  assert (Hrun : forall tr,
             Dist.getLogs this h (mkWorld (items w) tr) =
             (Returned (JArr []),
              mkWorld (items w)
                (tr ++ [EvGetItem (Dist.storageKey this) false;
                        EvConsole console_error
                          [Str "Failed to get logs:"; Dist.caught "SyntaxError"]]))).
  { intros tr. rewrite Dist_getLogs_run, He. cbn [items trace].
    rewrite Hc, (decode_corrupt _ Hc). destruct (storage h); congruence. }
  split; [|split].
  - specialize (Hrun (trace w)). now destruct w.
  - exact Hc.
  - eexists. split; [apply Hrun|]. right. now left.
Qed.

Lemma Dist_getLogs_keeps_corrupt_text_witness :
  let this := Dist.Logger_fields in
  let w := corrupt_world in
  let w' := mkWorld (items w)
              (trace w ++ [EvGetItem (Dist.storageKey this) false;
                           EvConsole console_error
                             [Str "Failed to get logs:"; Dist.caught "SyntaxError"]]) in
  Dist.getLogs this browser w = (Returned (JArr []), w') /\
  corrupt (items w' !! Dist.storageKey this) = true /\
  exists evs,
    Dist.getLogs this browser w'
    = (Returned (JArr []), mkWorld (items w) (trace w' ++ evs)) /\
    In (EvConsole console_error
          [Str "Failed to get logs:"; Dist.caught "SyntaxError"]) evs.
Proof.
  intros this w.
  apply (Dist_getLogs_keeps_corrupt_text this browser w).
  - reflexivity.
  - discriminate.
  - reflexivity.
Defined.

(** X24. [clearLogs] of the built class is not guarded: on an enabled
    store it throws what [removeItem] throws when the storage cannot be
    reached, and removes the key otherwise; on a disabled store it does
    nothing. *)
Theorem Dist_clearLogs_is_not_guarded this h w :
  (Dist.enabled this = true -> storage h = Unavailable ->
   Dist.clearLogs this h w =
   (Thrown StorageError,
    mkWorld (items w) (trace w ++ [EvRemoveItem (Dist.storageKey this) true]))) /\
  (Dist.enabled this = true -> storage h <> Unavailable ->
   Dist.clearLogs this h w =
   (Returned tt,
    mkWorld (delete (Dist.storageKey this) (items w))
            (trace w ++ [EvRemoveItem (Dist.storageKey this) false]))) /\
  (Dist.enabled this = false -> Dist.clearLogs this h w = (Returned tt, w)).
Proof.
  unfold Dist.clearLogs, localStorage_removeItem.
  split; [|split]; intros He; rewrite He; cbn [negb]; try reflexivity;
    intros Hst; destruct (storage h); try congruence; reflexivity.
Qed.

Lemma Dist_clearLogs_is_not_guarded_witness :
  let h := with_storage Unavailable browser in
  Dist.clearLogs Dist.Logger_fields h (world_of six_entries) =
  (Thrown StorageError,
   mkWorld (items (world_of six_entries))
     (trace (world_of six_entries)
      ++ [EvRemoveItem (Dist.storageKey Dist.Logger_fields) true])).
Proof.
  intros h.
  apply (proj1 (Dist_clearLogs_is_not_guarded Dist.Logger_fields h
                  (world_of six_entries))); reflexivity.
Defined.

(** X25. The construction of the built class never throws and never
    touches the storage, whatever the slot holds (it has no sweep): in a
    page it registers the two listeners and the store is enabled;
    elsewhere it warns on the console and the store is disabled. *)
Theorem Dist_construction_touches_nothing h w :
  exists this evs,
    Dist.new_Logger h w = (Returned this, mkWorld (items w) (trace w ++ evs)) /\
    existsb storage_event evs = false /\
    Dist.maxLogs this = 1000%nat /\
    Dist.storageKey this = "RKLINK_FRONTEND_LOGS" /\
    Dist.enabled this = match window h with
                        | Some _ => document h
                        | None => false
                        end /\
    evs = if Dist.enabled this
          then [EvAddEventListener "error"; EvAddEventListener "unhandledrejection"]
          else [EvConsole console_warn
                  [Str "Logger is designed for browser environments and will be disabled."]].
Proof.
  unfold Dist.new_Logger.
  destruct (window h) as [href|], (document h);
    cbv beta iota zeta delta [bind emit ret console setupGlobalErrorHandler
                                setupUnhandledRejectionHandler];
    cbn [items trace]; rewrite <- ?app_assoc; cbn [app];
    do 2 eexists; (split; [reflexivity|]); repeat split.
Qed.

(** X26. Where the class of the sources throws, the built class
    reports: a log call on an enabled store whose slot parses to
    something that is not an array returns normally, after one read, a
    [console.error] of the [TypeError] and its console line, and leaves
    the text in the slot. *)
Theorem Dist_log_on_non_array_slot this h l msg d w :
  Dist.enabled this = true ->
  storage h <> Unavailable ->
  is_array (decode (items w !! Dist.storageKey this)) = false ->
  Dist.log this h l msg d w =
  (Returned tt,
   mkWorld (items w)
     (trace w ++ [EvGetItem (Dist.storageKey this) false;
                  EvConsole console_error
                    [Str "Failed to save log:"; Dist.caught "TypeError"];
                  Dist.console_line (Dist.createLogEntry h l msg d)])).
Proof.
  intros He Hst Hv.
  assert (Hc : corrupt (items w !! Dist.storageKey this) = false).
  { destruct (corrupt _) eqn:Hc; [|reflexivity].
    now rewrite (corrupt_decodes_array _ Hc) in Hv. }
  rewrite Dist_log_run, Dist_saveLog_run, He, Dist_getLogs_run, He.
  pose proof (as_array_is_array (decode (items w !! Dist.storageKey this))) as Ha.
  destruct (storage h); try congruence;
    (destruct (as_array _) as [xs|x]; [destruct Ha; congruence|]);
    destruct Ha as [-> _];
    cbn [snd items trace Dist.exn_value]; rewrite Hc, <- !app_assoc; reflexivity.
Qed.

Lemma Dist_log_on_non_array_slot_witness :
  let this := Dist.Logger_fields in
  let w := world_with "{}" in
  Dist.log this browser INFO "hello" Undefined w =
  (Returned tt,
   mkWorld (items w)
     (trace w ++ [EvGetItem (Dist.storageKey this) false;
                  EvConsole console_error
                    [Str "Failed to save log:"; Dist.caught "TypeError"];
                  Dist.console_line
                    (Dist.createLogEntry browser INFO "hello" Undefined)])).
Proof.
  intros this w.
  apply (Dist_log_on_non_array_slot this browser INFO "hello" Undefined w).
  - reflexivity.
  - discriminate.
  - reflexivity.
Defined.

(* ===================================================================== *)
(** ** The release script *)
(* ===================================================================== *)

(** X27. [release.sh] publishes exactly when it was given an argument,
    the work tree is clean, the build and the version bump succeed, and
    either [git push] fails or [git push --tags] succeeds: a failure of
    [git push] does not stop the script (it is the left command of an
    [&&] list), it only skips the push of the tags.  The script ends
    with status 0 exactly when it publishes and [npm publish]
    succeeds. *)
Theorem release_publishes_exactly_when arg env :
  let ready := arg <> "" /\ env Release.git_diff_index = 0 /\
               env Release.npm_run_build = 0 /\
               env (Release.npm_version arg) = 0 in
  (In Release.npm_publish (snd (Release.release arg env)) <->
   ready /\ (env Release.git_push <> 0 \/ env Release.git_push_tags = 0)) /\
  (In Release.git_push_tags (snd (Release.release arg env)) <->
   ready /\ env Release.git_push = 0) /\
  (fst (Release.release arg env) = 0 <->
   In Release.npm_publish (snd (Release.release arg env)) /\
   env Release.npm_publish = 0).
Proof.
  intros ready. unfold ready, Release.release, Release.errexit, Release.ok.
  destruct (String.eqb_spec arg "") as [Ha|Ha];
    [|destruct (Z.eqb_spec (env Release.git_diff_index) 0) as [H1|H1];
      [destruct (Z.eqb_spec (env Release.npm_run_build) 0) as [H2|H2];
       [destruct (Z.eqb_spec (env (Release.npm_version arg)) 0) as [H3|H3];
        [destruct (Z.eqb_spec (env Release.git_push) 0) as [H4|H4];
         [destruct (Z.eqb_spec (env Release.git_push_tags) 0) as [H5|H5]|];
         try destruct (Z.eqb_spec (env Release.npm_publish) 0) as [H6|H6]|]|]|]];
    cbn [negb fst snd app In];
    intuition (congruence || discriminate).
Qed.

Lemma release_publishes_exactly_when_witness :
  Release.release "patch" Release.push_fails =
  (0, [Release.git_diff_index; Release.npm_run_build; Release.npm_version "patch";
       Release.git_push; Release.npm_publish]) /\
  In Release.npm_publish (snd (Release.release "patch" Release.push_fails)).
Proof.
  split; [reflexivity|].
  apply (proj2 (proj1 (release_publishes_exactly_when "patch" Release.push_fails))).
  repeat split; try reflexivity; [discriminate|left; discriminate].
Defined.
